(** * Boardie local store: a shallow embedding of [BoardieDB]

    The development follows the persistence layer of the application
    (class [BoardieDB]): the flat localStorage backend with its tag-count
    bookkeeping, the query pipeline of [getAllPosts], the reconciliation
    loop of [syncWithSupabase] and the queue of operations issued before
    the store is ready. The indexed backend appears through what its
    read requests answer.

    Conventions.
    - A JavaScript object field that may be missing is an [option];
      [None] is [undefined].
    - Numbers that the code only uses as integers (counts, indices,
      [limit], [offset]) are in [Z].
    - [new Date().toISOString()] and [crypto.randomUUID()] are inputs of
      the operation that calls them ([now], [uuid]).
    - A promise is represented by the way it settles ([Settled]). *)

From stdpp Require Import list strings sorting.
From Stdlib Require Import ZArith Lia Bool Ascii.

Open Scope Z_scope.

(** ** JavaScript primitives used by the store *)

Module Js.

(** Truthiness of a possibly missing string: [undefined] and the empty
    string are falsy. *)
Definition truthy (v : option string) : bool :=
  match v with
  | Some s => negb (String.eqb s EmptyString)
  | None => false
  end.

(** [a === b] on possibly missing strings. *)
Definition strict_eq (a b : option string) : bool :=
  match a, b with
  | Some x, Some y => String.eqb x y
  | None, None => true
  | _, _ => false
  end.

(** [a > b] on possibly missing strings. Two strings are compared
    code unit by code unit; as soon as one side is [undefined] it
    converts to NaN and the comparison is false. *)
Definition gt (a b : option string) : bool :=
  match a, b with
  | Some x, Some y => String.ltb y x
  | _, _ => false
  end.

(** [arr.findIndex(f)]: index of the first element satisfying [f],
    [-1] when there is none. *)
Fixpoint findIndex {A} (f : A -> bool) (arr : list A) : Z :=
  match arr with
  | [] => -1
  | x :: rest =>
      if f x then 0
      else let i := findIndex f rest in
           if i <? 0 then -1 else i + 1
  end.

(** [arr.includes(x)] on an array of strings. *)
Definition includes (arr : list string) (x : string) : bool :=
  existsb (String.eqb x) arr.

(** [s.includes(t)] on strings: [t] occurs in [s]. *)
Fixpoint str_includes (s t : string) : bool :=
  if String.prefix t s then true
  else match s with
       | EmptyString => false
       | String _ rest => str_includes rest t
       end.

(** [arr[i] = v] for an index inside the array. The store only writes
    at an index returned by [findIndex] after checking that it is not
    [-1]. *)
Definition set_at {A} (arr : list A) (i : Z) (v : A) : list A :=
  <[Z.to_nat i := v]> arr.

(** [arr.splice(i, 1)] for [0 <= i]: removes the element at [i]. *)
Definition splice1 {A} (arr : list A) (i : Z) : list A :=
  delete (Z.to_nat i) arr.

(** Clamping of a relative index as [Array.prototype.slice] does it:
    a negative index counts from the end. *)
Definition clamp (len k : Z) : Z :=
  if k <? 0 then Z.max (len + k) 0 else Z.min k len.

(** [arr.slice(start, end)]. *)
Definition slice {A} (arr : list A) (start end_ : Z) : list A :=
  let len := Z.of_nat (length arr) in
  let k := clamp len start in
  let final := clamp len end_ in
  take (Z.to_nat (Z.max (final - k) 0)) (drop (Z.to_nat k) arr).

(** [arr.sort(cmp)]. The sort of the language is stable; for a
    comparator that is a consistent ordering the result is the unique
    stable arrangement, which insertion from the right computes.
    [cmp a b <= 0] keeps [a] in front of [b]. *)
Fixpoint insert_sorted {A} (cmp : A -> A -> Z) (x : A) (l : list A) : list A :=
  match l with
  | [] => [x]
  | y :: rest =>
      if cmp x y <=? 0 then x :: y :: rest
      else y :: insert_sorted cmp x rest
  end.

Definition sort {A} (cmp : A -> A -> Z) (arr : list A) : list A :=
  foldr (insert_sorted cmp) [] arr.

End Js.

(** ** Data model *)

(** A post as the store sees it. [user_id] is the owner column carried by
    rows that come from the remote table. *)
Record Post := mkPost {
  id : option string;
  url : string;
  platform : string;
  title : option string;
  description : option string;
  tags : option (list string);
  dateAdded : option string;
  updatedAt : option string;
  user_id : option string
}.

(** A tag aggregate [{ name, count }]. *)
Record Tag := mkTag {
  name : string;
  count : Z
}.

(** The document kept under the fallback key of localStorage:
    [{ posts: [], tags: [], settings: {} }]. *)
Module Data.
Record t := mk {
  posts : list Post;
  tags : list Tag;
  settings : list (string * string)
}.
Definition empty : t := mk [] [] [].
End Data.

(** The content of localStorage under the fallback key. [None] stands for
    a missing entry: [JSON.parse(null)] is [null], and reading a field of
    it throws a TypeError. *)
Definition Storage := option Data.t.

(** Errors that the store throws or passes on. *)
Inductive Error :=
| JsError (message : string)
| TypeError
| RequestFailed (detail : string).

Definition NotFound : Error := JsError "Post not found"%string.
Definition DuplicateURL : Error := JsError "Post with this URL already exists"%string.

(** How a promise settles. *)
Inductive Settled (A : Type) :=
| Resolved (a : A)
| Rejected (e : Error)
| Pending.
Arguments Resolved {A} a.
Arguments Rejected {A} e.
Arguments Pending {A}.

(** An entry of the sync queue: [{ action, data }]. For [delete] the data
    is [{ id, user_id }]. *)
Inductive SyncEntry :=
| SyncAdd (data : Post)
| SyncUpdate (data : Post)
| SyncDelete (post_id : option string) (owner : string).

(** The part of the store object that decides whether a mutation is
    queued for the remote side. *)
Record Session := mkSession {
  isOnline : bool;
  currentUser : option string
}.

(** Result of a call on the ready store: how the returned promise
    settles, the content of localStorage afterwards and the entry pushed
    on the sync queue (which also starts a sync cycle), if any. *)
Record Result (A : Type) := mkResult {
  outcome : Settled A;
  storage : Storage;
  queued : option SyncEntry
}.
Arguments mkResult {A}.
Arguments outcome {A}.
Arguments storage {A}.
Arguments queued {A}.

(** ** Tag bookkeeping of the fallback backend *)

Definition has_name (tag : string) (t : Tag) : bool := String.eqb (name t) tag.

(** Body of the loop that increments the count of one tag. *)
Definition increment_tag (tagList : list Tag) (tag : string) : list Tag :=
  let tagIndex := Js.findIndex (has_name tag) tagList in
  if 0 <=? tagIndex then
    match tagList !! Z.to_nat tagIndex with
    | Some t => Js.set_at tagList tagIndex (mkTag (name t) (count t + 1))
    | None => tagList
    end
  else tagList ++ [mkTag tag 1].

(** Body of the loop that decrements the count of one tag and removes the
    record when the count reaches zero. *)
Definition decrement_tag (tagList : list Tag) (tag : string) : list Tag :=
  let tagIndex := Js.findIndex (has_name tag) tagList in
  if 0 <=? tagIndex then
    match tagList !! Z.to_nat tagIndex with
    | Some t =>
        let c := Z.max 0 (count t - 1) in
        if c =? 0 then Js.splice1 tagList tagIndex
        else Js.set_at tagList tagIndex (mkTag (name t) c)
    | None => tagList
    end
  else tagList.

Definition increment_tags (tagList : list Tag) (ts : list string) : list Tag :=
  foldl increment_tag tagList ts.

Definition decrement_tags (tagList : list Tag) (ts : list string) : list Tag :=
  foldl decrement_tag tagList ts.

(** [post.tags || []] *)
Definition tags_or_empty (p : Post) : list string :=
  match tags p with Some ts => ts | None => [] end.

(** [{ ...post, user_id: this.currentUser.id }] *)
Definition with_owner (p : Post) (owner : string) : Post :=
  mkPost (id p) (url p) (platform p) (title p) (description p) (tags p)
         (dateAdded p) (updatedAt p) (Some owner).

(** [sync && this.isOnline && this.currentUser], then the push on the
    sync queue. *)
Definition enqueue (sync : bool) (s : Session) (entry : string -> SyncEntry)
  : option SyncEntry :=
  if sync && isOnline s then
    match currentUser s with
    | Some owner => Some (entry owner)
    | None => None
    end
  else None.

(** ** Operations on the ready store, fallback backend

    Each definition is the body of the method after the readiness check,
    on the branch where [isIndexedDBSupported] is false. *)

Definition has_id (i : option string) (p : Post) : bool := Js.strict_eq (id p) i.
Definition has_url (u : string) (p : Post) : bool := String.eqb (url p) u.

(** [post.updatedAt = v] *)
Definition set_updatedAt (p : Post) (v : string) : Post :=
  mkPost (id p) (url p) (platform p) (title p) (description p) (tags p)
         (dateAdded p) (Some v) (user_id p).

(** The first lines of [addPost]: the id is generated when it is falsy,
    [dateAdded] defaults to [now], [updatedAt] is always [now]. *)
Definition stamp (now uuid : string) (post : Post) : Post :=
  mkPost (if Js.truthy (id post) then id post else Some uuid)
         (url post) (platform post) (title post) (description post) (tags post)
         (if Js.truthy (dateAdded post) then dateAdded post else Some now)
         (Some now) (user_id post).

Definition addPost (now uuid : string) (post : Post) (sync : bool)
    (s : Session) (ls : Storage) : Result Post :=
  let post := stamp now uuid post in
  match ls with
  | None => mkResult (Rejected TypeError) ls None
  | Some data =>
      let existingIndex := Js.findIndex (has_url (url post)) (Data.posts data) in
      if 0 <=? existingIndex then mkResult (Rejected DuplicateURL) ls None
      else
        let posts' := Data.posts data ++ [post] in
        let tags' := increment_tags (Data.tags data) (tags_or_empty post) in
        mkResult (Resolved post)
                 (Some (Data.mk posts' tags' (Data.settings data)))
                 (enqueue sync s (fun owner => SyncAdd (with_owner post owner)))
  end.

(** [getPostById]: the value the promise resolves with; [None] is [null].
    A failing read is caught and gives [null]. *)
Definition getPostById (i : option string) (ls : Storage) : option Post :=
  match ls with
  | None => None
  | Some data => List.find (has_id i) (Data.posts data)
  end.

Definition tagsToAdd (oldTags newTags : list string) : list string :=
  List.filter (fun tag => negb (Js.includes oldTags tag)) newTags.

Definition tagsToRemove (oldTags newTags : list string) : list string :=
  List.filter (fun tag => negb (Js.includes newTags tag)) oldTags.

(** [updatePost] from the point where [await this.getPostById(post.id)]
    has delivered [existingPost]; [post] already carries the new
    [updatedAt]. *)
Definition updatePost_resume (existingPost : option Post) (post : Post)
    (sync : bool) (s : Session) (ls : Storage) : Result Post :=
  match existingPost with
  | None => mkResult (Rejected NotFound) ls None
  | Some existing =>
      let oldTags := tags_or_empty existing in
      let newTags := tags_or_empty post in
      match ls with
      | None => mkResult (Rejected TypeError) ls None
      | Some data =>
          let index := Js.findIndex (has_id (id post)) (Data.posts data) in
          if index =? -1 then mkResult (Rejected NotFound) ls None
          else
            let posts' := Js.set_at (Data.posts data) index post in
            let tags' :=
              decrement_tags
                (increment_tags (Data.tags data) (tagsToAdd oldTags newTags))
                (tagsToRemove oldTags newTags) in
            mkResult (Resolved post)
                     (Some (Data.mk posts' tags' (Data.settings data)))
                     (enqueue sync s (fun owner => SyncUpdate (with_owner post owner)))
      end
  end.

(** [updatePost] when nothing else runs between the lookup and the
    write. *)
Definition updatePost (now : string) (post : Post) (sync : bool)
    (s : Session) (ls : Storage) : Result Post :=
  let post := set_updatedAt post now in
  updatePost_resume (getPostById (id post) ls) post sync s ls.

(** [deletePost] from the point where [await this.getPostById(id)] has
    delivered [post]. Every exception is caught and turned into the
    result [false]. *)
Definition deletePost_resume (post : option Post) (i : option string)
    (sync : bool) (s : Session) (ls : Storage) : Result bool :=
  match post with
  | None => mkResult (Resolved false) ls None
  | Some post =>
      let ts := tags_or_empty post in
      match ls with
      | None => mkResult (Resolved false) ls None
      | Some data =>
          let index := Js.findIndex (has_id i) (Data.posts data) in
          if index =? -1 then mkResult (Resolved false) ls None
          else
            let posts' := Js.splice1 (Data.posts data) index in
            let tags' := decrement_tags (Data.tags data) ts in
            mkResult (Resolved true)
                     (Some (Data.mk posts' tags' (Data.settings data)))
                     (enqueue sync s (fun owner => SyncDelete i owner))
      end
  end.

Definition deletePost (i : option string) (sync : bool)
    (s : Session) (ls : Storage) : Result bool :=
  deletePost_resume (getPostById i ls) i sync s ls.

(** [getAllTags]: a failing read gives the empty array. *)
Definition getAllTags (ls : Storage) : list Tag :=
  match ls with
  | None => []
  | Some data => Data.tags data
  end.

(** ** Queries *)

(** The [options] argument of [getAllPosts]. *)
Module Options.
Record t := mk {
  limit : option Z;
  offset : option Z;
  sortBy : option string;
  sortOrder : option string;
  filterTags : option (list string);
  searchTerm : option string;
  platform : option string
}.
(** [options = {}] *)
Definition none : t := mk None None None None None None None.
End Options.

(** What the indexed backend answers to one read: opening the transaction
    or the index throws, the request fires [onerror], or it fires
    [onsuccess] with a result. *)
Inductive IdbRead (A : Type) :=
| TransactionThrows (e : Error)
| RequestError (e : Error)
| RequestSuccess (result : A).
Arguments TransactionThrows {A} e.
Arguments RequestError {A} e.
Arguments RequestSuccess {A} result.

(** The two backends as a read sees them. For the indexed backend
    [getAll] is asked with the name of the index and [get] with the key. *)
Inductive Backend :=
| Indexed (getAll : string -> IdbRead (list Post))
          (get : option string -> IdbRead (option Post))
| Fallback (ls : Storage).

Section Builtins.

(** Built-ins of the platform: [a.localeCompare(b)], the time value of
    [new Date(s)] ([None] is NaN) and [s.toLowerCase()]. *)
Variable localeCompare : string -> string -> Z.
Variable dateValue : string -> option Z.
Variable toLowerCase : string -> string.

(** [filterTags.every(tag => post.tags && post.tags.includes(tag))] *)
Definition matches_tags (filterTags : list string) (post : Post) : bool :=
  forallb (fun tag => match tags post with
                      | Some ts => Js.includes ts tag
                      | None => false
                      end) filterTags.

(** [v && v.toLowerCase().includes(term)] *)
Definition field_matches (term : string) (v : option string) : bool :=
  match v with
  | Some x => negb (String.eqb x EmptyString) && Js.str_includes (toLowerCase x) term
  | None => false
  end.

Definition matches_search (term : string) (post : Post) : bool :=
  Js.str_includes (toLowerCase (url post)) term
  || field_matches term (title post)
  || field_matches term (description post)
  || match tags post with
     | Some ts => existsb (fun tag => Js.str_includes (toLowerCase tag) term) ts
     | None => false
     end.

Definition apply_filters (o : Options.t) (posts : list Post) : list Post :=
  let posts :=
    match Options.filterTags o with
    | Some (t :: ts) => List.filter (matches_tags (t :: ts)) posts
    | _ => posts
    end in
  let posts :=
    match Options.platform o with
    | Some pf => if Js.truthy (Some pf)
                 then List.filter (fun post => String.eqb (platform post) pf) posts
                 else posts
    | None => posts
    end in
  match Options.searchTerm o with
  | Some st => if Js.truthy (Some st)
               then List.filter (matches_search (toLowerCase st)) posts
               else posts
  | None => posts
  end.

(** [(sortOrder === 'asc' ? 1 : -1)] *)
Definition direction (o : Options.t) : Z :=
  if Js.strict_eq (Options.sortOrder o) (Some "asc"%string) then 1 else -1.

(** [new Date(a.dateAdded) - new Date(b.dateAdded)]; [None] is NaN. *)
Definition date_difference (a b : Post) : option Z :=
  match dateAdded a, dateAdded b with
  | Some x, Some y =>
      match dateValue x, dateValue y with
      | Some dx, Some dy => Some (dx - dy)
      | _, _ => None
      end
  | _, _ => None
  end.

(** The comparator handed to [sort]. A NaN result counts as [0], as the
    sort does with it. *)
Definition comparator (o : Options.t) (a b : Post) : Z :=
  if Js.strict_eq (Options.sortBy o) (Some "platform"%string)
  then localeCompare (platform a) (platform b) * direction o
  else match date_difference a b with
       | Some d => d * direction o
       | None => 0
       end.

(** [if (limit) { const start = offset || 0; posts.slice(start, start + limit) }] *)
Definition paginate (o : Options.t) (posts : list Post) : list Post :=
  match Options.limit o with
  | Some lim =>
      if lim =? 0 then posts
      else
        let start := match Options.offset o with Some off => off | None => 0 end in
        Js.slice posts start (start + lim)
  | None => posts
  end.

(** Filters, then sort, then pagination: what both backends do with the
    array they fetched. *)
Definition query (o : Options.t) (posts : list Post) : list Post :=
  paginate o (Js.sort (comparator o) (apply_filters o posts)).

(** [getAllPosts] on the fallback backend: the value the promise
    resolves with. A failing read is caught and gives the empty
    array. *)
Definition getAllPosts (o : Options.t) (ls : Storage) : list Post :=
  match ls with
  | None => []
  | Some data => query o (Data.posts data)
  end.

(** [getAllPosts] on either backend, as the returned promise settles.
    On the indexed backend the whole read sits in the executor of a
    [new Promise] that is returned from inside the [try] block without
    being awaited. What [transaction] or [index] throws there rejects
    that promise, as [reject(event.target.error)] does, and the [catch]
    block sees neither. *)
Definition getAllPosts_settled (o : Options.t) (b : Backend) : Settled (list Post) :=
  match b with
  | Indexed getAll _ =>
      let index := if Js.strict_eq (Options.sortBy o) (Some "platform"%string)
                   then "platform"%string else "dateAdded"%string in
      match getAll index with
      | TransactionThrows e => Rejected e
      | RequestError e => Rejected e
      | RequestSuccess posts => Resolved (query o posts)
      end
  | Fallback ls => Resolved (getAllPosts o ls)
  end.

(** [getPostById] on either backend, as the returned promise settles. *)
Definition getPostById_settled (i : option string) (b : Backend)
  : Settled (option Post) :=
  match b with
  | Indexed _ get =>
      match get i with
      | TransactionThrows e => Rejected e
      | RequestError e => Rejected e
      | RequestSuccess r => Resolved r
      end
  | Fallback ls => Resolved (getPostById i ls)
  end.

(** ** One sync cycle *)

(** Calls made on the remote table [posts]. *)
Inductive RemoteCall :=
| RemoteInsert (row : Post)
| RemoteUpdate (row : Post) (match_id : option string)
| RemoteDelete (match_id : option string)
| RemoteSelect (owner : string).

(** The [switch] over the action of a queue entry. *)
Definition remote_call_of (e : SyncEntry) : RemoteCall :=
  match e with
  | SyncAdd data => RemoteInsert data
  | SyncUpdate data => RemoteUpdate data (id data)
  | SyncDelete i _ => RemoteDelete i
  end.

(** The answer [{ data, error }] of the select. *)
Inductive SelectResponse :=
| SelectData (remotePosts : list Post)
| SelectFailed (error : Error).

(** State of the first loop: the local storage, the remote posts
    handled so far (the loop writes timestamps and ids into these
    objects) and the exception that left the loop, if any. *)
Record Merge := mkMerge {
  merge_storage : Storage;
  merge_seen : list Post;
  merge_error : option Error
}.

(** The loop [for (const remotePost of remotePosts)]. [k] counts the
    iterations; iteration [k] reads the clock as [clock k] and draws
    [uuid k]. Both local calls pass [sync = false]. *)
Fixpoint merge_remote (clock uuid : nat -> string) (k : nat) (s : Session)
    (localPosts remotePosts : list Post) (ls : Storage) : Merge :=
  match remotePosts with
  | [] => mkMerge ls [] None
  | remotePost :: rest =>
      match List.find (has_id (id remotePost)) localPosts with
      | None =>
          let r := addPost (clock k) (uuid k) remotePost false s ls in
          let remotePost' := stamp (clock k) (uuid k) remotePost in
          match outcome r with
          | Resolved _ =>
              let m := merge_remote clock uuid (S k) s localPosts rest (storage r) in
              mkMerge (merge_storage m) (remotePost' :: merge_seen m) (merge_error m)
          | Rejected e => mkMerge (storage r) [remotePost'] (Some e)
          | Pending => mkMerge (storage r) [remotePost'] None
          end
      | Some localPost =>
          if Js.gt (updatedAt remotePost) (updatedAt localPost) then
            let r := updatePost (clock k) remotePost false s ls in
            let remotePost' := set_updatedAt remotePost (clock k) in
            match outcome r with
            | Resolved _ =>
                let m := merge_remote clock uuid (S k) s localPosts rest (storage r) in
                mkMerge (merge_storage m) (remotePost' :: merge_seen m) (merge_error m)
            | Rejected e => mkMerge (storage r) [remotePost'] (Some e)
            | Pending => mkMerge (storage r) [remotePost'] None
            end
          else
            let m := merge_remote clock uuid (S k) s localPosts rest ls in
            mkMerge (merge_storage m) (remotePost :: merge_seen m) (merge_error m)
      end
  end.

(** The loop [for (const localPost of localPosts)]: the local posts
    without a remote counterpart are inserted remotely. *)
Definition push_local (owner : string) (localPosts remotePosts : list Post)
  : list RemoteCall :=
  map (fun localPost => RemoteInsert (with_owner localPost owner))
      (List.filter (fun localPost =>
                      match List.find (has_id (id localPost)) remotePosts with
                      | None => true
                      | Some _ => false
                      end) localPosts).

(** What a cycle leaves behind: the local storage, the sync queue, the
    remote calls in the order they were made, and the error that was
    caught and logged, if any. *)
Record Cycle := mkCycle {
  cycle_storage : Storage;
  cycle_queue : list SyncEntry;
  cycle_calls : list RemoteCall;
  cycle_error : option Error
}.

(** [syncWithSupabase] on the ready store with the fallback backend.
    The remote writes are taken to return normally (the code does not
    look at what they return); [response] is the answer of the
    select. *)
Definition syncWithSupabase (clock uuid : nat -> string)
    (supabaseClient : bool) (s : Session) (syncQueue : list SyncEntry)
    (response : SelectResponse) (ls : Storage) : Cycle :=
  match supabaseClient, currentUser s with
  | true, Some owner =>
      let drained := map remote_call_of syncQueue in
      match response with
      | SelectFailed error =>
          mkCycle ls [] (drained ++ [RemoteSelect owner]) (Some error)
      | SelectData remotePosts =>
          let localPosts := getAllPosts Options.none ls in
          let m := merge_remote clock uuid 0 s localPosts remotePosts ls in
          match merge_error m with
          | Some e =>
              mkCycle (merge_storage m) [] (drained ++ [RemoteSelect owner]) (Some e)
          | None =>
              mkCycle (merge_storage m) []
                      (drained ++ [RemoteSelect owner]
                               ++ push_local owner localPosts (merge_seen m))
                      None
          end
      end
  | _, _ => mkCycle ls syncQueue [] None
  end.

(** ** Settings (fallback backend) *)

(** [data.settings[key] = value] on the settings object. *)
Fixpoint assoc_set (key value : string) (l : list (string * string))
  : list (string * string) :=
  match l with
  | [] => [(key, value)]
  | (k, v) :: rest =>
      if String.eqb k key then (k, value) :: rest
      else (k, v) :: assoc_set key value rest
  end.

Definition assoc_get (key : string) (l : list (string * string)) : option string :=
  match List.find (fun kv => String.eqb (fst kv) key) l with
  | Some kv => Some (snd kv)
  | None => None
  end.

(** [setSetting]: resolves with [true], or with [false] when the write
    throws. *)
Definition setSetting (key value : string) (ls : Storage) : bool * Storage :=
  match ls with
  | None => (false, ls)
  | Some data =>
      (true, Some (Data.mk (Data.posts data) (Data.tags data)
                           (assoc_set key value (Data.settings data))))
  end.

Definition getSetting (key : string) (defaultValue : option string) (ls : Storage)
  : option string :=
  match ls with
  | None => defaultValue
  | Some data =>
      match assoc_get key (Data.settings data) with
      | Some v => Some v
      | None => defaultValue
      end
  end.

(** ** Calls made before the store is ready *)

(** A public method together with its arguments: what the closure pushed
    on [pendingOperations] captures. *)
Inductive Call :=
| CallAddPost (post : Post) (sync : bool)
| CallGetAllPosts (o : Options.t)
| CallGetPostById (i : option string)
| CallUpdatePost (post : Post) (sync : bool)
| CallDeletePost (i : option string) (sync : bool)
| CallGetAllTags
| CallSetSetting (key value : string)
| CallGetSetting (key : string) (defaultValue : option string).

(** What a method resolves with. *)
Inductive Value :=
| VPost (p : Post)
| VPosts (ps : list Post)
| VFound (p : option Post)
| VBool (b : bool)
| VTags (ts : list Tag)
| VSetting (v : option string).

Definition settle_with {A} (f : A -> Value) (r : Settled A) : Settled Value :=
  match r with
  | Resolved a => Resolved (f a)
  | Rejected e => Rejected e
  | Pending => Pending
  end.

(** A call after its synchronous part: either it has run to the end, or
    it is suspended at [await this.getPostById(...)] with the post that
    the lookup found. *)
Inductive Started :=
| Finished (r : Settled Value)
| UpdateAwaits (existingPost : option Post) (post : Post) (sync : bool)
| DeleteAwaits (post : option Post) (i : option string) (sync : bool).

(** The store object: readiness flag, queue of deferred calls, session
    and the content of localStorage. *)
Record DB := mkDB {
  isInitialized : bool;
  pendingOperations : list Call;
  session : Session;
  localStorage : Storage
}.

(** The guard [if (!this.isInitialized)] at the top of every method: the
    call is pushed on the queue and the caller holds a promise that only
    the queued closure can resolve. *)
Definition defer (c : Call) (db : DB) : DB :=
  mkDB (isInitialized db) (pendingOperations db ++ [c]) (session db) (localStorage db).

(** Synchronous part of a call on the ready store. *)
Definition start (now uuid : string) (c : Call) (s : Session) (ls : Storage)
  : Started * Storage * option SyncEntry :=
  match c with
  | CallAddPost post sync =>
      let r := addPost now uuid post sync s ls in
      (Finished (settle_with VPost (outcome r)), storage r, queued r)
  | CallGetAllPosts o => (Finished (Resolved (VPosts (getAllPosts o ls))), ls, None)
  | CallGetPostById i => (Finished (Resolved (VFound (getPostById i ls))), ls, None)
  | CallUpdatePost post sync =>
      let post := set_updatedAt post now in
      (UpdateAwaits (getPostById (id post) ls) post sync, ls, None)
  | CallDeletePost i sync => (DeleteAwaits (getPostById i ls) i sync, ls, None)
  | CallGetAllTags => (Finished (Resolved (VTags (getAllTags ls))), ls, None)
  | CallSetSetting key value =>
      let r := setSetting key value ls in
      (Finished (Resolved (VBool (fst r))), snd r, None)
  | CallGetSetting key d => (Finished (Resolved (VSetting (getSetting key d ls))), ls, None)
  end.

(** The continuation of a suspended call. *)
Definition resume (st : Started) (s : Session) (ls : Storage)
  : Settled Value * Storage * option SyncEntry :=
  match st with
  | Finished r => (r, ls, None)
  | UpdateAwaits existingPost post sync =>
      let r := updatePost_resume existingPost post sync s ls in
      (settle_with VPost (outcome r), storage r, queued r)
  | DeleteAwaits post i sync =>
      let r := deletePost_resume post i sync s ls in
      (settle_with VBool (outcome r), storage r, queued r)
  end.

(** Calls made one after the other in one task: every synchronous part
    runs in call order, then the continuations run in the same order.
    Call number [k] reads the clock as [clock k] and draws [uuid k]. *)
Fixpoint start_all (clock uuid : nat -> string) (k : nat) (cs : list Call)
    (s : Session) (ls : Storage) : list Started * Storage :=
  match cs with
  | [] => ([], ls)
  | c :: rest =>
      let '(st, ls1, _) := start (clock k) (uuid k) c s ls in
      let '(sts, ls2) := start_all clock uuid (S k) rest s ls1 in
      (st :: sts, ls2)
  end.

Fixpoint resume_all (sts : list Started) (s : Session) (ls : Storage)
  : list (Settled Value) * Storage :=
  match sts with
  | [] => ([], ls)
  | st :: rest =>
      let '(r, ls1, _) := resume st s ls in
      let '(rs, ls2) := resume_all rest s ls1 in
      (r :: rs, ls2)
  end.

Definition run_task (clock uuid : nat -> string) (cs : list Call)
    (s : Session) (ls : Storage) : list (Settled Value) * Storage :=
  let '(sts, ls1) := start_all clock uuid 0 cs s ls in
  resume_all sts s ls1.

(** [this.method(args).then(resolve)]: the promise handed to the early
    caller follows a fulfilment of the real call; nothing is registered
    for a rejection. *)
Definition then_resolve (r : Settled Value) : Settled Value :=
  match r with
  | Resolved v => Resolved v
  | Rejected _ => Pending
  | Pending => Pending
  end.

(** [processPendingOperations]: the queue is emptied from the front and
    each closure is called. The result lists, in queue order, how the
    promise of each early caller settles. *)
Definition processPendingOperations (clock uuid : nat -> string) (db : DB)
  : DB * list (Settled Value) :=
  let '(rs, ls) := run_task clock uuid (pendingOperations db) (session db)
                            (localStorage db) in
  (mkDB (isInitialized db) [] (session db) ls, map then_resolve rs).

(** [fallbackToLocalStorage]: the store becomes ready, the document is
    created when it is missing, and the queue is processed. *)
Definition fallbackToLocalStorage (clock uuid : nat -> string) (db : DB)
  : DB * list (Settled Value) :=
  let ls := match localStorage db with
            | None => Some Data.empty
            | Some data => Some data
            end in
  processPendingOperations clock uuid
    (mkDB true (pendingOperations db) (session db) ls).

End Builtins.

(** ** Vocabulary of the properties *)

(** The stored count of a tag name, [0] when there is no record. *)
Definition tag_count (tagList : list Tag) (t : string) : Z :=
  match List.find (has_name t) tagList with
  | Some r => count r
  | None => 0
  end.

(** [post.tags] contains [t]. *)
Definition holds_tag (t : string) (p : Post) : bool :=
  Js.includes (tags_or_empty p) t.

(** Number of stored posts whose tag list contains [t]. *)
Definition posts_with_tag (posts : list Post) (t : string) : Z :=
  Z.of_nat (length (List.filter (holds_tag t) posts)).

(** [1] when the array contains the tag, [0] otherwise. *)
Definition indicator (ts : list string) (t : string) : Z :=
  if Js.includes ts t then 1 else 0.

(** Well-formed tag collection: one record per name, no record with a
    count of zero or less. *)
Definition tags_wf (l : list Tag) : Prop :=
  NoDup (map name l) /\ Forall (fun r => 0 < count r) l.

(** What the store maintains: the tag collection is well formed, every
    stored post has a duplicate-free tag array, and the stored count of
    every name is the number of stored posts that carry it. *)
Definition consistent (d : Data.t) : Prop :=
  tags_wf (Data.tags d) /\
  Forall (fun p => NoDup (tags_or_empty p)) (Data.posts d) /\
  forall t, tag_count (Data.tags d) t = posts_with_tag (Data.posts d) t.

(** A mutation of the store together with what it reads from its
    environment. *)
Inductive Op :=
| OpAddPost (now uuid : string) (post : Post) (sync : bool)
| OpUpdatePost (now : string) (post : Post) (sync : bool)
| OpDeletePost (i : option string) (sync : bool).

Definition apply_op (s : Session) (ls : Storage) (op : Op) : Storage :=
  match op with
  | OpAddPost now uuid post sync => storage (addPost now uuid post sync s ls)
  | OpUpdatePost now post sync => storage (updatePost now post sync s ls)
  | OpDeletePost i sync => storage (deletePost i sync s ls)
  end.

(** Mutations executed one after the other, each one finished before the
    next one starts. *)
Definition run_ops (s : Session) (ops : list Op) (ls : Storage) : Storage :=
  foldl (apply_op s) ls ops.

(** The post handed to the mutation has no tag twice. *)
Definition duplicate_free_tags (op : Op) : Prop :=
  match op with
  | OpAddPost _ _ post _ => NoDup (tags_or_empty post)
  | OpUpdatePost _ post _ => NoDup (tags_or_empty post)
  | OpDeletePost _ _ => True
  end.

(** Every tag record counts the stored posts that carry its name, and no
    record has the count zero. *)
Definition tag_counts_exact (d : Data.t) : Prop :=
  forall r, r ∈ Data.tags d ->
    count r = posts_with_tag (Data.posts d) (name r) /\ count r <> 0.

(** The posts currently stored; a missing document holds none. *)
Definition stored_posts (ls : Storage) : list Post :=
  match ls with
  | Some data => Data.posts data
  | None => []
  end.

(** [a >= b] on timestamps: both are strings and [a] is not before
    [b]. *)
Definition not_before (a b : option string) : bool :=
  match a, b with
  | Some x, Some y => negb (String.ltb x y)
  | _, _ => false
  end.

(** A mutation that cannot move the [dateAdded] value [d] of the post
    with id [i]: an update of that id hands in [d] again, and the post is
    not deleted. *)
Definition keeps_date (i : option string) (d : option string) (op : Op) : Prop :=
  match op with
  | OpAddPost _ _ _ _ => True
  | OpUpdatePost _ post _ => id post = i -> dateAdded post = d
  | OpDeletePost j _ => j <> i
  end.

(** The options with [limit] and [offset] replaced: the same filter and
    sort, another page. *)
Definition with_page (o : Options.t) (limit offset : option Z) : Options.t :=
  Options.mk limit offset (Options.sortBy o) (Options.sortOrder o)
             (Options.filterTags o) (Options.searchTerm o) (Options.platform o).

(** The options with [offset] replaced. *)
Definition with_offset (o : Options.t) (offset : option Z) : Options.t :=
  with_page o (Options.limit o) offset.

(** No remote post with the id [i] is added or overwrites the local
    post: each has a counterpart in the snapshot [localPosts] that is not
    older. *)
Definition quiet (localPosts : list Post) (i : option string)
    (remotePosts : list Post) : Prop :=
  forall r, r ∈ remotePosts -> id r = i ->
    exists l, List.find (has_id i) localPosts = Some l /\
              Js.gt (updatedAt r) (updatedAt l) = false.

(** ** Sample data *)

Definition offline : Session := mkSession false None.
Definition signed_in : Session := mkSession true (Some "user-1"%string).

Definition t1 : string := "2024-01-01T10:00:00.000Z".
Definition t2 : string := "2024-01-02T10:00:00.000Z".
Definition t3 : string := "2024-01-03T10:00:00.000Z".

(** The post of the example scenario, and its edited version. *)
Definition post_news_x : Post :=
  mkPost None "https://x.com/a/status/1" "twitter" None None
         (Some ["news"; "x"]%string) None None None.

Definition post_news : Post :=
  mkPost (Some "id-1"%string) "https://x.com/a/status/1" "twitter" None None
         (Some ["news"]%string) (Some t1) None None.

Definition scenario : list Op :=
  [OpAddPost t1 "id-1" post_news_x true;
   OpUpdatePost t2 post_news true;
   OpDeletePost (Some "id-1"%string) true].

(** A post whose tag array names the same tag twice, as the tag field
    [a, a] of the form produces it. *)
Definition post_repeated_tag : Post :=
  mkPost None "https://example.org/" "website" None None
         (Some ["a"; "a"]%string) None None None.

(** A stored post, a later post with the same id and another url, and a
    post dated after the clock of the device. *)
Definition stored_a : Post :=
  mkPost (Some "id-1"%string) "https://a.example/" "website" (Some "A"%string) None
         (Some ["news"]%string) (Some t1) (Some t1) None.

Definition same_id_b : Post :=
  mkPost (Some "id-1"%string) "https://b.example/" "website" (Some "B"%string) None
         None None None None.

Definition dated_later : Post :=
  mkPost None "https://c.example/" "website" None None None (Some t3) None None.

Definition store_a : Data.t := Data.mk [stored_a] [mkTag "news" 1] [].

(** The stored post handed back to updatePost with another
    [dateAdded]. *)
Definition redated_a : Post :=
  mkPost (Some "id-1"%string) "https://a.example/" "website" (Some "A"%string) None
         (Some ["news"]%string) (Some t2) (Some t1) None.

(** Stand-ins for the built-ins of the platform, enough to run the
    queries on the sample data: comparison by code units and the time
    values of the three sample timestamps. *)
Definition sample_localeCompare (a b : string) : Z :=
  match String.compare a b with
  | Lt => -1
  | Eq => 0
  | Gt => 1
  end.

Definition sample_dateValue (v : string) : option Z :=
  if String.eqb v t1 then Some 1
  else if String.eqb v t2 then Some 2
  else if String.eqb v t3 then Some 3
  else None.

Definition sample_toLowerCase (v : string) : string := v.

Definition stored_b : Post :=
  mkPost (Some "id-2"%string) "https://b.example/" "twitter" None None
         (Some ["x"]%string) (Some t2) (Some t2) None.

Definition stored_c : Post :=
  mkPost (Some "id-3"%string) "https://c.example/" "youtube" None None
         None (Some t3) (Some t3) None.

Definition store_abc : Data.t :=
  Data.mk [stored_a; stored_b; stored_c] [mkTag "news" 1; mkTag "x" 1] [].

(** An indexed backend whose read requests fire [onerror]. *)
Definition read_error : Error := RequestFailed "the read request failed".

Definition failing_index : Backend :=
  Indexed (fun _ => RequestError read_error) (fun _ => RequestError read_error).

(** A store that is not ready yet, with nothing in localStorage, and a
    clock and an id source for the calls that run once it is ready. *)
Definition not_ready : DB := mkDB false [] offline None.

Definition sample_clock (k : nat) : string := t1.
Definition sample_uuid (k : nat) : string := "id-1".

(** The remote row for the stored post [stored_a], edited elsewhere at
    [t2], and a clock that shows [t3] during the cycle. *)
Definition remote_a_newer : Post :=
  mkPost (Some "id-1"%string) "https://a.example/" "website" (Some "A2"%string) None
         (Some ["news"]%string) (Some t1) (Some t2) (Some "user-1"%string).

Definition clock_t3 (k : nat) : string := t3.

Definition cycle_newer : Cycle :=
  syncWithSupabase sample_localeCompare sample_dateValue sample_toLowerCase
                   clock_t3 sample_uuid true signed_in []
                   (SelectData [remote_a_newer]) (Some store_a).

(** ** Further vocabulary *)

(** The mutation is an addPost or a deletePost. *)
Definition add_or_delete (op : Op) : Prop :=
  match op with
  | OpAddPost _ _ _ _ => True
  | OpUpdatePost _ _ _ => False
  | OpDeletePost _ _ => True
  end.

(** [t] occurs in [s]: the meaning of [s.includes(t)]. *)
Definition occurs (t s : string) : Prop :=
  exists a b, s = String.append a (String.append t b).

(** The time value of [new Date(post.dateAdded)]; [None] is NaN. *)
Definition date_key (dateValue : string -> option Z) (p : Post) : option Z :=
  match dateAdded p with
  | Some x => dateValue x
  | None => None
  end.

(** [a] is not after [b] in the direction of the sort: by time value,
    ascending for ['asc'] and descending otherwise. *)
Definition date_ordered (dateValue : string -> option Z) (o : Options.t)
    (a b : Post) : Prop :=
  exists x y,
    date_key dateValue a = Some x /\ date_key dateValue b = Some y /\
    if Js.strict_eq (Options.sortOrder o) (Some "asc"%string) then x <= y else y <= x.

(** The lower-cased search term occurs in the url, in a non-empty title
    or description, or in one of the tags, each lower-cased. *)
Definition search_hit (toLowerCase : string -> string) (term : string) (p : Post)
  : Prop :=
  occurs term (toLowerCase (url p)) \/
  (exists x, title p = Some x /\ x <> EmptyString /\ occurs term (toLowerCase x)) \/
  (exists x, description p = Some x /\ x <> EmptyString /\
             occurs term (toLowerCase x)) \/
  (exists tag, tag ∈ tags_or_empty p /\ occurs term (toLowerCase tag)).

(** The posts as addPost stores them when the call for the first one is
    call number [k], each call reading the clock and drawing an id under
    its own number. *)
Fixpoint stamped_from (clock uuid : nat -> string) (k : nat) (ps : list Post)
  : list Post :=
  match ps with
  | [] => []
  | p :: rest => stamp (clock k) (uuid k) p :: stamped_from clock uuid (S k) rest
  end.

(** ** The post list of the page

    The two components that fetch the posts to show: [UIManager.loadPosts]
    (js/ui/components/themeManager.js) and [PostManager.loadPosts]. Of
    their state only what decides the fetch is kept. *)

(** [postsPerPage], [currentSort], [currentSearchTerm] and the active
    tag filters of the tag manager. *)
Record View := mkView {
  postsPerPage : Z;
  currentSort_by : string;
  currentSort_order : string;
  currentSearchTerm : string;
  activeFilters : list string
}.

(** [isLoading], [currentPage], [hasMorePosts] and the posts appended
    to the container so far. *)
Record Pager := mkPager {
  isLoading : bool;
  currentPage : Z;
  hasMorePosts : bool;
  shown : list Post
}.

(** The state after a reset (page 0, more posts expected, container
    cleared) while no load is running. *)
Definition Pager_reset : Pager := mkPager false 0 true [].

(** The options object that [UIManager.loadPosts] builds. [null] is
    falsy like [undefined] wherever getAllPosts looks at it. *)
Definition UIManager_options (v : View) (page : Z) : Options.t :=
  Options.mk (Some (postsPerPage v))
             (Some (page * postsPerPage v))
             (Some (currentSort_by v))
             (Some (currentSort_order v))
             (match activeFilters v with
              | [] => None
              | _ :: _ => Some (activeFilters v)
              end)
             (if String.eqb (currentSearchTerm v) EmptyString then None
              else Some (currentSearchTerm v))
             None.

(** The options object that [PostManager.loadPosts] builds has the keys
    [page], [limit], [search], [tags] and [sort]. getAllPosts reads
    [limit], [offset], [sortBy], [sortOrder], [filterTags], [searchTerm]
    and [platform] from it, so [limit] is the only key it finds. *)
Definition PostManager_options (v : View) (page : Z) : Options.t :=
  Options.mk (Some (postsPerPage v)) None None None None None None.

Section Pagers.

Variable localeCompare : string -> string -> Z.
Variable dateValue : string -> option Z.
Variable toLowerCase : string -> string.

(** One run of [loadPosts] from its call to its end, on the fallback
    backend: nothing happens when a load is running or [hasMorePosts] is
    false; otherwise the page is fetched, [hasMorePosts] records whether
    it was full, the posts are appended, the page counter moves on and
    [hideLoading] clears [isLoading]. *)
Definition loadPosts (options : View -> Z -> Options.t) (v : View) (ls : Storage)
    (st : Pager) : Pager :=
  if isLoading st || negb (hasMorePosts st) then st
  else
    let posts := getAllPosts localeCompare dateValue toLowerCase
                             (options v (currentPage st)) ls in
    mkPager false
            (currentPage st + 1)
            (Z.of_nat (length posts) =? postsPerPage v)
            (shown st ++ posts).

Definition UIManager_loadPosts := loadPosts UIManager_options.
Definition PostManager_loadPosts := loadPosts PostManager_options.

End Pagers.

(** ** The tag manager and the link form

    [TagManager] (js/ui/components/themeManager.js) and [LinkManager]
    (js/ui/components/linkManager.js) prepare the tags and the posts
    that reach addPost and updatePost. *)

(** [s.split(',')] *)
Fixpoint split_comma (s : string) : list string :=
  match s with
  | EmptyString => [EmptyString]
  | String c rest =>
      if Ascii.eqb c ","%char then EmptyString :: split_comma rest
      else match split_comma rest with
           | [] => [String c EmptyString]
           | first :: others => String c first :: others
           end
  end.

(** [tags.join(', ')] *)
Fixpoint join_comma (ts : list string) : string :=
  match ts with
  | [] => EmptyString
  | [t] => t
  | t :: rest => String.append t (String.append ", " (join_comma rest))
  end.

(** [formatTags(tags)] for an array, and for a missing one. *)
Definition formatTags (ts : option (list string)) : string :=
  match ts with
  | Some l => join_comma l
  | None => EmptyString
  end.

(** [{ ...post, tags }], also [post.tags = tags]. *)
Definition with_tags (p : Post) (ts : list string) : Post :=
  mkPost (id p) (url p) (platform p) (title p) (description p) (Some ts)
         (dateAdded p) (updatedAt p) (user_id p).

(** The second argument of [updatePostTags]: an array, or the text of a
    tag field. *)
Inductive TagsInput :=
| TagArray (ts : list string)
| TagText (text : string).

Section TagManager.

(** [s.trim()], a built-in of the platform. *)
Variable trim : string -> string.

Definition parseTags (tagString : string) : list string :=
  if String.eqb tagString EmptyString then []
  else List.filter (fun tag => negb (String.eqb tag EmptyString))
                   (map trim (split_comma tagString)).

(** [addTagToPost(post, tag)]: the post object as the method leaves it
    and localStorage afterwards. The store is called only when the
    trimmed tag is not empty and not yet on the post. *)
Definition addTagToPost (now : string) (post : Post) (tag : string)
    (s : Session) (ls : Storage) : Post * Storage :=
  if String.eqb tag EmptyString then (post, ls)
  else
    let trimmedTag := trim tag in
    if String.eqb trimmedTag EmptyString then (post, ls)
    else
      let post := with_tags post (tags_or_empty post) in
      if Js.includes (tags_or_empty post) trimmedTag then (post, ls)
      else
        let post := with_tags post (tags_or_empty post ++ [trimmedTag]) in
        (set_updatedAt post now, storage (updatePost now post true s ls)).

(** [removeTagFromPost(post, tag)] *)
Definition removeTagFromPost (now : string) (post : Post) (tag : string)
    (s : Session) (ls : Storage) : Post * Storage :=
  if String.eqb tag EmptyString then (post, ls)
  else
    match tags post with
    | None => (post, ls)
    | Some ts =>
        if negb (Js.includes ts tag) then (post, ls)
        else
          let post := with_tags post
                        (List.filter (fun t => negb (String.eqb t tag)) ts) in
          (set_updatedAt post now, storage (updatePost now post true s ls))
    end.

(** [updatePostTags(post, newTags)] *)
Definition updatePostTags (now : string) (post : Post) (newTags : TagsInput)
    (s : Session) (ls : Storage) : Post * Storage :=
  let ts := match newTags with
            | TagArray l => l
            | TagText text => parseTags text
            end in
  let post := with_tags post ts in
  (set_updatedAt post now, storage (updatePost now post true s ls)).

(** Submitting the link form opened on [post] with the text [tagText] in
    the tag field. The URL field holds [post.url] and is disabled; when
    its trimmed value is empty the form shows an error and calls nothing
    ([None]), otherwise it calls
    [updatePost({ ...post, tags: parseTags(tagText) })]. *)
Definition LinkManager_save_edit (now : string) (post : Post) (tagText : string)
    (s : Session) (ls : Storage) : option (Result Post) :=
  if String.eqb (trim (url post)) EmptyString then None
  else Some (updatePost now (with_tags post (parseTags tagText)) true s ls).

End TagManager.

(** The tag filters of the tag manager: [addFilter], [removeFilter],
    [toggleFilter] and [clearAllFilters] on [activeFilters]. *)
Definition addFilter (tag : string) (filters : list string) : list string :=
  if String.eqb tag EmptyString || Js.includes filters tag then filters
  else filters ++ [tag].

Definition removeFilter (tag : string) (filters : list string) : list string :=
  if String.eqb tag EmptyString || negb (Js.includes filters tag) then filters
  else List.filter (fun t => negb (String.eqb t tag)) filters.

Definition toggleFilter (tag : string) (filters : list string) : list string :=
  if String.eqb tag EmptyString then filters
  else if Js.includes filters tag then removeFilter tag filters
  else addFilter tag filters.

Definition clearAllFilters (filters : list string) : list string := [].

(** A click on the filter bar. *)
Inductive FilterAction :=
| AddFilter (tag : string)
| RemoveFilter (tag : string)
| ToggleFilter (tag : string)
| ClearAllFilters.

Definition apply_filter_action (filters : list string) (a : FilterAction)
  : list string :=
  match a with
  | AddFilter tag => addFilter tag filters
  | RemoveFilter tag => removeFilter tag filters
  | ToggleFilter tag => toggleFilter tag filters
  | ClearAllFilters => clearAllFilters filters
  end.

(** An edit of the tags of a post on its card; the card keeps the post
    object and hands it to the next edit. *)
Inductive TagEdit :=
| AddTag (now tag : string)
| RemoveTag (now tag : string)
| SetTags (now : string) (newTags : TagsInput).

Definition apply_tag_edit (trim : string -> string) (s : Session)
    (st : Post * Storage) (e : TagEdit) : Post * Storage :=
  match e with
  | AddTag now tag => addTagToPost trim now (fst st) tag s (snd st)
  | RemoveTag now tag => removeTagFromPost now (fst st) tag s (snd st)
  | SetTags now newTags => updatePostTags trim now (fst st) newTags s (snd st)
  end.

(** The tags that an [updatePostTags] edit puts on the post hold no tag
    twice. *)
Definition duplicate_free_edit (trim : string -> string) (e : TagEdit) : Prop :=
  match e with
  | SetTags _ (TagArray ts) => NoDup ts
  | SetTags _ (TagText text) => NoDup (parseTags trim text)
  | _ => True
  end.

(** [LinkManager.detectPlatform(url)] *)
Definition detectPlatform (u : string) : string :=
  if Js.str_includes u "twitter.com" || Js.str_includes u "x.com" then "twitter"
  else if Js.str_includes u "instagram.com" then "instagram"
  else if Js.str_includes u "youtube.com" || Js.str_includes u "youtu.be" then "youtube"
  else if Js.str_includes u "linkedin.com" then "linkedin"
  else "website".

(** The text holds no comma. *)
Fixpoint comma_free (t : string) : bool :=
  match t with
  | EmptyString => true
  | String c rest => negb (Ascii.eqb c ","%char) && comma_free rest
  end.

(** A tag that the tag field shows and reads back as it is: not empty,
    without a comma, unchanged by [trim], also behind the space that
    [join] puts in front of it. *)
Definition plain_tag (trim : string -> string) (t : string) : Prop :=
  t <> EmptyString /\ comma_free t = true /\ trim t = t /\
  trim (String.append " " t) = t.

(** [trim] on text whose only white space is the space character. *)
Fixpoint trim_start (v : string) : string :=
  match v with
  | String c rest => if Ascii.eqb c " "%char then trim_start rest else v
  | EmptyString => EmptyString
  end.

Fixpoint trim_end (v : string) : string :=
  match v with
  | String c rest =>
      match trim_end rest with
      | EmptyString => if Ascii.eqb c " "%char then EmptyString
                       else String c EmptyString
      | kept => String c kept
      end
  | EmptyString => EmptyString
  end.

Definition sample_trim (v : string) : string := trim_end (trim_start v).

(** A page size of two, newest first, no search term, no tag filter. *)
Definition sample_view : View := mkView 2 "dateAdded" "desc" EmptyString [].

(** A cycle on the three-post store that fetches the one remote post. *)
Definition cycle_abc : Cycle :=
  syncWithSupabase sample_localeCompare sample_dateValue sample_toLowerCase
                   clock_t3 sample_uuid true signed_in []
                   (SelectData [remote_a_newer]) (Some store_abc).

(** A cycle on a new device: nothing stored yet, one remote post. *)
Definition cycle_fresh : Cycle :=
  syncWithSupabase sample_localeCompare sample_dateValue sample_toLowerCase
                   clock_t3 sample_uuid true signed_in []
                   (SelectData [remote_a_newer]) (Some Data.empty).

(** * Properties *)

(** ** The example scenario, step by step *)

Example scenario_after_add :
  option_map Data.tags
    (run_ops offline (take 1 scenario) (Some Data.empty))
  = Some [mkTag "news" 1; mkTag "x" 1].
Proof. reflexivity. Qed.

Example scenario_after_update :
  option_map Data.tags
    (run_ops offline (take 2 scenario) (Some Data.empty))
  = Some [mkTag "news" 1].
Proof. reflexivity. Qed.

Example scenario_after_delete :
  run_ops offline scenario (Some Data.empty) = Some Data.empty.
Proof. reflexivity. Qed.

Example slice_examples :
  Js.slice [1; 2; 3; 4; 5] 1 3 = [2; 3] /\
  Js.slice [1; 2; 3; 4; 5] (-2) 10 = [4; 5] /\
  Js.slice [1; 2; 3; 4; 5] 4 2 = [].
Proof. repeat split. Qed.

Example sort_by_platform_ascending :
  map id (getAllPosts sample_localeCompare sample_dateValue sample_toLowerCase
            (Options.mk None None (Some "platform"%string) (Some "asc"%string)
                        None None None)
            (Some store_abc))
  = [Some "id-2"; Some "id-1"; Some "id-3"]%string.
Proof. reflexivity. Qed.

(** ** Arrays *)

Lemma findIndex_range {A} (f : A -> bool) (l : list A) :
  -1 <= Js.findIndex f l < Z.of_nat (length l).
Proof.
  induction l as [|x l IH]; simpl; [lia|].
  destruct (f x); [lia|].
  destruct (Z.ltb_spec (Js.findIndex f l) 0); lia.
Qed.

(** [findIndex] and [find] agree on whether an element is found. *)
Lemma findIndex_find_none {A} (f : A -> bool) (l : list A) :
  Js.findIndex f l < 0 <-> List.find f l = None.
Proof.
  induction l as [|x l IH]; simpl; [split; [reflexivity|lia]|].
  destruct (f x) eqn:Hx.
  - split; [lia|discriminate].
  - destruct (Z.ltb_spec (Js.findIndex f l) 0) as [Hlt|Hge].
    + split; [intros _; apply IH; exact Hlt | lia].
    + split; [lia|]. intros Hnone. apply IH in Hnone. lia.
Qed.

(** When [find] returns an element, [findIndex] is its position. *)
Lemma findIndex_find_some {A} (f : A -> bool) (l : list A) (x : A) :
  List.find f l = Some x ->
  0 <= Js.findIndex f l /\ l !! Z.to_nat (Js.findIndex f l) = Some x.
Proof.
  induction l as [|y l IH]; simpl; [discriminate|].
  destruct (f y) eqn:Hy.
  - intros [= ->]. split; [lia|reflexivity].
  - intros Hfind. destruct (IH Hfind) as [Hge Hl].
    destruct (Z.ltb_spec (Js.findIndex f l) 0) as [Hlt|_]; [lia|].
    split; [lia|].
    replace (Z.to_nat (Js.findIndex f l + 1)) with (S (Z.to_nat (Js.findIndex f l))) by lia.
    exact Hl.
Qed.

(** The array splits around the element that [find] returns. *)
Lemma find_split {A} (f : A -> bool) (l : list A) (x : A) :
  List.find f l = Some x ->
  exists l1 l2,
    l = l1 ++ x :: l2 /\ f x = true /\
    List.find f l1 = None /\
    Z.to_nat (Js.findIndex f l) = length l1.
Proof.
  induction l as [|y l IH]; simpl; [discriminate|].
  destruct (f y) eqn:Hy.
  - intros [= ->]. exists [], l. simpl. auto.
  - intros Hfind. destruct (IH Hfind) as (l1 & l2 & -> & Hx & Hnone & Hlen).
    exists (y :: l1), l2. simpl. rewrite Hy. repeat split; auto.
    pose proof (findIndex_find_some f _ x Hfind) as [Hge _].
    destruct (Z.ltb_spec (Js.findIndex f (l1 ++ x :: l2)) 0); lia.
Qed.

Lemma find_app_none {A} (f : A -> bool) (l1 l2 : list A) :
  List.find f l1 = None -> List.find f (l1 ++ l2) = List.find f l2.
Proof.
  induction l1 as [|y l1 IH]; simpl; [reflexivity|].
  destruct (f y); [discriminate|]. exact IH.
Qed.

Lemma find_app_some {A} (f : A -> bool) (l1 l2 : list A) (x : A) :
  List.find f l1 = Some x -> List.find f (l1 ++ l2) = Some x.
Proof.
  induction l1 as [|y l1 IH]; simpl; [discriminate|].
  destruct (f y); [auto|]. exact IH.
Qed.

Lemma set_at_middle {A} (l1 l2 : list A) (x y : A) :
  Js.set_at (l1 ++ x :: l2) (Z.of_nat (length l1)) y = l1 ++ y :: l2.
Proof.
  unfold Js.set_at. rewrite Nat2Z.id.
  replace (length l1) with (length l1 + 0)%nat by lia.
  rewrite insert_app_r. reflexivity.
Qed.

Lemma splice1_middle {A} (l1 l2 : list A) (x : A) :
  Js.splice1 (l1 ++ x :: l2) (Z.of_nat (length l1)) = l1 ++ l2.
Proof.
  unfold Js.splice1. rewrite Nat2Z.id. apply delete_middle.
Qed.

(** ** Tag bookkeeping *)

Lemma increment_tag_nil (t : string) : increment_tag [] t = [mkTag t 1].
Proof. reflexivity. Qed.

Lemma increment_tag_cons (r : Tag) (l : list Tag) (t : string) :
  increment_tag (r :: l) t =
  if has_name t r then mkTag (name r) (count r + 1) :: l
  else r :: increment_tag l t.
Proof.
  unfold increment_tag. simpl Js.findIndex.
  destruct (has_name t r) eqn:Hr; [reflexivity|].
  pose proof (findIndex_range (has_name t) l) as Hrange.
  destruct (Z.ltb_spec (Js.findIndex (has_name t) l) 0) as [Hlt|Hge].
  - replace (0 <=? -1) with false by reflexivity.
    destruct (Z.leb_spec 0 (Js.findIndex (has_name t) l)); [lia|reflexivity].
  - destruct (Z.leb_spec 0 (Js.findIndex (has_name t) l + 1)); [|lia].
    destruct (Z.leb_spec 0 (Js.findIndex (has_name t) l)); [|lia].
    unfold Js.set_at.
    replace (Z.to_nat (Js.findIndex (has_name t) l + 1))
      with (S (Z.to_nat (Js.findIndex (has_name t) l))) by lia.
    simpl. destruct (l !! Z.to_nat (Js.findIndex (has_name t) l)); reflexivity.
Qed.

Lemma decrement_tag_nil (t : string) : decrement_tag [] t = [].
Proof. reflexivity. Qed.

Lemma decrement_tag_cons (r : Tag) (l : list Tag) (t : string) :
  decrement_tag (r :: l) t =
  if has_name t r then
    if Z.max 0 (count r - 1) =? 0 then l
    else mkTag (name r) (Z.max 0 (count r - 1)) :: l
  else r :: decrement_tag l t.
Proof.
  unfold decrement_tag. simpl Js.findIndex.
  destruct (has_name t r) eqn:Hr; [reflexivity|].
  pose proof (findIndex_range (has_name t) l) as Hrange.
  destruct (Z.ltb_spec (Js.findIndex (has_name t) l) 0) as [Hlt|Hge].
  - replace (0 <=? -1) with false by reflexivity.
    destruct (Z.leb_spec 0 (Js.findIndex (has_name t) l)); [lia|reflexivity].
  - destruct (Z.leb_spec 0 (Js.findIndex (has_name t) l + 1)); [|lia].
    destruct (Z.leb_spec 0 (Js.findIndex (has_name t) l)); [|lia].
    unfold Js.set_at, Js.splice1.
    replace (Z.to_nat (Js.findIndex (has_name t) l + 1))
      with (S (Z.to_nat (Js.findIndex (has_name t) l))) by lia.
    simpl. destruct (l !! Z.to_nat (Js.findIndex (has_name t) l)) as [r'|]; [|reflexivity].
    destruct (Z.max 0 (count r' - 1) =? 0); reflexivity.
Qed.

Lemma has_name_true (t : string) (r : Tag) : has_name t r = true <-> name r = t.
Proof. unfold has_name. apply String.eqb_eq. Qed.

Lemma has_name_false (t : string) (r : Tag) : has_name t r = false <-> name r <> t.
Proof. unfold has_name. apply String.eqb_neq. Qed.

Lemma tag_count_absent (l : list Tag) (t : string) :
  t ∉ map name l -> tag_count l t = 0.
Proof.
  intros Hnot. unfold tag_count.
  destruct (List.find (has_name t) l) as [r|] eqn:Hfind; [|reflexivity].
  apply find_some in Hfind as [Hin Hr]. apply has_name_true in Hr.
  exfalso. apply Hnot. rewrite <- Hr. apply list_elem_of_In, in_map, Hin.
Qed.

(** The names of the records after one increment. *)
Lemma increment_tag_names (l : list Tag) (t t' : string) :
  t' ∈ map name (increment_tag l t) <-> t' = t \/ t' ∈ map name l.
Proof.
  induction l as [|r l IH].
  - rewrite increment_tag_nil. simpl. rewrite list_elem_of_singleton.
    split; [auto|]. intros [H|H]; [exact H|]. inversion H.
  - rewrite increment_tag_cons. destruct (has_name t r) eqn:Hr.
    + apply has_name_true in Hr. simpl. rewrite !elem_of_cons. subst t. tauto.
    + simpl. rewrite !elem_of_cons, IH. tauto.
Qed.

Lemma increment_tag_NoDup (l : list Tag) (t : string) :
  NoDup (map name l) -> NoDup (map name (increment_tag l t)).
Proof.
  induction l as [|r l IH]; intros Hnd.
  - rewrite increment_tag_nil. simpl. apply NoDup_singleton.
  - rewrite increment_tag_cons. simpl in Hnd. apply NoDup_cons in Hnd as [Hnot Hnd].
    destruct (has_name t r) eqn:Hr; simpl; apply NoDup_cons; split; auto.
    rewrite increment_tag_names. intros [Heq|Hin]; [|auto].
    apply has_name_false in Hr. congruence.
Qed.

Lemma increment_tag_positive (l : list Tag) (t : string) :
  Forall (fun r => 0 < count r) l ->
  Forall (fun r => 0 < count r) (increment_tag l t).
Proof.
  induction l as [|r l IH]; intros Hpos.
  - rewrite increment_tag_nil. repeat constructor.
  - rewrite increment_tag_cons. apply Forall_cons in Hpos as [Hr Hpos].
    destruct (has_name t r); constructor; simpl; auto; lia.
Qed.

Lemma increment_tag_count (l : list Tag) (t t' : string) :
  tag_count (increment_tag l t) t' =
  tag_count l t' + (if String.eqb t t' then 1 else 0).
Proof.
  induction l as [|r l IH].
  - rewrite increment_tag_nil. unfold tag_count, has_name. simpl.
    destruct (String.eqb t t'); reflexivity.
  - rewrite increment_tag_cons. unfold tag_count in *.
    destruct (has_name t r) eqn:Hr; simpl.
    + apply has_name_true in Hr. unfold has_name at 1 3. simpl. rewrite Hr.
      destruct (String.eqb t t'); simpl; lia.
    + destruct (has_name t' r) eqn:Hr'; [|exact IH].
      apply has_name_false in Hr. apply has_name_true in Hr'.
      destruct (String.eqb_spec t t'); [congruence|lia].
Qed.

Lemma decrement_tag_names (l : list Tag) (t t' : string) :
  t' ∈ map name (decrement_tag l t) -> t' ∈ map name l.
Proof.
  induction l as [|r l IH]; [rewrite decrement_tag_nil; auto|].
  rewrite decrement_tag_cons. destruct (has_name t r).
  - destruct (Z.max 0 (count r - 1) =? 0); simpl; rewrite !elem_of_cons; tauto.
  - simpl. rewrite !elem_of_cons. intros [H|H]; [auto|right; auto].
Qed.

Lemma decrement_tag_NoDup (l : list Tag) (t : string) :
  NoDup (map name l) -> NoDup (map name (decrement_tag l t)).
Proof.
  induction l as [|r l IH]; intros Hnd; [rewrite decrement_tag_nil; exact Hnd|].
  rewrite decrement_tag_cons. simpl in Hnd. apply NoDup_cons in Hnd as [Hnot Hnd].
  destruct (has_name t r).
  - destruct (Z.max 0 (count r - 1) =? 0); [exact Hnd|].
    simpl. apply NoDup_cons. auto.
  - simpl. apply NoDup_cons. split; [|auto].
    intros Hin. apply Hnot. eapply decrement_tag_names, Hin.
Qed.

Lemma decrement_tag_positive (l : list Tag) (t : string) :
  Forall (fun r => 0 < count r) l ->
  Forall (fun r => 0 < count r) (decrement_tag l t).
Proof.
  induction l as [|r l IH]; intros Hpos; [rewrite decrement_tag_nil; exact Hpos|].
  rewrite decrement_tag_cons. apply Forall_cons in Hpos as [Hr Hpos].
  destruct (has_name t r).
  - destruct (Z.eqb_spec (Z.max 0 (count r - 1)) 0); [exact Hpos|].
    constructor; simpl; [lia|exact Hpos].
  - constructor; auto.
Qed.

Lemma decrement_tag_count (l : list Tag) (t t' : string) :
  NoDup (map name l) ->
  tag_count (decrement_tag l t) t' =
  if String.eqb t t' then Z.max 0 (tag_count l t - 1) else tag_count l t'.
Proof.
  induction l as [|r l IH]; intros Hnd.
  - rewrite decrement_tag_nil. unfold tag_count. simpl.
    destruct (String.eqb t t'); reflexivity.
  - simpl in Hnd. apply NoDup_cons in Hnd as [Hnot Hnd]. specialize (IH Hnd).
    rewrite decrement_tag_cons. destruct (has_name t r) eqn:Hr.
    + apply has_name_true in Hr.
      assert (Hhead : tag_count (r :: l) t = count r).
      { unfold tag_count. simpl.
        replace (has_name t r) with true by (symmetry; apply has_name_true; exact Hr).
        reflexivity. }
      destruct (String.eqb_spec t t') as [Heq|Hne].
      * subst t'. rewrite Hhead.
        destruct (Z.eqb_spec (Z.max 0 (count r - 1)) 0) as [Hz|Hz].
        -- rewrite tag_count_absent; [lia|]. rewrite <- Hr. exact Hnot.
        -- unfold tag_count. simpl.
           replace (has_name t (mkTag (name r) (Z.max 0 (count r - 1)))) with true
             by (symmetry; apply has_name_true; exact Hr).
           reflexivity.
      * assert (Hr' : has_name t' r = false) by (apply has_name_false; congruence).
        destruct (Z.max 0 (count r - 1) =? 0); unfold tag_count; simpl.
        -- rewrite Hr'. reflexivity.
        -- unfold has_name at 1 2. simpl. fold (has_name t' r). rewrite Hr'. reflexivity.
    + apply has_name_false in Hr.
      unfold tag_count in *. simpl.
      destruct (has_name t' r) eqn:Hr'.
      * apply has_name_true in Hr'.
        destruct (String.eqb_spec t t'); [congruence|reflexivity].
      * replace (has_name t r) with false
          by (symmetry; apply has_name_false; exact Hr).
        exact IH.
Qed.

Lemma increment_tags_wf (ts : list string) (l : list Tag) :
  tags_wf l -> tags_wf (increment_tags l ts).
Proof.
  revert l. induction ts as [|a ts IH]; intros l [Hnd Hpos]; simpl; [split; auto|].
  apply IH. split; [apply increment_tag_NoDup|apply increment_tag_positive]; auto.
Qed.

Lemma decrement_tags_wf (ts : list string) (l : list Tag) :
  tags_wf l -> tags_wf (decrement_tags l ts).
Proof.
  revert l. induction ts as [|a ts IH]; intros l [Hnd Hpos]; simpl; [split; auto|].
  apply IH. split; [apply decrement_tag_NoDup|apply decrement_tag_positive]; auto.
Qed.

Lemma includes_cons (a : string) (ts : list string) (t : string) :
  Js.includes (a :: ts) t = String.eqb t a || Js.includes ts t.
Proof. reflexivity. Qed.

Lemma includes_true (ts : list string) (t : string) :
  Js.includes ts t = true <-> t ∈ ts.
Proof.
  unfold Js.includes. rewrite existsb_exists, list_elem_of_In. split.
  - intros (x & Hin & Heq). apply String.eqb_eq in Heq. subst. exact Hin.
  - intros Hin. exists t. split; [exact Hin|apply String.eqb_refl].
Qed.

Lemma includes_false (ts : list string) (t : string) :
  Js.includes ts t = false <-> t ∉ ts.
Proof.
  rewrite <- includes_true. destruct (Js.includes ts t); split; congruence.
Qed.

Lemma indicator_cons (a : string) (ts : list string) (t : string) :
  a ∉ ts ->
  indicator (a :: ts) t = (if String.eqb a t then 1 else 0) + indicator ts t.
Proof.
  intros Hnot. unfold indicator. rewrite includes_cons.
  rewrite (String.eqb_sym t a).
  destruct (String.eqb_spec a t) as [->|Hne]; simpl.
  - apply includes_false in Hnot. rewrite Hnot. reflexivity.
  - destruct (Js.includes ts t); reflexivity.
Qed.

(** Incrementing the tags of a duplicate-free array adds one to the count
    of exactly the tags in it. *)
Lemma increment_tags_count (ts : list string) (l : list Tag) (t : string) :
  NoDup ts ->
  tag_count (increment_tags l ts) t = tag_count l t + indicator ts t.
Proof.
  revert l. induction ts as [|a ts IH]; intros l Hnd; simpl.
  - unfold indicator. simpl. lia.
  - apply NoDup_cons in Hnd as [Hnot Hnd].
    unfold increment_tags in IH. rewrite IH by exact Hnd.
    rewrite increment_tag_count, indicator_cons by exact Hnot. lia.
Qed.

(** Decrementing the tags of a duplicate-free array takes one from the
    count of exactly the tags in it, never going below zero. *)
Lemma decrement_tags_count (ts : list string) (l : list Tag) (t : string) :
  NoDup ts ->
  tags_wf l ->
  tag_count (decrement_tags l ts) t =
  if Js.includes ts t then Z.max 0 (tag_count l t - 1) else tag_count l t.
Proof.
  revert l. induction ts as [|a ts IH]; intros l Hnd Hwf; [reflexivity|].
  apply NoDup_cons in Hnd as [Hnot Hnd].
  change (decrement_tags l (a :: ts)) with (decrement_tags (decrement_tag l a) ts).
  rewrite IH; [|exact Hnd|].
  - rewrite decrement_tag_count by apply Hwf.
    rewrite includes_cons, (String.eqb_sym t a).
    destruct (String.eqb_spec a t) as [->|Hne]; simpl.
    + apply includes_false in Hnot. rewrite Hnot. reflexivity.
    + reflexivity.
  - destruct Hwf as [Hn Hp].
    split; [apply decrement_tag_NoDup|apply decrement_tag_positive]; auto.
Qed.

(** ** The tag-count invariant *)

Lemma posts_with_tag_nonneg (posts : list Post) (t : string) :
  0 <= posts_with_tag posts t.
Proof. unfold posts_with_tag. lia. Qed.

Lemma posts_with_tag_middle (l1 l2 : list Post) (p : Post) (t : string) :
  posts_with_tag (l1 ++ p :: l2) t =
  posts_with_tag (l1 ++ l2) t + indicator (tags_or_empty p) t.
Proof.
  unfold posts_with_tag, indicator. rewrite !List.filter_app. simpl.
  unfold holds_tag at 2. destruct (Js.includes (tags_or_empty p) t);
    rewrite !length_app; simpl; lia.
Qed.

Lemma posts_with_tag_snoc (l : list Post) (p : Post) (t : string) :
  posts_with_tag (l ++ [p]) t = posts_with_tag l t + indicator (tags_or_empty p) t.
Proof. rewrite posts_with_tag_middle, app_nil_r. reflexivity. Qed.

Lemma NoDup_filter_bool {A} (f : A -> bool) (l : list A) :
  NoDup l -> NoDup (List.filter f l).
Proof. rewrite !NoDup_ListNoDup. apply List.NoDup_filter. Qed.

Lemma includes_tagsToAdd (oldTags newTags : list string) (t : string) :
  Js.includes (tagsToAdd oldTags newTags) t =
  Js.includes newTags t && negb (Js.includes oldTags t).
Proof.
  apply eq_true_iff_eq. rewrite andb_true_iff, negb_true_iff.
  rewrite !includes_true, includes_false. unfold tagsToAdd.
  rewrite !list_elem_of_In, filter_In, negb_true_iff, includes_false.
  rewrite list_elem_of_In. tauto.
Qed.

Lemma includes_tagsToRemove (oldTags newTags : list string) (t : string) :
  Js.includes (tagsToRemove oldTags newTags) t =
  Js.includes oldTags t && negb (Js.includes newTags t).
Proof. apply (includes_tagsToAdd newTags oldTags t). Qed.

Lemma consistent_empty : consistent Data.empty.
Proof.
  split; [split; constructor|]. split; [constructor|]. reflexivity.
Qed.

Lemma addPost_consistent (now uuid : string) (post : Post) (sync : bool)
    (s : Session) (d : Data.t) :
  consistent d ->
  NoDup (tags_or_empty post) ->
  exists d', storage (addPost now uuid post sync s (Some d)) = Some d' /\ consistent d'.
Proof.
  intros (Hwf & Hposts & Hcount) Hnd. unfold addPost.
  destruct (0 <=? _); simpl; [exists d; repeat split; auto; apply Hwf|].
  eexists; split; [reflexivity|].
  change (tags_or_empty (stamp now uuid post)) with (tags_or_empty post).
  split; [apply increment_tags_wf, Hwf|]. split; simpl.
  - apply Forall_app. split; [exact Hposts|]. constructor; [exact Hnd|constructor].
  - intros t. rewrite increment_tags_count by exact Hnd.
    rewrite posts_with_tag_snoc, Hcount. reflexivity.
Qed.

Lemma updatePost_consistent (now : string) (post : Post) (sync : bool)
    (s : Session) (d : Data.t) :
  consistent d ->
  NoDup (tags_or_empty post) ->
  exists d', storage (updatePost now post sync s (Some d)) = Some d' /\ consistent d'.
Proof.
  intros (Hwf & Hposts & Hcount) Hnd. unfold updatePost, updatePost_resume.
  set (post' := set_updatedAt post now).
  change (id post') with (id post).
  destruct (getPostById (id post) (Some d)) as [existing|] eqn:Hget;
    [|exists d; repeat split; auto; apply Hwf].
  simpl in Hget.
  destruct (find_split _ _ _ Hget) as (l1 & l2 & Hsplit & _ & _ & Hlen).
  pose proof (findIndex_find_some _ _ _ Hget) as [Hge _].
  destruct (Z.eqb_spec (Js.findIndex (has_id (id post)) (Data.posts d)) (-1)); [lia|].
  eexists; split; [reflexivity|].
  replace (Js.findIndex (has_id (id post)) (Data.posts d))
    with (Z.of_nat (length l1)) by lia.
  rewrite Hsplit, set_at_middle.
  change (tags_or_empty post') with (tags_or_empty post).
  assert (Hold : NoDup (tags_or_empty existing)).
  { rewrite Hsplit in Hposts. apply Forall_app in Hposts as [_ Hposts].
    apply Forall_cons in Hposts as [Hex _]. exact Hex. }
  assert (Hadd : NoDup (tagsToAdd (tags_or_empty existing) (tags_or_empty post)))
    by (apply NoDup_filter_bool, Hnd).
  assert (Hrem : NoDup (tagsToRemove (tags_or_empty existing) (tags_or_empty post)))
    by (apply NoDup_filter_bool, Hold).
  split; [apply decrement_tags_wf, increment_tags_wf, Hwf|]. split; simpl.
  - rewrite Hsplit in Hposts. apply Forall_app in Hposts as [H1 H2].
    apply Forall_cons in H2 as [_ H2].
    apply Forall_app. split; [exact H1|]. constructor; [exact Hnd|exact H2].
  - intros t.
    rewrite decrement_tags_count; [|exact Hrem|apply increment_tags_wf, Hwf].
    rewrite increment_tags_count by exact Hadd.
    rewrite includes_tagsToRemove. unfold indicator at 1 2.
    rewrite includes_tagsToAdd.
    specialize (Hcount t). rewrite Hsplit in Hcount.
    rewrite posts_with_tag_middle in Hcount. rewrite posts_with_tag_middle.
    change (tags_or_empty post') with (tags_or_empty post).
    pose proof (posts_with_tag_nonneg (l1 ++ l2) t).
    unfold indicator in *.
    destruct (Js.includes (tags_or_empty existing) t),
             (Js.includes (tags_or_empty post) t); simpl; lia.
Qed.

Lemma deletePost_consistent (i : option string) (sync : bool)
    (s : Session) (d : Data.t) :
  consistent d ->
  exists d', storage (deletePost i sync s (Some d)) = Some d' /\ consistent d'.
Proof.
  intros (Hwf & Hposts & Hcount). unfold deletePost, deletePost_resume.
  destruct (getPostById i (Some d)) as [existing|] eqn:Hget;
    [|exists d; repeat split; auto; apply Hwf].
  simpl in Hget.
  destruct (find_split _ _ _ Hget) as (l1 & l2 & Hsplit & _ & _ & Hlen).
  pose proof (findIndex_find_some _ _ _ Hget) as [Hge _].
  destruct (Z.eqb_spec (Js.findIndex (has_id i) (Data.posts d)) (-1)); [lia|].
  eexists; split; [reflexivity|].
  replace (Js.findIndex (has_id i) (Data.posts d))
    with (Z.of_nat (length l1)) by lia.
  rewrite Hsplit, splice1_middle.
  rewrite Hsplit in Hposts. apply Forall_app in Hposts as [H1 H2].
  apply Forall_cons in H2 as [Hold H2].
  split; [apply decrement_tags_wf, Hwf|]. split; simpl.
  - apply Forall_app. split; assumption.
  - intros t. rewrite decrement_tags_count; [|exact Hold|exact Hwf].
    specialize (Hcount t). rewrite Hsplit, posts_with_tag_middle in Hcount.
    pose proof (posts_with_tag_nonneg (l1 ++ l2) t).
    unfold indicator in *.
    destruct (Js.includes (tags_or_empty existing) t); lia.
Qed.

Lemma tag_count_member (l : list Tag) (r : Tag) :
  NoDup (map name l) -> r ∈ l -> tag_count l (name r) = count r.
Proof.
  induction l as [|r' l IH]; intros Hnd Hin; [inversion Hin|].
  simpl in Hnd. apply NoDup_cons in Hnd as [Hnot Hnd].
  unfold tag_count. simpl. apply elem_of_cons in Hin as [->|Hin].
  - replace (has_name (name r') r') with true
      by (symmetry; apply has_name_true; reflexivity).
    reflexivity.
  - destruct (has_name (name r) r') eqn:Hr'.
    + apply has_name_true in Hr'. exfalso. apply Hnot. rewrite Hr'.
      apply list_elem_of_fmap_2, Hin.
    + apply IH; assumption.
Qed.

Lemma consistent_exact (d : Data.t) : consistent d -> tag_counts_exact d.
Proof.
  intros ([Hnd Hpos] & _ & Hcount) r Hin.
  rewrite <- Hcount, tag_count_member by assumption.
  split; [reflexivity|].
  rewrite Forall_forall in Hpos. specialize (Hpos r Hin). lia.
Qed.

Lemma run_ops_consistent (s : Session) (ops : list Op) (d : Data.t) :
  consistent d ->
  Forall duplicate_free_tags ops ->
  exists d', run_ops s ops (Some d) = Some d' /\ consistent d'.
Proof.
  revert d. induction ops as [|op ops IH]; intros d Hd Hops.
  - exists d. split; [reflexivity|exact Hd].
  - apply Forall_cons in Hops as [Hop Hops].
    assert (Hstep : exists d1, apply_op s (Some d) op = Some d1 /\ consistent d1).
    { destruct op; simpl in *.
      - apply addPost_consistent; assumption.
      - apply updatePost_consistent; assumption.
      - apply deletePost_consistent; assumption. }
    destruct Hstep as (d1 & Hd1 & Hc1).
    destruct (IH d1 Hc1 Hops) as (d' & Hrun & Hc').
    exists d'. split; [|exact Hc'].
    unfold run_ops in *. simpl. rewrite Hd1. exact Hrun.
Qed.

(** C1 (as amended). Starting from the empty document, after any sequence
    of addPost, updatePost and deletePost calls whose posts carry no tag
    twice, each call finished before the next, every tag record holds
    the number of stored posts whose tag array contains its name, and no
    record has the count zero. *)
Theorem tag_count_invariant (s : Session) (ops : list Op) :
  Forall duplicate_free_tags ops ->
  exists d, run_ops s ops (Some Data.empty) = Some d /\ tag_counts_exact d.
Proof.
  intros Hops.
  destruct (run_ops_consistent s ops Data.empty consistent_empty Hops)
    as (d & Hrun & Hc).
  exists d. split; [exact Hrun|apply consistent_exact, Hc].
Qed.

Lemma tag_count_invariant_witness :
  Forall duplicate_free_tags scenario /\
  exists d, run_ops offline scenario (Some Data.empty) = Some d /\ tag_counts_exact d.
Proof.
  assert (H : Forall duplicate_free_tags scenario).
  { repeat constructor; simpl; intros Hin;
      repeat (apply elem_of_cons in Hin as [Hin|Hin]; [discriminate|]);
      inversion Hin. }
  split; [exact H|apply (tag_count_invariant offline scenario H)].
Defined.

(** C1 as stated fails: one addPost whose post names a tag twice leaves
    a record with count 2 while a single post carries the tag. *)
Lemma tag_count_invariant_repeated_tag :
  exists d,
    run_ops offline [OpAddPost t1 "id-1" post_repeated_tag true] (Some Data.empty)
      = Some d /\
    ~ tag_counts_exact d.
Proof.
  eexists. split; [vm_compute; reflexivity|].
  intros H. destruct (H (mkTag "a" 2)) as [Hcount _].
  - apply list_elem_of_singleton. reflexivity.
  - vm_compute in Hcount. discriminate.
Qed.

(** ** Single calls on the fallback backend *)

Lemma strict_eq_true (a b : option string) : Js.strict_eq a b = true <-> a = b.
Proof.
  destruct a as [x|], b as [y|]; simpl; try (split; congruence).
  rewrite String.eqb_eq. split; congruence.
Qed.

Lemma strict_eq_false (a b : option string) : Js.strict_eq a b = false <-> a <> b.
Proof.
  rewrite <- strict_eq_true. destruct (Js.strict_eq a b); split; congruence.
Qed.

Lemma has_id_true (i : option string) (p : Post) : has_id i p = true <-> id p = i.
Proof. apply strict_eq_true. Qed.

Lemma has_id_false (i : option string) (p : Post) : has_id i p = false <-> id p <> i.
Proof. apply strict_eq_false. Qed.

Lemma find_none_iff {A} (f : A -> bool) (l : list A) :
  List.find f l = None <-> forall x, x ∈ l -> f x = false.
Proof.
  split.
  - intros H x Hin. apply (find_none f l H). apply list_elem_of_In, Hin.
  - intros H. destruct (List.find f l) as [x|] eqn:Hfind; [|reflexivity].
    apply find_some in Hfind as [Hin Hx]. apply list_elem_of_In in Hin.
    rewrite (H x Hin) in Hx. discriminate.
Qed.

Lemma getPostById_none (i : option string) (ls : Storage) :
  getPostById i ls = None <-> forall p, p ∈ stored_posts ls -> id p <> i.
Proof.
  destruct ls as [d|]; simpl.
  - rewrite find_none_iff. split; intros H p Hin.
    + apply has_id_false, H, Hin.
    + apply has_id_false, H, Hin.
  - split; [intros _ p Hin; inversion Hin|reflexivity].
Qed.

(** C5. In the fallback backend, when a stored post has the url of the
    post handed to addPost, the call fails with the duplicate-url error
    and leaves the stored document (posts and tag counts) as it was;
    nothing is queued for the remote side. *)
Theorem addPost_duplicate_url (now uuid : string) (post : Post) (sync : bool)
    (s : Session) (d : Data.t) (q : Post) :
  q ∈ Data.posts d ->
  url q = url post ->
  addPost now uuid post sync s (Some d) = mkResult (Rejected DuplicateURL) (Some d) None.
Proof.
  intros Hin Hurl. unfold addPost.
  change (url (stamp now uuid post)) with (url post).
  destruct (Z.leb_spec 0 (Js.findIndex (has_url (url post)) (Data.posts d)))
    as [_|Hlt]; [reflexivity|].
  apply findIndex_find_none in Hlt.
  rewrite find_none_iff in Hlt. specialize (Hlt q Hin).
  unfold has_url in Hlt. rewrite Hurl, String.eqb_refl in Hlt. discriminate.
Qed.

Lemma addPost_duplicate_url_witness :
  stored_a ∈ Data.posts store_a /\
  url stored_a = url (mkPost None "https://a.example/" "website" None None
                             (Some ["x"]%string) None None None) /\
  addPost t2 "id-2" (mkPost None "https://a.example/" "website" None None
                            (Some ["x"]%string) None None None)
          true signed_in (Some store_a)
  = mkResult (Rejected DuplicateURL) (Some store_a) None.
Proof.
  assert (Hin : stored_a ∈ Data.posts store_a) by (apply list_elem_of_singleton; reflexivity).
  split; [exact Hin|]. split; [reflexivity|].
  apply (addPost_duplicate_url t2 "id-2" _ true signed_in store_a stored_a Hin).
  reflexivity.
Defined.

(** C3 (as amended). When no stored post has the id, deletePost resolves
    with [false]: the not-found error is caught and logged, not passed
    on. The stored document is unchanged and nothing is queued. *)
Theorem deletePost_missing (i : option string) (sync : bool) (s : Session)
    (ls : Storage) :
  (forall p, p ∈ stored_posts ls -> id p <> i) ->
  deletePost i sync s ls = mkResult (Resolved false) ls None.
Proof.
  intros H. apply getPostById_none in H.
  unfold deletePost. rewrite H. reflexivity.
Qed.

Lemma deletePost_missing_witness :
  (forall p, p ∈ stored_posts (Some store_a) -> id p <> Some "id-9"%string) /\
  deletePost (Some "id-9"%string) true signed_in (Some store_a)
  = mkResult (Resolved false) (Some store_a) None.
Proof.
  assert (H : forall p, p ∈ stored_posts (Some store_a) -> id p <> Some "id-9"%string).
  { intros p Hin. apply list_elem_of_singleton in Hin. subst p. discriminate. }
  split; [exact H|].
  apply (deletePost_missing (Some "id-9"%string) true signed_in (Some store_a) H).
Defined.

(** C3 as stated fails: deleting an id that is not stored does not reject
    with the not-found error. *)
Lemma deletePost_missing_does_not_reject :
  (forall p, p ∈ stored_posts (Some store_a) -> id p <> Some "id-9"%string) /\
  outcome (deletePost (Some "id-9"%string) true signed_in (Some store_a))
  <> Rejected NotFound.
Proof.
  split.
  - intros p Hin. apply list_elem_of_singleton in Hin. subst p. discriminate.
  - vm_compute. discriminate.
Qed.

Lemma ltb_irrefl (x : string) : String.ltb x x = false.
Proof.
  unfold String.ltb. pose proof (String.compare_antisym x x) as H.
  destruct (String.compare x x); simpl in H; congruence.
Qed.

Lemma addPost_accepted (now uuid : string) (post : Post) (sync : bool)
    (s : Session) (ls : Storage) (stored : Post) :
  outcome (addPost now uuid post sync s ls) = Resolved stored ->
  stored = stamp now uuid post /\
  exists d, ls = Some d /\
    storage (addPost now uuid post sync s ls)
    = Some (Data.mk (Data.posts d ++ [stored])
                    (increment_tags (Data.tags d) (tags_or_empty stored))
                    (Data.settings d)).
Proof.
  unfold addPost. destruct ls as [d|]; simpl; [|discriminate].
  destruct (0 <=? _); simpl; [discriminate|].
  intros [= <-]. split; [reflexivity|]. exists d. split; reflexivity.
Qed.

(** C6 (as amended). When addPost accepts a post and no post stored
    before the call has the id of the stored record, getPostById of that
    id returns the stored record. It agrees with the argument on url,
    platform, title, description, tags and owner; its id is the caller's
    id when that is truthy and the generated one otherwise; [updatedAt]
    is the time of the call; [dateAdded] is the caller's value when that
    is truthy and the time of the call otherwise. [updatedAt >= dateAdded]
    holds when [dateAdded] was generated, and when the caller's value is
    not after the time of the call. *)
Theorem addPost_roundtrip (now uuid : string) (post : Post) (sync : bool)
    (s : Session) (ls : Storage) (stored : Post) :
  outcome (addPost now uuid post sync s ls) = Resolved stored ->
  (forall q, q ∈ stored_posts ls -> id q <> id stored) ->
  getPostById (id stored) (storage (addPost now uuid post sync s ls)) = Some stored /\
  (url stored = url post /\ platform stored = platform post /\
   title stored = title post /\ description stored = description post /\
   tags stored = tags post /\ user_id stored = user_id post) /\
  id stored = (if Js.truthy (id post) then id post else Some uuid) /\
  updatedAt stored = Some now /\
  dateAdded stored = (if Js.truthy (dateAdded post) then dateAdded post else Some now) /\
  (Js.truthy (dateAdded post) = false \/ Js.gt (dateAdded post) (Some now) = false ->
   not_before (updatedAt stored) (dateAdded stored) = true).
Proof.
  intros Hok Hfresh.
  destruct (addPost_accepted _ _ _ _ _ _ _ Hok) as (Hstored & d & -> & Hst).
  rewrite Hst. split.
  - simpl. apply getPostById_none in Hfresh. simpl in Hfresh.
    rewrite find_app_none by exact Hfresh. simpl.
    replace (has_id (id stored) stored) with true
      by (symmetry; apply has_id_true; reflexivity).
    reflexivity.
  - subst stored. simpl. repeat split; try reflexivity.
    intros [Hfalsy|Hle].
    + rewrite Hfalsy. simpl. rewrite ltb_irrefl. reflexivity.
    + destruct (Js.truthy (dateAdded post)) eqn:Htr.
      * destruct (dateAdded post) as [da|]; [|discriminate].
        simpl in *. rewrite Hle. reflexivity.
      * simpl. rewrite ltb_irrefl. reflexivity.
Qed.

Lemma addPost_roundtrip_witness :
  outcome (addPost t1 "id-1" post_news_x true signed_in (Some Data.empty))
    = Resolved (stamp t1 "id-1" post_news_x) /\
  (forall q, q ∈ stored_posts (Some Data.empty) -> id q <> id (stamp t1 "id-1" post_news_x)) /\
  getPostById (Some "id-1"%string)
              (storage (addPost t1 "id-1" post_news_x true signed_in (Some Data.empty)))
    = Some (stamp t1 "id-1" post_news_x).
Proof.
  assert (Hok : outcome (addPost t1 "id-1" post_news_x true signed_in (Some Data.empty))
                = Resolved (stamp t1 "id-1" post_news_x)) by reflexivity.
  assert (Hfresh : forall q, q ∈ stored_posts (Some Data.empty) ->
                             id q <> id (stamp t1 "id-1" post_news_x))
    by (intros q Hin; inversion Hin).
  split; [exact Hok|]. split; [exact Hfresh|].
  exact (proj1 (addPost_roundtrip t1 "id-1" post_news_x true signed_in
                                  (Some Data.empty) _ Hok Hfresh)).
Defined.

(** C6 as stated fails in two ways: a post accepted with a [dateAdded]
    after the time of the call is stored with [updatedAt] before
    [dateAdded]; and a post accepted with the id of an already stored
    post is not the one that getPostById returns. *)
Lemma addPost_roundtrip_fails :
  (exists stored,
     outcome (addPost t1 "id-3" dated_later true offline (Some Data.empty))
       = Resolved stored /\
     getPostById (id stored)
                 (storage (addPost t1 "id-3" dated_later true offline (Some Data.empty)))
       = Some stored /\
     not_before (updatedAt stored) (dateAdded stored) = false) /\
  (exists stored,
     outcome (addPost t2 "id-4" same_id_b true offline (Some store_a))
       = Resolved stored /\
     getPostById (id stored)
                 (storage (addPost t2 "id-4" same_id_b true offline (Some store_a)))
       = Some stored_a /\
     title stored_a <> title same_id_b).
Proof.
  split; eexists; (split; [reflexivity|]); split; try reflexivity.
  discriminate.
Qed.

(** ** Lookups across mutations *)

Lemma find_middle {A} (f : A -> bool) (l1 l2 : list A) (x : A) :
  f x = false -> List.find f (l1 ++ x :: l2) = List.find f (l1 ++ l2).
Proof.
  intros Hx. induction l1 as [|y l1 IH]; simpl.
  - rewrite Hx. reflexivity.
  - destruct (f y); [reflexivity|exact IH].
Qed.

Lemma addPost_keeps_lookup (now uuid : string) (post : Post) (sync : bool)
    (s : Session) (ls : Storage) (i : option string) (p : Post) :
  getPostById i ls = Some p ->
  getPostById i (storage (addPost now uuid post sync s ls)) = Some p.
Proof.
  intros Hget. unfold addPost. destruct ls as [d|]; [|discriminate].
  destruct (0 <=? _); simpl; [exact Hget|].
  apply find_app_some. exact Hget.
Qed.

Lemma updatePost_same_id (now : string) (post : Post) (sync : bool)
    (s : Session) (ls : Storage) (p : Post) :
  getPostById (id post) ls = Some p ->
  updatePost now post sync s ls
  = mkResult (Resolved (set_updatedAt post now))
             (storage (updatePost now post sync s ls))
             (enqueue sync s (fun owner => SyncUpdate (with_owner (set_updatedAt post now) owner)))
  /\ getPostById (id post) (storage (updatePost now post sync s ls))
     = Some (set_updatedAt post now).
Proof.
  intros Hget. unfold updatePost, updatePost_resume.
  change (id (set_updatedAt post now)) with (id post). rewrite Hget.
  destruct ls as [d|]; [|discriminate]. simpl in Hget.
  destruct (find_split _ _ _ Hget) as (l1 & l2 & Hsplit & _ & Hnone & Hlen).
  pose proof (findIndex_find_some _ _ _ Hget) as [Hge _].
  destruct (Z.eqb_spec (Js.findIndex (has_id (id post)) (Data.posts d)) (-1)); [lia|].
  split; [reflexivity|]. simpl.
  replace (Js.findIndex (has_id (id post)) (Data.posts d))
    with (Z.of_nat (length l1)) by lia.
  rewrite Hsplit, set_at_middle, find_app_none by exact Hnone. simpl.
  replace (has_id (id post) (set_updatedAt post now)) with true
    by (symmetry; apply has_id_true; reflexivity).
  reflexivity.
Qed.

Lemma updatePost_other_id (now : string) (post : Post) (sync : bool)
    (s : Session) (ls : Storage) (i : option string) :
  id post <> i ->
  getPostById i (storage (updatePost now post sync s ls)) = getPostById i ls.
Proof.
  intros Hne. unfold updatePost, updatePost_resume.
  change (id (set_updatedAt post now)) with (id post).
  destruct (getPostById (id post) ls) as [existing|] eqn:Hget; [|reflexivity].
  destruct ls as [d|]; [|discriminate]. simpl in Hget.
  destruct (find_split _ _ _ Hget) as (l1 & l2 & Hsplit & Hex & _ & Hlen).
  pose proof (findIndex_find_some _ _ _ Hget) as [Hge _].
  destruct (Z.eqb_spec (Js.findIndex (has_id (id post)) (Data.posts d)) (-1)); [lia|].
  simpl.
  replace (Js.findIndex (has_id (id post)) (Data.posts d))
    with (Z.of_nat (length l1)) by lia.
  rewrite Hsplit, set_at_middle.
  apply has_id_true in Hex.
  rewrite !find_middle; [reflexivity| |]; apply has_id_false; simpl; congruence.
Qed.

Lemma deletePost_other_id (j : option string) (sync : bool)
    (s : Session) (ls : Storage) (i : option string) :
  j <> i ->
  getPostById i (storage (deletePost j sync s ls)) = getPostById i ls.
Proof.
  intros Hne. unfold deletePost, deletePost_resume.
  destruct (getPostById j ls) as [existing|] eqn:Hget; [|reflexivity].
  destruct ls as [d|]; [|discriminate]. simpl in Hget.
  destruct (find_split _ _ _ Hget) as (l1 & l2 & Hsplit & Hex & _ & Hlen).
  pose proof (findIndex_find_some _ _ _ Hget) as [Hge _].
  destruct (Z.eqb_spec (Js.findIndex (has_id j) (Data.posts d)) (-1)); [lia|].
  simpl.
  replace (Js.findIndex (has_id j) (Data.posts d))
    with (Z.of_nat (length l1)) by lia.
  rewrite Hsplit, splice1_middle.
  apply has_id_true in Hex.
  rewrite find_middle; [reflexivity|]. apply has_id_false. congruence.
Qed.

(** C7 (as amended). updatePost stores the record it is given, with its
    [dateAdded] as given. So for a stored post, as long as it is not
    deleted and every updatePost for its id hands in the same
    [dateAdded], any sequence of addPost, updatePost and deletePost calls
    leaves its [dateAdded] at the value it had. *)
Theorem dateAdded_kept (s : Session) (ops : list Op) (i : option string)
    (ls : Storage) (p : Post) :
  getPostById i ls = Some p ->
  Forall (keeps_date i (dateAdded p)) ops ->
  exists p', getPostById i (run_ops s ops ls) = Some p' /\ dateAdded p' = dateAdded p.
Proof.
  revert ls p. induction ops as [|op ops IH]; intros ls p Hget Hops.
  - exists p. split; [exact Hget|reflexivity].
  - apply Forall_cons in Hops as [Hop Hops].
    assert (Hstep : exists p1, getPostById i (apply_op s ls op) = Some p1 /\
                               dateAdded p1 = dateAdded p).
    { destruct op as [now uuid post sync|now post sync|j sync]; simpl in *.
      - exists p. split; [apply addPost_keeps_lookup, Hget|reflexivity].
      - destruct (decide (id post = i)) as [Heq|Hne].
        + subst i. exists (set_updatedAt post now).
          split; [apply (updatePost_same_id now post sync s ls p Hget)|].
          simpl. apply Hop. reflexivity.
        + exists p. split; [|reflexivity].
          rewrite updatePost_other_id by exact Hne. exact Hget.
      - exists p. split; [|reflexivity].
        rewrite deletePost_other_id by exact Hop. exact Hget. }
    destruct Hstep as (p1 & Hget1 & Hd1).
    rewrite <- Hd1 in Hops.
    destruct (IH _ p1 Hget1 Hops) as (p' & Hget' & Hd').
    exists p'. split; [exact Hget'|congruence].
Qed.

Lemma dateAdded_kept_witness :
  getPostById (Some "id-1"%string) (Some store_a) = Some stored_a /\
  Forall (keeps_date (Some "id-1"%string) (dateAdded stored_a))
         [OpUpdatePost t2 post_news true; OpAddPost t3 "id-2" dated_later true] /\
  exists p',
    getPostById (Some "id-1"%string)
      (run_ops offline [OpUpdatePost t2 post_news true; OpAddPost t3 "id-2" dated_later true]
               (Some store_a)) = Some p' /\
    dateAdded p' = dateAdded stored_a.
Proof.
  assert (Hget : getPostById (Some "id-1"%string) (Some store_a) = Some stored_a)
    by reflexivity.
  assert (Hops : Forall (keeps_date (Some "id-1"%string) (dateAdded stored_a))
                   [OpUpdatePost t2 post_news true; OpAddPost t3 "id-2" dated_later true]).
  { repeat constructor. }
  split; [exact Hget|]. split; [exact Hops|].
  apply (dateAdded_kept offline _ (Some "id-1"%string) (Some store_a) stored_a Hget Hops).
Defined.

(** C7 as stated fails: updatePost with a record that carries another
    [dateAdded] replaces the stored value. *)
Lemma updatePost_changes_dateAdded :
  getPostById (Some "id-1"%string) (Some store_a) = Some stored_a /\
  exists p',
    getPostById (Some "id-1"%string)
                (storage (updatePost t3 redated_a true offline (Some store_a))) = Some p' /\
    dateAdded p' <> dateAdded stored_a.
Proof.
  split; [reflexivity|]. eexists. split; [reflexivity|]. discriminate.
Qed.

(** ** Queries *)

Lemma slice_pages {A} (l : list A) (n : Z) :
  0 < n ->
  Js.slice l 0 (0 + n) ++ Js.slice l n (n + n) = Js.slice l 0 (0 + 2 * n).
Proof.
  intros Hn. unfold Js.slice, Js.clamp.
  set (len := Z.of_nat (length l)).
  replace (0 <? 0) with false by reflexivity.
  destruct (Z.ltb_spec n 0); [lia|].
  destruct (Z.ltb_spec (0 + n) 0); [lia|].
  destruct (Z.ltb_spec (n + n) 0); [lia|].
  destruct (Z.ltb_spec (0 + 2 * n) 0); [lia|].
  replace (Z.to_nat (Z.min 0 len)) with 0%nat by lia.
  replace (Z.to_nat (Z.max (Z.min (0 + n) len - Z.min 0 len) 0))
    with (Z.to_nat (Z.min n len)) by lia.
  rewrite !drop_0, take_take_drop. f_equal. lia.
Qed.

Section QueryFacts.

Variable localeCompare : string -> string -> Z.
Variable dateValue : string -> option Z.
Variable toLowerCase : string -> string.

Local Abbreviation query' := (query localeCompare dateValue toLowerCase).
Local Abbreviation getAllPosts' := (getAllPosts localeCompare dateValue toLowerCase).
Local Abbreviation comparator' := (comparator localeCompare dateValue).
Local Abbreviation apply_filters' := (apply_filters toLowerCase).

(** Changing the page changes neither the filters nor the comparator. *)
Lemma query_with_page (o : Options.t) (lim off : option Z) (posts : list Post) :
  query' (with_page o lim off) posts =
  paginate (with_page o lim off) (Js.sort (comparator' o) (apply_filters' o posts)).
Proof. reflexivity. Qed.

(** C8. For fixed filter and sort options and every n > 0, the page
    [offset 0, limit n] followed by the page [offset n, limit n] is the
    page [limit 2n] on the same stored document. *)
Theorem pagination_composes (o : Options.t) (n : Z) (ls : Storage) :
  0 < n ->
  getAllPosts' (with_page o (Some n) (Some 0)) ls ++
  getAllPosts' (with_page o (Some n) (Some n)) ls
  = getAllPosts' (with_page o (Some (2 * n)) None) ls.
Proof.
  intros Hn. destruct ls as [d|]; [|reflexivity].
  unfold getAllPosts. rewrite !query_with_page.
  unfold paginate. simpl.
  destruct (Z.eqb_spec n 0); [lia|].
  destruct (Z.eqb_spec (2 * n) 0); [lia|].
  apply slice_pages. exact Hn.
Qed.

(** C10. When the options omit [limit] or set it to 0, getAllPosts
    returns the whole filtered and sorted sequence, whatever [offset]
    is. *)
Theorem no_limit_ignores_offset (o : Options.t) (off : option Z) (ls : Storage) :
  Options.limit o = None \/ Options.limit o = Some 0 ->
  getAllPosts' (with_offset o off) ls = getAllPosts' o ls /\
  getAllPosts' o ls = match ls with
                     | Some d => Js.sort (comparator' o) (apply_filters' o (Data.posts d))
                     | None => []
                     end.
Proof.
  intros Hlim. destruct ls as [d|]; [|split; reflexivity].
  unfold getAllPosts, with_offset. rewrite query_with_page.
  unfold query, paginate. simpl.
  destruct Hlim as [-> | ->]; split; reflexivity.
Qed.

End QueryFacts.

Lemma pagination_composes_witness :
  0 < 1 /\
  getAllPosts sample_localeCompare sample_dateValue sample_toLowerCase
              (with_page Options.none (Some 1) (Some 0)) (Some store_abc) ++
  getAllPosts sample_localeCompare sample_dateValue sample_toLowerCase
              (with_page Options.none (Some 1) (Some 1)) (Some store_abc)
  = [stored_c; stored_b].
Proof.
  split; [lia|].
  rewrite (pagination_composes sample_localeCompare sample_dateValue
             sample_toLowerCase Options.none 1 (Some store_abc)) by lia.
  reflexivity.
Defined.

Lemma no_limit_ignores_offset_witness :
  (Options.limit Options.none = None \/ Options.limit Options.none = Some 0) /\
  getAllPosts sample_localeCompare sample_dateValue sample_toLowerCase
              (with_offset Options.none (Some 2)) (Some store_abc)
  = [stored_c; stored_b; stored_a].
Proof.
  split; [left; reflexivity|].
  rewrite (proj1 (no_limit_ignores_offset sample_localeCompare sample_dateValue
                    sample_toLowerCase Options.none (Some 2) (Some store_abc)
                    (or_introl eq_refl))).
  reflexivity.
Defined.

(** ** Reads that fail, calls that come early *)

(** On the fallback backend both reads resolve, whatever localStorage
    holds. *)
Lemma fallback_reads_resolve (localeCompare : string -> string -> Z)
    (dateValue : string -> option Z) (toLowerCase : string -> string)
    (o : Options.t) (i : option string) (ls : Storage) :
  (exists posts,
     getAllPosts_settled localeCompare dateValue toLowerCase o (Fallback ls)
     = Resolved posts) /\
  (exists r, getPostById_settled i (Fallback ls) = Resolved r).
Proof. split; eexists; reflexivity. Qed.

(** C4, at the input where it fails. On the indexed backend a read
    request that fires [onerror] rejects the promise that getAllPosts and
    getPostById return: the promise built around the request is returned
    from inside [try] without [await], so the [catch] block that would
    give the empty array or [null] never sees the rejection. *)
Theorem indexed_read_error_rejects :
  getAllPosts_settled sample_localeCompare sample_dateValue sample_toLowerCase
                      Options.none failing_index = Rejected read_error /\
  getPostById_settled (Some "id-1"%string) failing_index = Rejected read_error.
Proof. split; reflexivity. Qed.

(** Deferred calls are queued in call order. *)
Lemma defer_all_order (cs : list Call) (db : DB) :
  pendingOperations (foldl (fun db c => defer c db) db cs) = pendingOperations db ++ cs.
Proof.
  revert db. induction cs as [|c cs IH]; intros db; simpl.
  - rewrite app_nil_r. reflexivity.
  - rewrite IH. simpl. rewrite <- app_assoc. reflexivity.
Qed.

(** When the store becomes ready the queue is emptied, and an early
    caller whose promise is fulfilled receives what the same calls give
    on the ready store. *)
Lemma processPendingOperations_fulfilled (localeCompare : string -> string -> Z)
    (dateValue : string -> option Z) (toLowerCase : string -> string)
    (clock uuid : nat -> string) (db : DB) (k : nat) (v : Value) :
  let ready := run_task localeCompare dateValue toLowerCase clock uuid
                        (pendingOperations db) (session db) (localStorage db) in
  let done := processPendingOperations localeCompare dateValue toLowerCase clock uuid db in
  pendingOperations (fst done) = [] /\
  localStorage (fst done) = snd ready /\
  (snd done !! k = Some (Resolved v) -> fst ready !! k = Some (Resolved v)).
Proof.
  unfold processPendingOperations.
  destruct (run_task _ _ _ _ _ _ _ _) as [rs ls]. simpl.
  split; [reflexivity|]. split; [reflexivity|].
  rewrite list_lookup_fmap. destruct (rs !! k) as [[a|e|]|]; simpl; congruence.
Qed.

(** C9, at the input where it fails. updatePost for an id that is not
    stored, called before the store is ready: once the store is ready the
    queued call runs and rejects with the not-found error, but the
    promise held by the early caller stays pending, while the same call
    on the ready store rejects. *)
Theorem deferred_rejection_never_settles :
  snd (fallbackToLocalStorage sample_localeCompare sample_dateValue sample_toLowerCase
         sample_clock sample_uuid (defer (CallUpdatePost post_news true) not_ready))
  = [Pending] /\
  fst (run_task sample_localeCompare sample_dateValue sample_toLowerCase
         sample_clock sample_uuid [CallUpdatePost post_news true] offline
         (Some Data.empty))
  = [Rejected NotFound].
Proof. split; reflexivity. Qed.

(** ** The sync cycle *)

Lemma insert_sorted_elem {A} (cmp : A -> A -> Z) (x y : A) (l : list A) :
  y ∈ Js.insert_sorted cmp x l <-> y = x \/ y ∈ l.
Proof.
  induction l as [|z l IH]; simpl.
  - rewrite list_elem_of_singleton. split; [auto|].
    intros [H|H]; [exact H|inversion H].
  - destruct (cmp x z <=? 0).
    + rewrite elem_of_cons. reflexivity.
    + rewrite !elem_of_cons, IH. tauto.
Qed.

(** Sorting keeps the elements. *)
Lemma sort_elem {A} (cmp : A -> A -> Z) (y : A) (l : list A) :
  y ∈ Js.sort cmp l <-> y ∈ l.
Proof.
  unfold Js.sort. induction l as [|x l IH]; simpl; [reflexivity|].
  rewrite insert_sorted_elem, IH, elem_of_cons. reflexivity.
Qed.

Lemma find_unique {A} (f : A -> bool) (l : list A) (x : A) :
  x ∈ l -> f x = true ->
  (forall q, q ∈ l -> f q = true -> q = x) ->
  List.find f l = Some x.
Proof.
  intros Hin Hx Huniq.
  destruct (List.find f l) as [q|] eqn:Hfind.
  - apply find_some in Hfind as [Hq Hfq]. apply list_elem_of_In in Hq.
    rewrite (Huniq q Hq Hfq). reflexivity.
  - rewrite find_none_iff in Hfind. rewrite (Hfind x Hin) in Hx. discriminate.
Qed.

Section SyncFacts.

Variables clock uuid : nat -> string.
Variable s : Session.

(** The snapshot [localPosts] and the id under consideration. *)
Variable localPosts : list Post.
Variable i : option string.

Lemma merge_remote_quiet (remotePosts : list Post) (k : nat) (ls : Storage) (p : Post) :
  quiet localPosts i remotePosts ->
  getPostById i ls = Some p ->
  getPostById i (merge_storage (merge_remote clock uuid k s localPosts remotePosts ls))
  = Some p.
Proof.
  revert k ls. induction remotePosts as [|r rest IH]; intros k ls Hq Hget; [exact Hget|].
  assert (Hrest : quiet localPosts i rest).
  { intros r' Hin. apply Hq. apply elem_of_cons. right. exact Hin. }
  simpl. destruct (List.find (has_id (id r)) localPosts) as [l|] eqn:Hfind.
  - destruct (Js.gt (updatedAt r) (updatedAt l)) eqn:Hgt.
    + assert (Hne : id r <> i).
      { intros Heq. destruct (Hq r) as (l' & Hl' & Hgt'); [left|exact Heq|].
        rewrite Heq, Hl' in Hfind. injection Hfind as ->. congruence. }
      pose proof (updatePost_other_id (clock k) r false s ls i Hne) as Hkeep.
      destruct (outcome (updatePost (clock k) r false s ls)); simpl.
      * apply IH; [exact Hrest|]. rewrite Hkeep. exact Hget.
      * rewrite Hkeep. exact Hget.
      * rewrite Hkeep. exact Hget.
    + simpl. apply IH; assumption.
  - pose proof (addPost_keeps_lookup (clock k) (uuid k) r false s ls i p Hget) as Hkeep.
    destruct (outcome (addPost (clock k) (uuid k) r false s ls)); simpl.
    + apply IH; assumption.
    + exact Hkeep.
    + exact Hkeep.
Qed.

Lemma addPost_settles (now u : string) (post : Post) (sync : bool) (ls : Storage) :
  outcome (addPost now u post sync s ls) <> Pending.
Proof.
  unfold addPost. destruct ls as [d|]; [|discriminate].
  destruct (0 <=? _); discriminate.
Qed.

Lemma updatePost_settles (now : string) (post : Post) (sync : bool) (ls : Storage) :
  outcome (updatePost now post sync s ls) <> Pending.
Proof.
  unfold updatePost, updatePost_resume.
  destruct (getPostById _ ls); [|discriminate].
  destruct ls as [d|]; [|discriminate].
  destruct (_ =? -1); discriminate.
Qed.

(** Once the local post is the remote post [r0] with a fresh timestamp,
    it stays of that form through the rest of the loop. *)
Lemma merge_remote_overwritten (remotePosts : list Post) (k : nat) (ls : Storage)
    (r0 l0 : Post) :
  List.find (has_id i) localPosts = Some l0 ->
  Js.gt (updatedAt r0) (updatedAt l0) = true ->
  id r0 = i ->
  (forall q, q ∈ remotePosts -> id q = i -> q = r0) ->
  (exists k0, getPostById i ls = Some (set_updatedAt r0 (clock k0))) ->
  exists k1,
    getPostById i (merge_storage (merge_remote clock uuid k s localPosts remotePosts ls))
    = Some (set_updatedAt r0 (clock k1)).
Proof.
  intros Hl0 Hgt Hid. revert k ls.
  induction remotePosts as [|r rest IH]; intros k ls Huniq Hstate; [exact Hstate|].
  assert (Hrest : forall q, q ∈ rest -> id q = i -> q = r0).
  { intros q Hin. apply Huniq. right. exact Hin. }
  destruct Hstate as (k0 & Hget).
  simpl. destruct (decide (id r = i)) as [Heq|Hne].
  - assert (r = r0) by (apply Huniq; [left|exact Heq]). subst r.
    rewrite Heq, Hl0, Hgt.
    rewrite <- Hid in Hget.
    destruct (updatePost_same_id (clock k) r0 false s ls _ Hget) as [Hres Hnew].
    rewrite Hres. simpl. rewrite Hid in Hnew.
    apply IH; [exact Hrest|]. exists k. exact Hnew.
  - destruct (List.find (has_id (id r)) localPosts) as [l|].
    + destruct (Js.gt (updatedAt r) (updatedAt l)).
      * pose proof (updatePost_other_id (clock k) r false s ls i Hne) as Hkeep.
        destruct (outcome (updatePost (clock k) r false s ls)); simpl.
        -- apply IH; [exact Hrest|]. exists k0. rewrite Hkeep. exact Hget.
        -- exists k0. rewrite Hkeep. exact Hget.
        -- exists k0. rewrite Hkeep. exact Hget.
      * simpl. apply IH; [exact Hrest|]. exists k0. exact Hget.
    + pose proof (addPost_keeps_lookup (clock k) (uuid k) r false s ls i _ Hget) as Hkeep.
      destruct (outcome (addPost (clock k) (uuid k) r false s ls)); simpl.
      * apply IH; [exact Hrest|]. exists k0. exact Hkeep.
      * exists k0. exact Hkeep.
      * exists k0. exact Hkeep.
Qed.

(** A loop that reaches its end has overwritten the local post with the
    newer remote post. *)
Lemma merge_remote_reaches (remotePosts : list Post) (k : nat) (ls : Storage)
    (r0 l0 p : Post) :
  List.find (has_id i) localPosts = Some l0 ->
  Js.gt (updatedAt r0) (updatedAt l0) = true ->
  id r0 = i ->
  (forall q, q ∈ remotePosts -> id q = i -> q = r0) ->
  r0 ∈ remotePosts ->
  getPostById i ls = Some p ->
  merge_error (merge_remote clock uuid k s localPosts remotePosts ls) = None ->
  exists k1,
    getPostById i (merge_storage (merge_remote clock uuid k s localPosts remotePosts ls))
    = Some (set_updatedAt r0 (clock k1)).
Proof.
  intros Hl0 Hgt Hid. revert k ls p.
  induction remotePosts as [|r rest IH]; intros k ls p Huniq Hin Hget Herr;
    [inversion Hin|].
  assert (Hrest : forall q, q ∈ rest -> id q = i -> q = r0).
  { intros q Hq. apply Huniq. right. exact Hq. }
  destruct (decide (id r = i)) as [Heq|Hne].
  - assert (r = r0) by (apply Huniq; [left|exact Heq]). subst r.
    simpl. rewrite Heq, Hl0, Hgt.
    rewrite <- Hid in Hget.
    destruct (updatePost_same_id (clock k) r0 false s ls _ Hget) as [Hres Hnew].
    rewrite Hres. simpl. rewrite Hid in Hnew.
    apply (merge_remote_overwritten rest (S k) _ r0 l0 Hl0 Hgt Hid Hrest).
    exists k. exact Hnew.
  - assert (Hin' : r0 ∈ rest).
    { apply elem_of_cons in Hin as [Heq|Hin']; [congruence|exact Hin']. }
    simpl in *. destruct (List.find (has_id (id r)) localPosts) as [l|].
    + destruct (Js.gt (updatedAt r) (updatedAt l)).
      * pose proof (updatePost_other_id (clock k) r false s ls i Hne) as Hkeep.
        pose proof (updatePost_settles (clock k) r false ls) as Hsettles.
        destruct (outcome (updatePost (clock k) r false s ls)); simpl in *.
        -- apply (IH _ _ p Hrest Hin'); [rewrite Hkeep; exact Hget|exact Herr].
        -- discriminate.
        -- congruence.
      * simpl in *. apply (IH _ _ p Hrest Hin' Hget Herr).
    + pose proof (addPost_keeps_lookup (clock k) (uuid k) r false s ls i _ Hget) as Hkeep.
      pose proof (addPost_settles (clock k) (uuid k) r false ls) as Hsettles.
      destruct (outcome (addPost (clock k) (uuid k) r false s ls)); simpl in *.
      * apply (IH _ _ p Hrest Hin' Hkeep Herr).
      * discriminate.
      * congruence.
Qed.

(** After a loop that reaches its end, every remote post that has a
    local counterpart is still in the array under its id. *)
Lemma merge_seen_id (remotePosts : list Post) (k : nat) (ls : Storage) (r0 : Post) :
  merge_error (merge_remote clock uuid k s localPosts remotePosts ls) = None ->
  r0 ∈ remotePosts ->
  List.find (has_id (id r0)) localPosts <> None ->
  exists q,
    q ∈ merge_seen (merge_remote clock uuid k s localPosts remotePosts ls) /\
    id q = id r0.
Proof.
  revert k ls. induction remotePosts as [|r rest IH]; intros k ls Herr Hin Hlocal;
    [inversion Hin|].
  simpl in *. destruct (List.find (has_id (id r)) localPosts) as [l|] eqn:Hfind.
  - destruct (Js.gt (updatedAt r) (updatedAt l)).
    + pose proof (updatePost_settles (clock k) r false ls) as Hsettles.
      destruct (outcome (updatePost (clock k) r false s ls)); simpl in *;
        [|discriminate|congruence].
      apply elem_of_cons in Hin as [->|Hin].
      * exists (set_updatedAt r (clock k)). split; [left|reflexivity].
      * destruct (IH _ _ Herr Hin Hlocal) as (q & Hq & Hidq).
        exists q. split; [right; exact Hq|exact Hidq].
    + simpl in *. apply elem_of_cons in Hin as [->|Hin].
      * exists r. split; [left|reflexivity].
      * destruct (IH _ _ Herr Hin Hlocal) as (q & Hq & Hidq).
        exists q. split; [right; exact Hq|exact Hidq].
  - pose proof (addPost_settles (clock k) (uuid k) r false ls) as Hsettles.
    destruct (outcome (addPost (clock k) (uuid k) r false s ls)); simpl in *;
      [|discriminate|congruence].
    apply elem_of_cons in Hin as [->|Hin]; [congruence|].
    destruct (IH _ _ Herr Hin Hlocal) as (q & Hq & Hidq).
    exists q. split; [right; exact Hq|exact Hidq].
Qed.

End SyncFacts.

Section SyncCycle.

Variable localeCompare : string -> string -> Z.
Variable dateValue : string -> option Z.
Variable toLowerCase : string -> string.

Local Abbreviation syncWithSupabase' :=
  (syncWithSupabase localeCompare dateValue toLowerCase).

(** C2 (as amended). Let the local post [L] be the only stored post with
    its id and the remote post [R] the only fetched post with that id.
    If [R.updatedAt > L.updatedAt] and the cycle runs to its end, the
    stored post for that id is [R] with [updatedAt] replaced by the time
    at which the cycle wrote it. Otherwise the stored post is still [L],
    and every remote call after the select is an insert for another
    id. *)
Theorem sync_reconciliation (clock uuid : nat -> string) (s : Session)
    (owner : string) (queue : list SyncEntry) (remotePosts : list Post)
    (d : Data.t) (L R : Post) :
  currentUser s = Some owner ->
  L ∈ Data.posts d -> id L = id R ->
  (forall q, q ∈ Data.posts d -> id q = id R -> q = L) ->
  R ∈ remotePosts ->
  (forall q, q ∈ remotePosts -> id q = id R -> q = R) ->
  let c := syncWithSupabase' clock uuid true s queue (SelectData remotePosts) (Some d) in
  (Js.gt (updatedAt R) (updatedAt L) = true -> cycle_error c = None ->
   exists k, getPostById (id R) (cycle_storage c) = Some (set_updatedAt R (clock k))) /\
  (Js.gt (updatedAt R) (updatedAt L) = false ->
   getPostById (id R) (cycle_storage c) = Some L /\
   exists pushed,
     cycle_calls c = map remote_call_of queue ++ RemoteSelect owner :: pushed /\
     forall call, call ∈ pushed -> exists row, call = RemoteInsert row /\ id row <> id R).
Proof.
  intros Hs HinL HidL HuniqL HinR HuniqR.
  set (lp := getAllPosts localeCompare dateValue toLowerCase Options.none (Some d)).
  assert (Hlp : List.find (has_id (id R)) lp = Some L).
  { apply find_unique.
    - apply sort_elem. exact HinL.
    - apply has_id_true. exact HidL.
    - intros q Hq Hidq. apply sort_elem in Hq. apply has_id_true in Hidq.
      apply HuniqL; assumption. }
  assert (Hget : getPostById (id R) (Some d) = Some L).
  { apply find_unique; [exact HinL|apply has_id_true; exact HidL|].
    intros q Hq Hidq. apply has_id_true in Hidq. apply HuniqL; assumption. }
  unfold syncWithSupabase. rewrite Hs. fold lp.
  set (m := merge_remote clock uuid 0 s lp remotePosts (Some d)).
  split.
  - intros Hgt Herr.
    assert (Hm : merge_error m = None).
    { destruct (merge_error m); [discriminate Herr|reflexivity]. }
    rewrite Hm. simpl.
    apply (merge_remote_reaches clock uuid s lp (id R) remotePosts 0 (Some d) R L L);
      auto.
  - intros Hgt.
    assert (Hquiet : quiet lp (id R) remotePosts).
    { intros r Hr Hidr. rewrite (HuniqR r Hr Hidr). exists L. auto. }
    pose proof (merge_remote_quiet clock uuid s lp (id R) remotePosts 0 (Some d) L
                  Hquiet Hget) as Hkeep.
    fold m in Hkeep.
    destruct (merge_error m) as [e|] eqn:Hm; simpl.
    + split; [exact Hkeep|]. exists []. split; [reflexivity|].
      intros call Hcall. inversion Hcall.
    + split; [exact Hkeep|]. eexists. split; [reflexivity|].
      intros call Hcall. unfold push_local in Hcall.
      apply list_elem_of_fmap in Hcall as (lpost & -> & Hlpost).
      apply list_elem_of_In, filter_In in Hlpost as [_ Hnone].
      exists (with_owner lpost owner). split; [reflexivity|]. simpl.
      intros Hidl. rewrite Hidl in Hnone.
      destruct (merge_seen_id clock uuid s lp remotePosts 0 (Some d) R Hm HinR)
        as (q & Hq & Hidq); [rewrite Hlp; discriminate|].
      fold m in Hq.
      destruct (List.find (has_id (id R)) (merge_seen m)) eqn:Hfind; [discriminate|].
      rewrite find_none_iff in Hfind. specialize (Hfind q Hq).
      apply has_id_false in Hfind. contradiction.
Qed.

End SyncCycle.

Lemma sync_reconciliation_witness :
  (currentUser signed_in = Some "user-1"%string /\
   stored_a ∈ Data.posts store_a /\
   remote_a_newer ∈ [remote_a_newer] /\
   Js.gt (updatedAt remote_a_newer) (updatedAt stored_a) = true /\
   cycle_error cycle_newer = None) /\
  exists k,
    getPostById (Some "id-1"%string) (cycle_storage cycle_newer)
    = Some (set_updatedAt remote_a_newer (clock_t3 k)).
Proof.
  assert (HinL : stored_a ∈ Data.posts store_a) by (apply list_elem_of_singleton; reflexivity).
  assert (HinR : remote_a_newer ∈ [remote_a_newer])
    by (apply list_elem_of_singleton; reflexivity).
  assert (HuniqL : forall q, q ∈ Data.posts store_a -> id q = id remote_a_newer ->
                             q = stored_a).
  { intros q Hq _. apply list_elem_of_singleton in Hq. exact Hq. }
  assert (HuniqR : forall q, q ∈ [remote_a_newer] -> id q = id remote_a_newer ->
                             q = remote_a_newer).
  { intros q Hq _. apply list_elem_of_singleton in Hq. exact Hq. }
  split; [repeat split; [exact HinL|exact HinR]|].
  exact (proj1 (sync_reconciliation sample_localeCompare sample_dateValue
                  sample_toLowerCase clock_t3 sample_uuid signed_in "user-1" []
                  [remote_a_newer] store_a stored_a remote_a_newer
                  eq_refl HinL eq_refl HuniqL HinR HuniqR)
               eq_refl eq_refl).
Defined.

(** C2 as stated fails: after a cycle that ran to its end with a newer
    remote post, the stored post is not equal to the remote post; its
    [updatedAt] is the time of the cycle. *)
Lemma sync_overwrite_restamps :
  Js.gt (updatedAt remote_a_newer) (updatedAt stored_a) = true /\
  cycle_error cycle_newer = None /\
  exists p,
    getPostById (Some "id-1"%string) (cycle_storage cycle_newer) = Some p /\
    p <> remote_a_newer /\ updatedAt p = Some t3.
Proof.
  split; [reflexivity|]. split; [reflexivity|].
  eexists. split; [reflexivity|]. split; [discriminate|reflexivity].
Qed.

(** * Further properties of the store *)

(** ** Mutations that fail, mutations that succeed *)

(** X1. updatePost for an id that no stored post has rejects with the
    not-found error, leaves localStorage as it was and queues nothing. *)
Theorem updatePost_missing (now : string) (post : Post) (sync : bool)
    (s : Session) (ls : Storage) :
  (forall p, p ∈ stored_posts ls -> id p <> id post) ->
  updatePost now post sync s ls = mkResult (Rejected NotFound) ls None.
Proof.
  intros H. apply getPostById_none in H.
  unfold updatePost. change (id (set_updatedAt post now)) with (id post).
  rewrite H. reflexivity.
Qed.

Lemma updatePost_missing_witness :
  (forall p, p ∈ stored_posts (Some store_a) -> id p <> id stored_b) /\
  updatePost t2 stored_b true signed_in (Some store_a)
  = mkResult (Rejected NotFound) (Some store_a) None.
Proof.
  assert (H : forall p, p ∈ stored_posts (Some store_a) -> id p <> id stored_b).
  { intros p Hin. apply list_elem_of_singleton in Hin. subst p. discriminate. }
  split; [exact H|].
  apply (updatePost_missing t2 stored_b true signed_in (Some store_a) H).
Defined.

(** X2. A mutation that does not succeed changes nothing: when addPost
    or updatePost rejects, or deletePost resolves with [false],
    localStorage is as before the call and no sync entry is queued. *)
Theorem failed_mutation_changes_nothing (now uuid : string) (post : Post)
    (i : option string) (sync : bool) (s : Session) (ls : Storage) :
  (forall e, outcome (addPost now uuid post sync s ls) = Rejected e ->
     storage (addPost now uuid post sync s ls) = ls /\
     queued (addPost now uuid post sync s ls) = None) /\
  (forall e, outcome (updatePost now post sync s ls) = Rejected e ->
     storage (updatePost now post sync s ls) = ls /\
     queued (updatePost now post sync s ls) = None) /\
  (outcome (deletePost i sync s ls) = Resolved false ->
     storage (deletePost i sync s ls) = ls /\
     queued (deletePost i sync s ls) = None).
Proof.
  split; [|split].
  - intros e. unfold addPost. destruct ls as [d|]; [|auto].
    destruct (0 <=? _); simpl; [auto|discriminate].
  - intros e. unfold updatePost, updatePost_resume.
    destruct (getPostById _ ls); [|auto].
    destruct ls as [d|]; [|auto].
    destruct (_ =? -1); simpl; [auto|discriminate].
  - unfold deletePost, deletePost_resume.
    destruct (getPostById i ls); [|auto].
    destruct ls as [d|]; [|auto].
    destruct (_ =? -1); simpl; [auto|discriminate].
Qed.

Lemma failed_mutation_changes_nothing_witness :
  outcome (addPost t2 "id-2" stored_a true signed_in (Some store_a))
    = Rejected DuplicateURL /\
  storage (addPost t2 "id-2" stored_a true signed_in (Some store_a)) = Some store_a /\
  queued (addPost t2 "id-2" stored_a true signed_in (Some store_a)) = None.
Proof.
  assert (H : outcome (addPost t2 "id-2" stored_a true signed_in (Some store_a))
              = Rejected DuplicateURL) by reflexivity.
  split; [exact H|].
  exact (proj1 (failed_mutation_changes_nothing t2 "id-2" stored_a None true
                  signed_in (Some store_a)) DuplicateURL H).
Defined.

(** X3. Mutations leave the other ids alone: addPost never changes what
    getPostById returns for an id that is already stored, and updatePost
    and deletePost never change what it returns for an id other than
    their own. *)
Theorem mutation_frame (now uuid : string) (post : Post) (j : option string)
    (sync : bool) (s : Session) (ls : Storage) (i : option string) :
  (forall p, getPostById i ls = Some p ->
     getPostById i (storage (addPost now uuid post sync s ls)) = Some p) /\
  (id post <> i ->
     getPostById i (storage (updatePost now post sync s ls)) = getPostById i ls) /\
  (j <> i ->
     getPostById i (storage (deletePost j sync s ls)) = getPostById i ls).
Proof.
  split; [|split].
  - intros p Hget. apply addPost_keeps_lookup. exact Hget.
  - apply updatePost_other_id.
  - apply deletePost_other_id.
Qed.

Lemma mutation_frame_witness :
  Some "id-2"%string <> Some "id-1"%string /\
  getPostById (Some "id-1"%string)
    (storage (deletePost (Some "id-2"%string) true offline (Some store_abc)))
  = getPostById (Some "id-1"%string) (Some store_abc).
Proof.
  assert (H : Some "id-2"%string <> Some "id-1"%string) by discriminate.
  split; [exact H|].
  exact (proj2 (proj2 (mutation_frame t1 "id-9" stored_a (Some "id-2"%string) true
                         offline (Some store_abc) (Some "id-1"%string))) H).
Defined.

Lemma filter_all {A} (f : A -> bool) (l : list A) :
  (forall x, x ∈ l -> f x = true) -> List.filter f l = l.
Proof.
  induction l as [|y l IH]; intros H; simpl; [reflexivity|].
  rewrite (H y) by left. f_equal. apply IH. intros x Hx. apply H. right. exact Hx.
Qed.

Lemma filter_nothing {A} (f : A -> bool) (l : list A) :
  (forall x, x ∈ l -> f x = false) -> List.filter f l = [].
Proof.
  induction l as [|y l IH]; intros H; simpl; [reflexivity|].
  rewrite (H y) by left. apply IH. intros x Hx. apply H. right. exact Hx.
Qed.

Lemma findIndex_app_fresh {A} (f : A -> bool) (l1 l2 : list A) (x : A) :
  List.find f l1 = None -> f x = true ->
  Js.findIndex f (l1 ++ x :: l2) = Z.of_nat (length l1).
Proof.
  intros Hnone Hx. induction l1 as [|y l1 IH]; simpl in *.
  - rewrite Hx. reflexivity.
  - destruct (f y); [discriminate|]. rewrite (IH Hnone).
    destruct (Z.ltb_spec (Z.of_nat (length l1)) 0); lia.
Qed.

(** X4. deletePost of a stored id, in a document whose ids are pairwise
    different, resolves with [true] and removes the post with that id
    and nothing else: the other posts stay, in their order, and the id
    is no longer found. *)
Theorem deletePost_removes (i : option string) (sync : bool) (s : Session)
    (d : Data.t) (p : Post) :
  NoDup (map id (Data.posts d)) ->
  getPostById i (Some d) = Some p ->
  outcome (deletePost i sync s (Some d)) = Resolved true /\
  stored_posts (storage (deletePost i sync s (Some d)))
  = List.filter (fun q => negb (has_id i q)) (Data.posts d) /\
  getPostById i (storage (deletePost i sync s (Some d))) = None.
Proof.
  intros Hnd Hget. unfold deletePost, deletePost_resume. rewrite Hget.
  simpl in Hget.
  destruct (find_split _ _ _ Hget) as (l1 & l2 & Hsplit & Hp & Hnone & Hlen).
  pose proof (findIndex_find_some _ _ _ Hget) as [Hge _].
  destruct (Z.eqb_spec (Js.findIndex (has_id i) (Data.posts d)) (-1)); [lia|].
  simpl.
  replace (Js.findIndex (has_id i) (Data.posts d))
    with (Z.of_nat (length l1)) by lia.
  rewrite Hsplit, splice1_middle.
  rewrite Hsplit, map_app in Hnd. simpl in Hnd.
  apply NoDup_app in Hnd as (_ & _ & Hnd2). apply NoDup_cons in Hnd2 as [Hnot _].
  apply has_id_true in Hp.
  assert (H1 : forall q, q ∈ l1 -> has_id i q = false)
    by (apply find_none_iff; exact Hnone).
  assert (H2 : forall q, q ∈ l2 -> has_id i q = false).
  { intros q Hq. apply has_id_false. intros Heq. apply Hnot.
    rewrite Hp, <- Heq. apply list_elem_of_fmap_2, Hq. }
  split; [reflexivity|]. split.
  - rewrite List.filter_app. simpl.
    replace (has_id i p) with true by (symmetry; apply has_id_true; exact Hp).
    simpl. rewrite !filter_all; [reflexivity| |];
      intros q Hq; apply negb_true_iff; auto.
  - rewrite find_none_iff. intros q Hq.
    apply elem_of_app in Hq as [Hq|Hq]; auto.
Qed.

Lemma deletePost_removes_witness :
  NoDup (map id (Data.posts store_abc)) /\
  getPostById (Some "id-2"%string) (Some store_abc) = Some stored_b /\
  stored_posts (storage (deletePost (Some "id-2"%string) true offline (Some store_abc)))
  = [stored_a; stored_c].
Proof.
  assert (Hnd : NoDup (map id (Data.posts store_abc))).
  { simpl. repeat constructor; intros Hin;
      repeat (apply elem_of_cons in Hin as [Hin|Hin]; [discriminate|]);
      inversion Hin. }
  assert (Hget : getPostById (Some "id-2"%string) (Some store_abc) = Some stored_b)
    by reflexivity.
  split; [exact Hnd|]. split; [exact Hget|].
  rewrite (proj1 (proj2 (deletePost_removes (Some "id-2"%string) true offline
                           store_abc stored_b Hnd Hget))).
  reflexivity.
Defined.

Lemma decrement_increment_tag (l : list Tag) (t : string) :
  Forall (fun r => 0 < count r) l ->
  decrement_tag (increment_tag l t) t = l.
Proof.
  induction l as [|r l IH]; intros Hpos.
  - rewrite increment_tag_nil, decrement_tag_cons.
    unfold has_name. simpl. rewrite String.eqb_refl. reflexivity.
  - apply Forall_cons in Hpos as [Hr Hpos].
    rewrite increment_tag_cons. destruct (has_name t r) eqn:Ht.
    + rewrite decrement_tag_cons. unfold has_name in *. simpl. rewrite Ht.
      replace (Z.max 0 (count r + 1 - 1)) with (count r) by lia.
      destruct (Z.eqb_spec (count r) 0); [lia|]. destruct r; reflexivity.
    + rewrite decrement_tag_cons, Ht, IH by exact Hpos. reflexivity.
Qed.

Lemma decrement_increment_commute (l : list Tag) (t a : string) :
  t <> a ->
  decrement_tag (increment_tag l t) a = increment_tag (decrement_tag l a) t.
Proof.
  intros Hne. induction l as [|r l IH].
  - rewrite increment_tag_nil, decrement_tag_nil, increment_tag_nil, decrement_tag_cons.
    unfold has_name. simpl.
    destruct (String.eqb_spec t a); [contradiction|]. reflexivity.
  - rewrite increment_tag_cons, (decrement_tag_cons r l a).
    destruct (has_name t r) eqn:Ht, (has_name a r) eqn:Ha.
    + apply has_name_true in Ht, Ha. congruence.
    + rewrite decrement_tag_cons, increment_tag_cons. unfold has_name in *. simpl.
      rewrite Ha, Ht. reflexivity.
    + rewrite decrement_tag_cons, Ha.
      destruct (Z.max 0 (count r - 1) =? 0); [reflexivity|].
      rewrite increment_tag_cons. unfold has_name in *. simpl. rewrite Ht. reflexivity.
    + rewrite decrement_tag_cons, Ha, increment_tag_cons, Ht, IH. reflexivity.
Qed.

Lemma decrement_increment_tags_commute (ts : list string) (l : list Tag) (a : string) :
  a ∉ ts ->
  decrement_tag (increment_tags l ts) a = increment_tags (decrement_tag l a) ts.
Proof.
  revert l. induction ts as [|t ts IH]; intros l Hnot; [reflexivity|].
  apply not_elem_of_cons in Hnot as [Hne Hnot].
  change (increment_tags l (t :: ts)) with (increment_tags (increment_tag l t) ts).
  rewrite IH by exact Hnot.
  rewrite decrement_increment_commute by congruence. reflexivity.
Qed.

Lemma decrement_increment_tags (ts : list string) (l : list Tag) :
  Forall (fun r => 0 < count r) l ->
  NoDup ts ->
  decrement_tags (increment_tags l ts) ts = l.
Proof.
  revert l. induction ts as [|a ts IH]; intros l Hpos Hnd; [reflexivity|].
  apply NoDup_cons in Hnd as [Hnot Hnd].
  change (increment_tags l (a :: ts)) with (increment_tags (increment_tag l a) ts).
  change (decrement_tags (increment_tags (increment_tag l a) ts) (a :: ts))
    with (decrement_tags (decrement_tag (increment_tags (increment_tag l a) ts) a) ts).
  rewrite decrement_increment_tags_commute by exact Hnot.
  rewrite decrement_increment_tag by exact Hpos.
  apply IH; assumption.
Qed.

(** X5. Adding a post and deleting it again restores the document. When
    no tag record has a count below one, the post names no tag twice, no
    stored post has its url and none has the id it is stored under,
    addPost followed by deletePost of that id leaves localStorage
    exactly as it was: same posts, same tag records, same settings. *)
Theorem add_then_delete_restores (now uuid : string) (post : Post)
    (sync sync' : bool) (s : Session) (d : Data.t) :
  Forall (fun r => 0 < count r) (Data.tags d) ->
  NoDup (tags_or_empty post) ->
  (forall q, q ∈ Data.posts d -> url q <> url post) ->
  (forall q, q ∈ Data.posts d -> id q <> id (stamp now uuid post)) ->
  storage (deletePost (id (stamp now uuid post)) sync' s
             (storage (addPost now uuid post sync s (Some d))))
  = Some d.
Proof.
  intros Hpos Hnd Hurl Hid.
  set (st := stamp now uuid post).
  assert (Hfresh : List.find (has_id (id st)) (Data.posts d) = None).
  { apply find_none_iff. intros q Hq. apply has_id_false. apply Hid. exact Hq. }
  unfold addPost. fold st. change (url st) with (url post).
  destruct (Z.leb_spec 0 (Js.findIndex (has_url (url post)) (Data.posts d)))
    as [Hfound|_].
  - exfalso.
    destruct (List.find (has_url (url post)) (Data.posts d)) as [q|] eqn:Hq.
    + apply find_some in Hq as [Hin Hq]. apply String.eqb_eq in Hq.
      apply (Hurl q); [apply list_elem_of_In; exact Hin|exact Hq].
    + apply findIndex_find_none in Hq. lia.
  - assert (Hst : has_id (id st) st = true) by (apply has_id_true; reflexivity).
    assert (Hfind : List.find (has_id (id st)) (Data.posts d ++ [st]) = Some st).
    { rewrite find_app_none by exact Hfresh. cbn [List.find]. rewrite Hst. reflexivity. }
    assert (Hidx : Js.findIndex (has_id (id st)) (Data.posts d ++ [st])
                   = Z.of_nat (length (Data.posts d)))
      by (apply findIndex_app_fresh; assumption).
    cbn [storage]. unfold deletePost, deletePost_resume, getPostById.
    cbn [Data.posts Data.tags Data.settings]. rewrite Hfind, Hidx.
    destruct (Z.eqb_spec (Z.of_nat (length (Data.posts d))) (-1)); [lia|].
    cbn [storage]. rewrite splice1_middle, app_nil_r.
    change (tags_or_empty st) with (tags_or_empty post).
    rewrite decrement_increment_tags by assumption.
    destruct d; reflexivity.
Qed.

Lemma add_then_delete_restores_witness :
  storage (deletePost (Some "id-9"%string) true offline
             (storage (addPost t3 "id-9" post_news_x true offline (Some store_abc))))
  = Some store_abc.
Proof.
  apply (add_then_delete_restores t3 "id-9" post_news_x true true offline store_abc).
  - repeat constructor.
  - repeat constructor; intros Hin;
      repeat (apply elem_of_cons in Hin as [Hin|Hin]; [discriminate|]);
      inversion Hin.
  - intros q Hq. simpl in Hq.
    repeat (apply elem_of_cons in Hq as [->|Hq]; [discriminate|]). inversion Hq.
  - intros q Hq. simpl in Hq.
    repeat (apply elem_of_cons in Hq as [->|Hq]; [discriminate|]). inversion Hq.
Defined.

(** X6. updatePost never changes which ids are stored, nor their order:
    the array of ids is the same after the call, whether it succeeds or
    not. *)
Theorem updatePost_keeps_ids (now : string) (post : Post) (sync : bool)
    (s : Session) (ls : Storage) :
  map id (stored_posts (storage (updatePost now post sync s ls)))
  = map id (stored_posts ls).
Proof.
  unfold updatePost, updatePost_resume.
  change (id (set_updatedAt post now)) with (id post).
  destruct (getPostById (id post) ls) as [existing|] eqn:Hget; [|reflexivity].
  destruct ls as [d|]; [|reflexivity]. simpl in Hget.
  destruct (find_split _ _ _ Hget) as (l1 & l2 & Hsplit & Hex & _ & Hlen).
  pose proof (findIndex_find_some _ _ _ Hget) as [Hge _].
  destruct (Z.eqb_spec (Js.findIndex (has_id (id post)) (Data.posts d)) (-1)); [lia|].
  cbn [storage stored_posts Data.posts].
  replace (Js.findIndex (has_id (id post)) (Data.posts d))
    with (Z.of_nat (length l1)) by lia.
  rewrite Hsplit, set_at_middle, !map_app. simpl.
  apply has_id_true in Hex. rewrite Hex. reflexivity.
Qed.

(** X7. An updatePost that keeps the set of tags of the stored post
    leaves the tag records exactly as they were. *)
Theorem updatePost_same_tags (now : string) (post : Post) (sync : bool)
    (s : Session) (ls : Storage) (existing : Post) :
  getPostById (id post) ls = Some existing ->
  (forall t, t ∈ tags_or_empty post <-> t ∈ tags_or_empty existing) ->
  getAllTags (storage (updatePost now post sync s ls)) = getAllTags ls.
Proof.
  intros Hget Hsame. unfold updatePost, updatePost_resume.
  change (id (set_updatedAt post now)) with (id post). rewrite Hget.
  destruct ls as [d|]; [|reflexivity].
  destruct (_ =? -1); [reflexivity|].
  cbn [storage getAllTags Data.tags].
  change (tags_or_empty (set_updatedAt post now)) with (tags_or_empty post).
  unfold tagsToAdd, tagsToRemove.
  rewrite !filter_nothing; [reflexivity| |].
  - intros t Ht. apply negb_false_iff, includes_true, Hsame, Ht.
  - intros t Ht. apply negb_false_iff, includes_true, Hsame, Ht.
Qed.

Lemma updatePost_same_tags_witness :
  getPostById (id redated_a) (Some store_a) = Some stored_a /\
  getAllTags (storage (updatePost t3 redated_a true offline (Some store_a)))
  = getAllTags (Some store_a).
Proof.
  assert (Hget : getPostById (id redated_a) (Some store_a) = Some stored_a)
    by reflexivity.
  split; [exact Hget|].
  apply (updatePost_same_tags t3 redated_a true offline (Some store_a) stored_a Hget).
  intros t. reflexivity.
Defined.

Lemma addPost_urls (now uuid : string) (post : Post) (sync : bool) (s : Session)
    (ls : Storage) :
  NoDup (map url (stored_posts ls)) ->
  NoDup (map url (stored_posts (storage (addPost now uuid post sync s ls)))).
Proof.
  intros Hnd. unfold addPost. destruct ls as [d|]; [|exact Hnd].
  change (url (stamp now uuid post)) with (url post).
  destruct (Z.leb_spec 0 (Js.findIndex (has_url (url post)) (Data.posts d)))
    as [_|Hlt]; [exact Hnd|].
  cbn [storage stored_posts Data.posts]. rewrite map_app. simpl.
  apply NoDup_app. split; [exact Hnd|]. split; [|apply NoDup_singleton].
  intros u Hu Hu'. apply list_elem_of_singleton in Hu'. subst u.
  apply list_elem_of_fmap in Hu as (q & Hq & Hin).
  apply findIndex_find_none in Hlt. rewrite find_none_iff in Hlt.
  specialize (Hlt q Hin). unfold has_url in Hlt.
  rewrite <- Hq, String.eqb_refl in Hlt. discriminate.
Qed.

Lemma deletePost_urls (i : option string) (sync : bool) (s : Session) (ls : Storage) :
  NoDup (map url (stored_posts ls)) ->
  NoDup (map url (stored_posts (storage (deletePost i sync s ls)))).
Proof.
  intros Hnd. unfold deletePost, deletePost_resume.
  destruct (getPostById i ls) as [p|]; [|exact Hnd].
  destruct ls as [d|]; [|exact Hnd].
  destruct (_ =? -1); [exact Hnd|].
  cbn [storage stored_posts Data.posts]. unfold Js.splice1.
  match goal with
  | |- NoDup (map url (delete ?n ?l)) => change (NoDup (url <$> delete n l))
  end.
  rewrite list_fmap_delete.
  eapply sublist_NoDup; [exact Hnd|apply sublist_delete].
Qed.

(** X8. The urls of the stored posts stay pairwise different under any
    sequence of addPost and deletePost calls: addPost refuses a url that
    is already stored, and deletePost only removes. *)
Theorem urls_stay_unique (s : Session) (ops : list Op) (ls : Storage) :
  NoDup (map url (stored_posts ls)) ->
  Forall add_or_delete ops ->
  NoDup (map url (stored_posts (run_ops s ops ls))).
Proof.
  revert ls. induction ops as [|op ops IH]; intros ls Hnd Hops; [exact Hnd|].
  apply Forall_cons in Hops as [Hop Hops].
  unfold run_ops. simpl. apply IH; [|exact Hops].
  destruct op; simpl in *; [apply addPost_urls|contradiction|apply deletePost_urls];
    exact Hnd.
Qed.

Lemma urls_stay_unique_witness :
  NoDup (map url (stored_posts
    (run_ops offline [OpAddPost t2 "id-2" stored_a true;
                      OpAddPost t2 "id-2" stored_b true;
                      OpDeletePost (Some "id-1"%string) true]
             (Some store_a)))).
Proof.
  apply (urls_stay_unique offline _ (Some store_a)).
  - simpl. repeat constructor. intros Hin. inversion Hin.
  - repeat constructor.
Defined.

Lemma posts_with_tag_positive (posts : list Post) (t : string) :
  0 < posts_with_tag posts t <-> exists p, p ∈ posts /\ t ∈ tags_or_empty p.
Proof.
  unfold posts_with_tag. split.
  - intros Hpos.
    destruct (List.filter (holds_tag t) posts) as [|p rest] eqn:Hf; [simpl in Hpos; lia|].
    assert (Hin : In p (List.filter (holds_tag t) posts)) by (rewrite Hf; left; reflexivity).
    apply filter_In in Hin as [Hin Hp]. exists p. split.
    + apply list_elem_of_In. exact Hin.
    + apply includes_true. exact Hp.
  - intros (p & Hin & Ht).
    assert (Hf : In p (List.filter (holds_tag t) posts)).
    { apply filter_In. split; [apply list_elem_of_In; exact Hin|].
      apply includes_true. exact Ht. }
    destruct (List.filter (holds_tag t) posts); [inversion Hf|simpl; lia].
Qed.

(** X9. The tag collection lists exactly the tags in use. After any
    sequence of addPost, updatePost and deletePost calls from the empty
    document, with posts that name no tag twice, getAllTags has one
    record per name, and a name has a record if and only if some stored
    post carries that tag. *)
Theorem tags_in_use (s : Session) (ops : list Op) :
  Forall duplicate_free_tags ops ->
  exists d,
    run_ops s ops (Some Data.empty) = Some d /\
    NoDup (map name (getAllTags (Some d))) /\
    forall t, t ∈ map name (getAllTags (Some d)) <->
              exists p, p ∈ Data.posts d /\ t ∈ tags_or_empty p.
Proof.
  intros Hops.
  destruct (run_ops_consistent s ops Data.empty consistent_empty Hops)
    as (d & Hrun & [Hnd Hpos] & _ & Hcount).
  exists d. split; [exact Hrun|]. split; [exact Hnd|].
  intros t. rewrite <- posts_with_tag_positive, <- Hcount. simpl. split.
  - intros Hin. apply list_elem_of_fmap in Hin as (r & -> & Hr).
    rewrite tag_count_member by assumption.
    rewrite Forall_forall in Hpos. apply Hpos, Hr.
  - intros Hc. unfold tag_count in Hc.
    destruct (List.find (has_name t) (Data.tags d)) as [r|] eqn:Hfind; [|lia].
    apply find_some in Hfind as [Hin Hr]. apply has_name_true in Hr.
    rewrite <- Hr. apply list_elem_of_fmap_2, list_elem_of_In, Hin.
Qed.

Lemma tags_in_use_witness :
  exists d,
    run_ops offline (take 2 scenario) (Some Data.empty) = Some d /\
    NoDup (map name (getAllTags (Some d))) /\
    forall t, t ∈ map name (getAllTags (Some d)) <->
              exists p, p ∈ Data.posts d /\ t ∈ tags_or_empty p.
Proof.
  apply (tags_in_use offline (take 2 scenario)).
  repeat constructor; simpl; intros Hin;
    repeat (apply elem_of_cons in Hin as [Hin|Hin]; [discriminate|]);
    inversion Hin.
Defined.

(** ** Settings *)

Lemma assoc_get_set (key value : string) (l : list (string * string)) (k : string) :
  assoc_get k (assoc_set key value l)
  = if String.eqb key k then Some value else assoc_get k l.
Proof.
  unfold assoc_get. induction l as [|[k0 v0] l IH]; simpl.
  - rewrite (String.eqb_sym key k). destruct (String.eqb k key); reflexivity.
  - destruct (String.eqb_spec k0 key) as [->|Hne]; simpl.
    + rewrite (String.eqb_sym key k). destruct (String.eqb k key); reflexivity.
    + destruct (String.eqb_spec k0 k) as [->|Hne'].
      * destruct (String.eqb_spec key k); [congruence|reflexivity].
      * exact IH.
Qed.



(** * Further properties of the queries *)

Lemma append_cons (c : Ascii.ascii) (t b : string) :
  String.append (String c t) b = String c (String.append t b).
Proof. reflexivity. Qed.

Lemma append_empty (b : string) : String.append EmptyString b = b.
Proof. reflexivity. Qed.

Lemma prefix_occurs (t s : string) :
  String.prefix t s = true <-> exists b, s = String.append t b.
Proof.
  revert s. induction t as [|c t IH]; intros s.
  - split; [intros _; exists s; reflexivity|intros _; destruct s; reflexivity].
  - destruct s as [|c' s]; simpl;
      [split; [discriminate|intros [b Hb]; rewrite append_cons in Hb; discriminate]|].
    destruct (Ascii.ascii_dec c c') as [->|Hne].
    + rewrite IH. split; intros [b Hb]; exists b; rewrite append_cons in *; congruence.
    + split; [discriminate|]. intros [b Hb]. rewrite append_cons in Hb. congruence.
Qed.

(** The substring test finds exactly the occurrences. *)
Lemma str_includes_occurs (s t : string) :
  Js.str_includes s t = true <-> occurs t s.
Proof.
  induction s as [|c s IH].
  - change (Js.str_includes EmptyString t)
      with (if String.prefix t EmptyString then true else false).
    destruct (String.prefix t EmptyString) eqn:Hp.
    + split; [|reflexivity]. intros _. apply prefix_occurs in Hp as [b Hb].
      exists EmptyString, b. rewrite append_empty. exact Hb.
    + split; [discriminate|]. intros (a & b & Hab).
      destruct a; [|rewrite append_cons in Hab; discriminate].
      rewrite append_empty in Hab.
      assert (String.prefix t EmptyString = true)
        by (apply prefix_occurs; exists b; exact Hab).
      congruence.
  - change (Js.str_includes (String c s) t)
      with (if String.prefix t (String c s) then true else Js.str_includes s t).
    destruct (String.prefix t (String c s)) eqn:Hp.
    + split; [|reflexivity]. intros _. apply prefix_occurs in Hp as [b Hb].
      exists EmptyString, b. rewrite append_empty. exact Hb.
    + rewrite IH. split.
      * intros (a & b & ->). exists (String c a), b. reflexivity.
      * intros (a & b & Hab). destruct a as [|c' a].
        -- rewrite append_empty in Hab.
           assert (String.prefix t (String c s) = true)
             by (apply prefix_occurs; exists b; exact Hab).
           congruence.
        -- rewrite append_cons in Hab. injection Hab as _ ->. exists a, b. reflexivity.
Qed.

Lemma paginate_no_limit (o : Options.t) (l : list Post) :
  Options.limit o = None \/ Options.limit o = Some 0 -> paginate o l = l.
Proof. unfold paginate. intros [-> | ->]; reflexivity. Qed.

Lemma optional_filter_elem {A B} (c : option B) (g : B -> bool)
    (f : B -> A -> bool) (l : list A) (p : A) :
  p ∈ match c with
      | Some x => if g x then List.filter (f x) l else l
      | None => l
      end
  <-> p ∈ l /\ (forall x, c = Some x -> g x = true -> f x p = true).
Proof.
  destruct c as [x|].
  - destruct (g x) eqn:Hg.
    + rewrite list_elem_of_In, filter_In, <- list_elem_of_In. split.
      * intros [Hin Hf]. split; [exact Hin|]. intros y [= <-] _. exact Hf.
      * intros [Hin H]. split; [exact Hin|]. apply H; auto.
    + split; [|tauto]. intros Hin. split; [exact Hin|].
      intros y [= <-] Hy. congruence.
  - split; [|tauto]. intros Hin. split; [exact Hin|]. discriminate.
Qed.

Section QueryMeaning.

Variable localeCompare : string -> string -> Z.
Variable dateValue : string -> option Z.
Variable toLowerCase : string -> string.

Local Abbreviation getAllPosts'' := (getAllPosts localeCompare dateValue toLowerCase).

Lemma matches_tags_all (ts : list string) (p : Post) :
  matches_tags ts p = true <-> forall t, t ∈ ts -> t ∈ tags_or_empty p.
Proof.
  unfold matches_tags. rewrite forallb_forall. split.
  - intros H t Ht. apply list_elem_of_In in Ht. specialize (H t Ht).
    apply includes_true. unfold tags_or_empty. destruct (tags p); [exact H|discriminate].
  - intros H t Ht. apply list_elem_of_In in Ht. specialize (H t Ht).
    apply includes_true in H. unfold tags_or_empty in H.
    destruct (tags p); [exact H|discriminate].
Qed.

Lemma field_matches_hit (term : string) (v : option string) :
  field_matches toLowerCase term v = true <->
  exists x, v = Some x /\ x <> EmptyString /\ occurs term (toLowerCase x).
Proof.
  unfold field_matches. destruct v as [x|].
  - rewrite andb_true_iff, negb_true_iff, String.eqb_neq, str_includes_occurs. split.
    + intros [Hne Hocc]. exists x. auto.
    + intros (y & [= <-] & Hne & Hocc). auto.
  - split; [discriminate|]. intros (x & Hx & _). discriminate.
Qed.

Lemma matches_search_hit (term : string) (p : Post) :
  matches_search toLowerCase term p = true <-> search_hit toLowerCase term p.
Proof.
  unfold matches_search, search_hit.
  rewrite !orb_true_iff, str_includes_occurs, !field_matches_hit.
  assert (Htags : match tags p with
                  | Some ts => existsb (fun tag => Js.str_includes (toLowerCase tag) term) ts
                  | None => false
                  end = true
                  <-> exists tag, tag ∈ tags_or_empty p /\ occurs term (toLowerCase tag)).
  { unfold tags_or_empty. destruct (tags p) as [ts|].
    - rewrite existsb_exists. split; intros (tag & Hin & H); exists tag;
        (split; [apply list_elem_of_In; exact Hin|apply str_includes_occurs; exact H]).
    - split; [discriminate|]. intros (tag & Hin & _). inversion Hin. }
  rewrite Htags. tauto.
Qed.

Lemma apply_filters_elem (o : Options.t) (posts : list Post) (p : Post) :
  p ∈ apply_filters toLowerCase o posts <->
  p ∈ posts /\
  (forall ts t, Options.filterTags o = Some ts -> t ∈ ts -> t ∈ tags_or_empty p) /\
  (forall pf, Options.platform o = Some pf -> pf <> EmptyString -> platform p = pf) /\
  (forall st, Options.searchTerm o = Some st -> st <> EmptyString ->
              search_hit toLowerCase (toLowerCase st) p).
Proof.
  unfold apply_filters.
  rewrite (optional_filter_elem (Options.searchTerm o) (fun st => Js.truthy (Some st))
             (fun st => matches_search toLowerCase (toLowerCase st))).
  rewrite (optional_filter_elem (Options.platform o) (fun pf => Js.truthy (Some pf))
             (fun pf post => String.eqb (platform post) pf)).
  assert (Htags : forall l,
    p ∈ match Options.filterTags o with
        | Some (t :: ts) => List.filter (matches_tags (t :: ts)) l
        | _ => l
        end
    <-> p ∈ l /\
        (forall ts t, Options.filterTags o = Some ts -> t ∈ ts -> t ∈ tags_or_empty p)).
  { intros l. destruct (Options.filterTags o) as [[|t ts]|].
    - split; [|tauto]. intros Hin. split; [exact Hin|].
      intros ts t [= <-] Ht. inversion Ht.
    - rewrite list_elem_of_In, filter_In, <- list_elem_of_In, matches_tags_all. split.
      + intros [Hin H]. split; [exact Hin|]. intros ts' t' [= <-]. apply H.
      + intros [Hin H]. split; [exact Hin|]. intros t' Ht'. eapply H; eauto.
    - split; [|tauto]. intros Hin. split; [exact Hin|]. discriminate. }
  rewrite Htags. simpl. split.
  - intros [[[Hin Ht] Hp] Hs]. repeat split; auto.
    + intros pf Hpf Hne. apply String.eqb_eq. apply (Hp pf Hpf).
      apply negb_true_iff, String.eqb_neq. exact Hne.
    + intros st Hst Hne. apply matches_search_hit. apply (Hs st Hst).
      apply negb_true_iff, String.eqb_neq. exact Hne.
  - intros (Hin & Ht & Hp & Hs). repeat split; auto.
    + intros pf Hpf Htr. apply String.eqb_eq. apply (Hp pf Hpf).
      apply negb_true_iff, String.eqb_neq in Htr. exact Htr.
    + intros st Hst Htr. apply matches_search_hit. apply (Hs st Hst).
      apply negb_true_iff, String.eqb_neq in Htr. exact Htr.
Qed.

(** X11. What getAllPosts returns without a limit. A post is returned if
    and only if it is stored and passes every filter that is set: it
    carries all the tags of [filterTags], its platform is the one asked
    for, and the lower-cased search term occurs in its url, title,
    description or one of its tags. An empty [filterTags], platform or
    search term filters nothing. *)
Theorem getAllPosts_membership (o : Options.t) (d : Data.t) (p : Post) :
  Options.limit o = None \/ Options.limit o = Some 0 ->
  p ∈ getAllPosts'' o (Some d) <->
  p ∈ Data.posts d /\
  (forall ts t, Options.filterTags o = Some ts -> t ∈ ts -> t ∈ tags_or_empty p) /\
  (forall pf, Options.platform o = Some pf -> pf <> EmptyString -> platform p = pf) /\
  (forall st, Options.searchTerm o = Some st -> st <> EmptyString ->
              search_hit toLowerCase (toLowerCase st) p).
Proof.
  intros Hlim. unfold getAllPosts, query.
  rewrite paginate_no_limit by exact Hlim.
  rewrite sort_elem. apply apply_filters_elem.
Qed.

End QueryMeaning.

Lemma getAllPosts_membership_witness :
  stored_b ∈ getAllPosts sample_localeCompare sample_dateValue sample_toLowerCase
               (Options.mk None None None None (Some ["x"]%string) None None)
               (Some store_abc).
Proof.
  apply (getAllPosts_membership sample_localeCompare sample_dateValue
           sample_toLowerCase
           (Options.mk None None None None (Some ["x"]%string) None None)
           store_abc stored_b (or_introl eq_refl)).
  split; [right; left|]. split; [|split; intros; discriminate].
  intros ts t [= <-] Ht. exact Ht.
Defined.

(** ** Order of the result *)

Lemma insert_sorted_Permutation {A} (cmp : A -> A -> Z) (x : A) (l : list A) :
  Js.insert_sorted cmp x l ≡ₚ x :: l.
Proof.
  induction l as [|y l IH]; simpl; [reflexivity|].
  destruct (cmp x y <=? 0); [reflexivity|].
  rewrite IH. apply perm_swap.
Qed.

Lemma sort_Permutation {A} (cmp : A -> A -> Z) (l : list A) :
  Js.sort cmp l ≡ₚ l.
Proof.
  unfold Js.sort. induction l as [|x l IH]; simpl; [reflexivity|].
  rewrite insert_sorted_Permutation, IH. reflexivity.
Qed.

Lemma insert_sorted_StronglySorted {A} (cmp : A -> A -> Z) (R : relation A)
    (x : A) (l : list A) :
  (forall a b c, R a b -> R b c -> R a c) ->
  (forall b, b ∈ l -> cmp x b <= 0 -> R x b) ->
  (forall b, b ∈ l -> ~ cmp x b <= 0 -> R b x) ->
  StronglySorted R l ->
  StronglySorted R (Js.insert_sorted cmp x l).
Proof.
  intros Htrans. induction l as [|y l IH]; intros Hle Hgt Hs; simpl.
  - repeat constructor.
  - apply StronglySorted_inv in Hs as [Hs Hy].
    destruct (Z.leb_spec (cmp x y) 0) as [Hxy|Hxy].
    + constructor; [constructor; assumption|].
      assert (Rxy : R x y) by (apply Hle; [left|exact Hxy]).
      constructor; [exact Rxy|].
      rewrite List.Forall_forall in *. intros z Hz. eapply Htrans; eauto.
    + constructor.
      * apply IH; [| |exact Hs].
        -- intros b Hb. apply Hle. right. exact Hb.
        -- intros b Hb. apply Hgt. right. exact Hb.
      * rewrite List.Forall_forall in *. intros z Hz.
        apply list_elem_of_In, insert_sorted_elem in Hz as [->|Hz].
        -- apply Hgt; [left|lia].
        -- apply Hy, list_elem_of_In, Hz.
Qed.

Lemma sort_StronglySorted {A} (cmp : A -> A -> Z) (R : relation A) (l : list A) :
  (forall a b c, R a b -> R b c -> R a c) ->
  (forall a b, a ∈ l -> b ∈ l -> cmp a b <= 0 -> R a b) ->
  (forall a b, a ∈ l -> b ∈ l -> ~ cmp a b <= 0 -> R b a) ->
  StronglySorted R (Js.sort cmp l).
Proof.
  intros Htrans. unfold Js.sort. induction l as [|x l IH]; intros Hle Hgt; simpl.
  - constructor.
  - apply insert_sorted_StronglySorted; [exact Htrans| | |].
    + intros b Hb. apply sort_elem in Hb. apply Hle; [left|right; exact Hb].
    + intros b Hb. apply sort_elem in Hb. apply Hgt; [left|right; exact Hb].
    + apply IH.
      * intros a b Ha Hb. apply Hle; right; assumption.
      * intros a b Ha Hb. apply Hgt; right; assumption.
Qed.

Lemma insert_sorted_filter {A} (cmp : A -> A -> Z) (f : A -> bool) (x : A)
    (l : list A) :
  (forall y, f x = true -> f y = true -> cmp x y <= 0) ->
  List.filter f (Js.insert_sorted cmp x l) = List.filter f (x :: l).
Proof.
  intros Hsame. induction l as [|y l IH]; [reflexivity|].
  cbn [Js.insert_sorted]. destruct (Z.leb_spec (cmp x y) 0) as [Hxy|Hxy]; [reflexivity|].
  cbn [List.filter] in *. rewrite IH.
  destruct (f x) eqn:Hx, (f y) eqn:Hy; try reflexivity.
  specialize (Hsame y eq_refl Hy). lia.
Qed.

Lemma sort_filter {A} (cmp : A -> A -> Z) (f : A -> bool) (l : list A) :
  (forall x y, f x = true -> f y = true -> cmp x y <= 0) ->
  List.filter f (Js.sort cmp l) = List.filter f l.
Proof.
  intros Hsame. unfold Js.sort. induction l as [|x l IH]; [reflexivity|].
  cbn [foldr]. rewrite insert_sorted_filter by (apply Hsame).
  cbn [List.filter]. rewrite IH. reflexivity.
Qed.

Lemma slice_sublist {A} (l : list A) (a b : Z) : Js.slice l a b `sublist_of` l.
Proof.
  unfold Js.slice. etransitivity; [apply sublist_take|apply sublist_drop].
Qed.

Lemma slice_length {A} (l : list A) (a n : Z) :
  0 < n -> Z.of_nat (length (Js.slice l a (a + n))) <= n.
Proof.
  intros Hn. unfold Js.slice. rewrite length_take.
  set (len := Z.of_nat (length l)).
  assert (Hb : Z.max (Js.clamp len (a + n) - Js.clamp len a) 0 <= n).
  { unfold Js.clamp.
    destruct (Z.ltb_spec (a + n) 0), (Z.ltb_spec a 0); lia. }
  lia.
Qed.

Section QueryOrder.

Variable localeCompare : string -> string -> Z.
Variable dateValue : string -> option Z.
Variable toLowerCase : string -> string.

Local Abbreviation getAllPosts3 := (getAllPosts localeCompare dateValue toLowerCase).
Local Abbreviation comparator3 := (comparator localeCompare dateValue).

(** X12. Sorting neither drops nor repeats a post: without a limit the
    result of getAllPosts is a rearrangement of the stored posts that
    pass the filters, and with no filter set it is a rearrangement of
    all stored posts. *)
Theorem getAllPosts_permutation (o : Options.t) (d : Data.t) :
  Options.limit o = None \/ Options.limit o = Some 0 ->
  getAllPosts3 o (Some d) ≡ₚ apply_filters toLowerCase o (Data.posts d) /\
  (Options.filterTags o = None -> Options.platform o = None ->
   Options.searchTerm o = None ->
   getAllPosts3 o (Some d) ≡ₚ Data.posts d).
Proof.
  intros Hlim. unfold getAllPosts, query.
  rewrite paginate_no_limit by exact Hlim. split.
  - apply sort_Permutation.
  - intros Ht Hp Hs. rewrite sort_Permutation.
    unfold apply_filters. rewrite Ht, Hp, Hs. reflexivity.
Qed.

Lemma comparator_by_date (o : Options.t) (a b : Post) (x y : Z) :
  Options.sortBy o <> Some "platform"%string ->
  date_key dateValue a = Some x ->
  date_key dateValue b = Some y ->
  comparator3 o a b = (x - y) * direction o.
Proof.
  intros Hsort Ha Hb. unfold comparator.
  apply strict_eq_false in Hsort. rewrite Hsort.
  unfold date_difference, date_key in *.
  destruct (dateAdded a) as [da|]; [|discriminate].
  destruct (dateAdded b) as [db|]; [|discriminate].
  rewrite Ha, Hb. reflexivity.
Qed.

(** X13. Order by date. When the sort is not by platform and every
    stored post has a [dateAdded] that parses as a date, the result of
    getAllPosts is ordered by time value: ascending for ['asc'], and
    descending (newest first) for any other [sortOrder], also when it is
    left out. This holds for every page as well. *)
Theorem getAllPosts_ordered_by_date (o : Options.t) (ls : Storage) :
  Options.sortBy o <> Some "platform"%string ->
  (forall p, p ∈ stored_posts ls -> exists v, date_key dateValue p = Some v) ->
  StronglySorted (date_ordered dateValue o) (getAllPosts3 o ls).
Proof.
  intros Hsort Hvalid. destruct ls as [d|]; [|constructor]. simpl in Hvalid.
  unfold getAllPosts, query.
  assert (Hsorted : StronglySorted (date_ordered dateValue o)
                      (Js.sort (comparator3 o) (apply_filters toLowerCase o (Data.posts d)))).
  { apply sort_StronglySorted.
    - intros a b c (x & y & Ha & Hb & Hxy) (y' & z & Hb' & Hc & Hyz).
      exists x, z. rewrite Hb in Hb'. injection Hb' as <-.
      split; [exact Ha|]. split; [exact Hc|].
      destruct (Js.strict_eq (Options.sortOrder o) (Some "asc"%string)); lia.
    - intros a b Ha Hb Hcmp.
      apply (apply_filters_elem localeCompare dateValue) in Ha as [Ha _].
      apply (apply_filters_elem localeCompare dateValue) in Hb as [Hb _].
      destruct (Hvalid a Ha) as [x Hx]. destruct (Hvalid b Hb) as [y Hy].
      exists x, y. split; [exact Hx|]. split; [exact Hy|].
      rewrite (comparator_by_date o a b x y Hsort Hx Hy) in Hcmp.
      unfold direction in Hcmp.
      destruct (Js.strict_eq (Options.sortOrder o) (Some "asc"%string)); lia.
    - intros a b Ha Hb Hcmp.
      apply (apply_filters_elem localeCompare dateValue) in Ha as [Ha _].
      apply (apply_filters_elem localeCompare dateValue) in Hb as [Hb _].
      destruct (Hvalid a Ha) as [x Hx]. destruct (Hvalid b Hb) as [y Hy].
      exists y, x. split; [exact Hy|]. split; [exact Hx|].
      rewrite (comparator_by_date o a b x y Hsort Hx Hy) in Hcmp.
      unfold direction in Hcmp.
      destruct (Js.strict_eq (Options.sortOrder o) (Some "asc"%string)); lia. }
  unfold paginate. destruct (Options.limit o) as [lim|]; [|exact Hsorted].
  destruct (lim =? 0); [exact Hsorted|].
  unfold Js.slice.
  set (sorted := Js.sort (comparator3 o) (apply_filters toLowerCase o (Data.posts d))) in *.
  match goal with
  | |- StronglySorted _ (take ?n (drop ?k sorted)) =>
      rewrite <- (take_drop k sorted) in Hsorted;
      apply StronglySorted_app_1_r in Hsorted;
      rewrite <- (take_drop n (drop k sorted)) in Hsorted;
      apply StronglySorted_app_1_l in Hsorted; exact Hsorted
  end.
Qed.



End QueryOrder.

Lemma getAllPosts_permutation_witness :
  getAllPosts sample_localeCompare sample_dateValue sample_toLowerCase
              Options.none (Some store_abc)
  ≡ₚ Data.posts store_abc.
Proof.
  exact (proj2 (getAllPosts_permutation sample_localeCompare sample_dateValue
                  sample_toLowerCase Options.none store_abc (or_introl eq_refl))
               eq_refl eq_refl eq_refl).
Defined.

Lemma sample_dates_parse :
  forall p, p ∈ stored_posts (Some store_abc) ->
            exists v, date_key sample_dateValue p = Some v.
Proof.
  intros p Hp. simpl in Hp.
  repeat (apply elem_of_cons in Hp as [->|Hp]; [eexists; reflexivity|]).
  inversion Hp.
Defined.

Lemma getAllPosts_ordered_by_date_witness :
  StronglySorted (date_ordered sample_dateValue Options.none)
    [stored_c; stored_b; stored_a].
Proof.
  exact (getAllPosts_ordered_by_date sample_localeCompare sample_dateValue
           sample_toLowerCase Options.none (Some store_abc)
           ltac:(discriminate) sample_dates_parse).
Defined.



(** * The post list of the page *)

Lemma slice_page {A} (l : list A) (a n : Z) :
  0 <= a -> 0 < n ->
  Js.slice l a (a + n) = take (Z.to_nat n) (drop (Z.to_nat a) l).
Proof.
  intros Ha Hn. unfold Js.slice, Js.clamp.
  destruct (Z.ltb_spec a 0); [lia|]. destruct (Z.ltb_spec (a + n) 0); [lia|].
  set (len := Z.of_nat (length l)).
  destruct (Z.le_gt_cases a len) as [Hle|Hgt].
  - replace (Z.to_nat (Z.min a len)) with (Z.to_nat a) by lia.
    destruct (Z.le_gt_cases (a + n) len).
    + f_equal. lia.
    + rewrite !take_ge; [reflexivity| |]; rewrite length_drop; lia.
  - rewrite !drop_ge by lia. rewrite !take_nil. reflexivity.
Qed.

Section PagerFacts.

Variable localeCompare : string -> string -> Z.
Variable dateValue : string -> option Z.
Variable toLowerCase : string -> string.

Local Abbreviation getAllPosts4 := (getAllPosts localeCompare dateValue toLowerCase).
Local Abbreviation UIManager_loadPosts4 :=
  (UIManager_loadPosts localeCompare dateValue toLowerCase).
Local Abbreviation PostManager_loadPosts4 :=
  (PostManager_loadPosts localeCompare dateValue toLowerCase).

Lemma UIManager_page (v : View) (page : Z) (ls : Storage) :
  0 < postsPerPage v ->
  getAllPosts4 (UIManager_options v page) ls
  = Js.slice (getAllPosts4 (with_page (UIManager_options v 0) None None) ls)
             (page * postsPerPage v) (page * postsPerPage v + postsPerPage v).
Proof.
  intros Hn. destruct ls as [d|];
    [|simpl; unfold Js.slice; rewrite drop_nil, take_nil; reflexivity].
  unfold getAllPosts.
  change (query localeCompare dateValue toLowerCase
            (with_page (UIManager_options v 0) None None) (Data.posts d))
    with (Js.sort (comparator localeCompare dateValue (UIManager_options v 0))
            (apply_filters toLowerCase (UIManager_options v 0) (Data.posts d))).
  unfold query, paginate. cbn [Options.limit Options.offset UIManager_options].
  destruct (Z.eqb_spec (postsPerPage v) 0); [lia|]. reflexivity.
Qed.


Lemma join_replicate_end {A} (k : nat) (x : list A) :
  mjoin (replicate k x) ++ x = mjoin (replicate (S k) x).
Proof.
  rewrite replicate_S_end, join_app. simpl. rewrite app_nil_r. reflexivity.
Qed.

(** X17. [PostManager.loadPosts] fetches the same page every time. Its
    options object carries the filters, the sort and the page under keys
    that getAllPosts does not read, so each load returns the first
    [postsPerPage] posts of the unfiltered store in the default order.
    When the store holds at least that many posts, [k] loads leave the
    container with [k] copies of that page, and [hasMorePosts] stays
    true. *)
Theorem PostManager_scroll_repeats (v : View) (ls : Storage) (k : nat) :
  0 < postsPerPage v ->
  let all := getAllPosts4 Options.none ls in
  postsPerPage v <= Z.of_nat (length all) ->
  Nat.iter k (PostManager_loadPosts4 v ls) Pager_reset
  = mkPager false (Z.of_nat k) true
            (mjoin (replicate k (take (Z.to_nat (postsPerPage v)) all))).
Proof.
  intros Hn all Hlen.
  assert (Hpage : forall page,
             getAllPosts4 (PostManager_options v page) ls
             = take (Z.to_nat (postsPerPage v)) all).
  { intros page. subst all. destruct ls as [d|]; [|simpl; rewrite take_nil; reflexivity].
    unfold getAllPosts.
    change (query localeCompare dateValue toLowerCase Options.none (Data.posts d))
      with (Js.sort (comparator localeCompare dateValue Options.none)
              (apply_filters toLowerCase Options.none (Data.posts d))).
    unfold query, paginate. cbn [Options.limit Options.offset PostManager_options].
    destruct (Z.eqb_spec (postsPerPage v) 0); [lia|].
    rewrite (slice_page _ 0 (postsPerPage v)) by lia.
    rewrite drop_0. reflexivity. }
  induction k as [|k IH]; [reflexivity|].
  rewrite Nat.iter_succ, IH.
  unfold PostManager_loadPosts, loadPosts.
  cbn [isLoading hasMorePosts currentPage shown orb negb].
  rewrite Hpage, join_replicate_end, length_take.
  f_equal; [lia|]. apply Z.eqb_eq. lia.
Qed.

End PagerFacts.


Lemma PostManager_scroll_repeats_witness :
  shown (Nat.iter 2 (PostManager_loadPosts sample_localeCompare sample_dateValue
                       sample_toLowerCase sample_view (Some store_abc)) Pager_reset)
  = [stored_c; stored_b; stored_c; stored_b].
Proof.
  rewrite (PostManager_scroll_repeats sample_localeCompare sample_dateValue
             sample_toLowerCase sample_view (Some store_abc) 2);
    [reflexivity|simpl; lia|simpl; lia].
Defined.

(** * Further properties of the sync cycle *)

Lemma addPost_keeps_found (now uuid : string) (post : Post) (sync : bool)
    (s : Session) (ls : Storage) (i : option string) :
  is_Some (getPostById i ls) ->
  is_Some (getPostById i (storage (addPost now uuid post sync s ls))).
Proof.
  intros [p Hp]. exists p. apply addPost_keeps_lookup. exact Hp.
Qed.

Lemma updatePost_keeps_found (now : string) (post : Post) (sync : bool)
    (s : Session) (ls : Storage) (i : option string) :
  is_Some (getPostById i ls) ->
  is_Some (getPostById i (storage (updatePost now post sync s ls))).
Proof.
  intros [p Hp]. destruct (decide (id post = i)) as [<-|Hne].
  - eexists. apply (updatePost_same_id now post sync s ls p Hp).
  - exists p. rewrite updatePost_other_id by exact Hne. exact Hp.
Qed.

Lemma addPost_stores_id (now uuid : string) (post : Post) (sync : bool)
    (s : Session) (ls : Storage) (stored : Post) :
  outcome (addPost now uuid post sync s ls) = Resolved stored ->
  is_Some (getPostById (id stored) (storage (addPost now uuid post sync s ls))).
Proof.
  intros Hok. destruct (addPost_accepted _ _ _ _ _ _ _ Hok) as (_ & d & -> & Hst).
  rewrite Hst. simpl.
  destruct (List.find (has_id (id stored)) (Data.posts d)) as [q|] eqn:Hq.
  - exists q. apply find_app_some. exact Hq.
  - exists stored. rewrite find_app_none by exact Hq. simpl.
    replace (has_id (id stored) stored) with true
      by (symmetry; apply has_id_true; reflexivity).
    reflexivity.
Qed.

Lemma stamp_keeps_truthy_id (now uuid : string) (post : Post) :
  Js.truthy (id post) = true -> id (stamp now uuid post) = id post.
Proof. intros H. simpl. rewrite H. reflexivity. Qed.

Section SyncLoop.

Variables clock uuid : nat -> string.
Variable s : Session.
Variable localPosts : list Post.

Lemma merge_remote_consistent (remotePosts : list Post) (k : nat) (d : Data.t) :
  consistent d ->
  Forall (fun r => NoDup (tags_or_empty r)) remotePosts ->
  exists d',
    merge_storage (merge_remote clock uuid k s localPosts remotePosts (Some d)) = Some d' /\
    consistent d'.
Proof.
  revert k d. induction remotePosts as [|r rest IH]; intros k d Hd Hnd.
  - exists d. split; [reflexivity|exact Hd].
  - apply Forall_cons in Hnd as [Hr Hrest]. cbn [merge_remote].
    destruct (List.find (has_id (id r)) localPosts) as [l|].
    + destruct (Js.gt (updatedAt r) (updatedAt l)).
      * destruct (updatePost_consistent (clock k) r false s d Hd Hr) as (d1 & Hd1 & Hc1).
        destruct (outcome (updatePost (clock k) r false s (Some d)));
          cbn [merge_storage]; rewrite Hd1; eauto.
      * cbn [merge_storage]. apply IH; assumption.
    + destruct (addPost_consistent (clock k) (uuid k) r false s d Hd Hr) as (d1 & Hd1 & Hc1).
      destruct (outcome (addPost (clock k) (uuid k) r false s (Some d)));
        cbn [merge_storage]; rewrite Hd1; eauto.
Qed.

Lemma merge_remote_keeps_found (remotePosts : list Post) (k : nat) (ls : Storage)
    (i : option string) :
  is_Some (getPostById i ls) ->
  is_Some (getPostById i
             (merge_storage (merge_remote clock uuid k s localPosts remotePosts ls))).
Proof.
  revert k ls. induction remotePosts as [|r rest IH]; intros k ls Hi; [exact Hi|].
  simpl. destruct (List.find (has_id (id r)) localPosts) as [l|].
  - destruct (Js.gt (updatedAt r) (updatedAt l)).
    + pose proof (updatePost_keeps_found (clock k) r false s ls i Hi) as Hkeep.
      destruct (outcome (updatePost (clock k) r false s ls)); simpl; auto.
    + simpl. apply IH. exact Hi.
  - pose proof (addPost_keeps_found (clock k) (uuid k) r false s ls i Hi) as Hkeep.
    destruct (outcome (addPost (clock k) (uuid k) r false s ls)); simpl; auto.
Qed.

Lemma merge_remote_pulls (remotePosts : list Post) (k : nat) (ls : Storage) (r0 : Post) :
  (forall i, List.find (has_id i) localPosts <> None -> is_Some (getPostById i ls)) ->
  merge_error (merge_remote clock uuid k s localPosts remotePosts ls) = None ->
  r0 ∈ remotePosts ->
  Js.truthy (id r0) = true ->
  is_Some (getPostById (id r0)
             (merge_storage (merge_remote clock uuid k s localPosts remotePosts ls))).
Proof.
  revert k ls. induction remotePosts as [|r rest IH]; intros k ls Hsnap Herr Hin Htruthy;
    [inversion Hin|].
  simpl in *. destruct (List.find (has_id (id r)) localPosts) as [l|] eqn:Hfind.
  - assert (Hr : is_Some (getPostById (id r) ls))
      by (apply Hsnap; rewrite Hfind; discriminate).
    destruct (Js.gt (updatedAt r) (updatedAt l)).
    + pose proof (updatePost_settles s (clock k) r false ls) as Hsettles.
      pose proof (fun i => updatePost_keeps_found (clock k) r false s ls i) as Hkeep.
      destruct (outcome (updatePost (clock k) r false s ls)); simpl in *;
        [|discriminate|congruence].
      apply elem_of_cons in Hin as [->|Hin].
      * apply merge_remote_keeps_found, Hkeep, Hr.
      * apply IH; auto.
    + simpl in *. apply elem_of_cons in Hin as [->|Hin].
      * apply merge_remote_keeps_found, Hr.
      * apply IH; auto.
  - pose proof (addPost_settles s (clock k) (uuid k) r false ls) as Hsettles.
    pose proof (fun i => addPost_keeps_found (clock k) (uuid k) r false s ls i) as Hkeep.
    destruct (outcome (addPost (clock k) (uuid k) r false s ls)) as [st| |] eqn:Hout;
      simpl in *; [|discriminate|congruence].
    apply elem_of_cons in Hin as [->|Hin].
    + apply merge_remote_keeps_found.
      pose proof (addPost_stores_id _ _ _ _ _ _ _ Hout) as Hst.
      destruct (addPost_accepted _ _ _ _ _ _ _ Hout) as (Hstamp & _).
      rewrite Hstamp, stamp_keeps_truthy_id in Hst by exact Htruthy. exact Hst.
    + apply IH; auto.
Qed.

Lemma merge_seen_ids (remotePosts : list Post) (k : nat) (ls : Storage) (q : Post) :
  (forall r, r ∈ remotePosts -> Js.truthy (id r) = true) ->
  q ∈ merge_seen (merge_remote clock uuid k s localPosts remotePosts ls) ->
  exists r, r ∈ remotePosts /\ id q = id r.
Proof.
  revert k ls. induction remotePosts as [|r rest IH]; intros k ls Htruthy Hq;
    [inversion Hq|].
  assert (Hrest : forall r', r' ∈ rest -> Js.truthy (id r') = true)
    by (intros r' Hr'; apply Htruthy; right; exact Hr').
  assert (Hhead : forall q', q' = r \/ q' = set_updatedAt r (clock k) \/
                             q' = stamp (clock k) (uuid k) r ->
                             exists r', r' ∈ r :: rest /\ id q' = id r').
  { intros q' [ -> | [ -> | -> ] ]; exists r; (split; [left|]); try reflexivity.
    apply stamp_keeps_truthy_id, Htruthy. left. }
  assert (Htail : forall k' ls',
             q ∈ merge_seen (merge_remote clock uuid k' s localPosts rest ls') ->
             exists r', r' ∈ r :: rest /\ id q = id r').
  { intros k' ls' Hq'. destruct (IH k' ls' Hrest Hq') as (r' & Hr' & Hid).
    exists r'. split; [right; exact Hr'|exact Hid]. }
  simpl in Hq. destruct (List.find (has_id (id r)) localPosts) as [l|].
  - destruct (Js.gt (updatedAt r) (updatedAt l)).
    + destruct (outcome (updatePost (clock k) r false s ls)); simpl in Hq;
        apply elem_of_cons in Hq as [->|Hq]; eauto; inversion Hq.
    + simpl in Hq. apply elem_of_cons in Hq as [->|Hq]; eauto.
  - destruct (outcome (addPost (clock k) (uuid k) r false s ls)); simpl in Hq;
      apply elem_of_cons in Hq as [->|Hq]; eauto; inversion Hq.
Qed.

End SyncLoop.

Section SyncCycleMore.

Variable localeCompare : string -> string -> Z.
Variable dateValue : string -> option Z.
Variable toLowerCase : string -> string.

Local Abbreviation syncWithSupabase5 :=
  (syncWithSupabase localeCompare dateValue toLowerCase).
Local Abbreviation getAllPosts5 := (getAllPosts localeCompare dateValue toLowerCase).

Lemma snapshot_posts (d : Data.t) (p : Post) :
  p ∈ getAllPosts5 Options.none (Some d) <-> p ∈ Data.posts d.
Proof. unfold getAllPosts, query. simpl. apply sort_elem. Qed.

Lemma snapshot_found (d : Data.t) (i : option string) :
  List.find (has_id i) (getAllPosts5 Options.none (Some d)) <> None ->
  is_Some (getPostById i (Some d)).
Proof.
  intros Hfind. simpl.
  destruct (List.find (has_id i) (getAllPosts5 Options.none (Some d))) as [q|] eqn:Hq;
    [|contradiction].
  apply find_some in Hq as [Hin Hid]. apply list_elem_of_In, snapshot_posts in Hin.
  destruct (List.find (has_id i) (Data.posts d)) as [q'|] eqn:Hq'; [eauto|].
  rewrite find_none_iff in Hq'. rewrite (Hq' q Hin) in Hid. discriminate.
Qed.

(** X18. A sync cycle keeps the tag counts right. When the stored
    document is consistent and no fetched remote post names a tag twice,
    the document after the cycle is consistent again, however the cycle
    ends: every tag record counts the stored posts that carry its name
    and no record has the count zero. *)
Theorem sync_keeps_tag_counts (clock uuid : nat -> string) (supabaseClient : bool)
    (s : Session) (syncQueue : list SyncEntry) (response : SelectResponse)
    (d : Data.t) :
  consistent d ->
  (forall remotePosts, response = SelectData remotePosts ->
     Forall (fun r => NoDup (tags_or_empty r)) remotePosts) ->
  exists d',
    cycle_storage (syncWithSupabase5 clock uuid supabaseClient s syncQueue response (Some d))
    = Some d' /\
    consistent d' /\ tag_counts_exact d'.
Proof.
  intros Hd Hnd. unfold syncWithSupabase.
  assert (Hsame : exists d', Some d = Some d' /\ consistent d' /\ tag_counts_exact d')
    by (exists d; auto using consistent_exact).
  destruct supabaseClient; [|exact Hsame].
  destruct (currentUser s) as [owner|]; [|exact Hsame].
  destruct response as [remotePosts|e]; [|exact Hsame].
  destruct (merge_remote_consistent clock uuid s
              (getAllPosts5 Options.none (Some d)) remotePosts 0 d Hd
              (Hnd remotePosts eq_refl)) as (d' & Hd' & Hc').
  destruct (merge_error _); cbn [cycle_storage]; rewrite Hd';
    exists d'; auto using consistent_exact.
Qed.

(** X19. A sync cycle never removes a local post: an id that
    getPostById finds before the cycle is still found after it, however
    the cycle ends. *)
Theorem sync_never_drops_posts (clock uuid : nat -> string) (supabaseClient : bool)
    (s : Session) (syncQueue : list SyncEntry) (response : SelectResponse)
    (ls : Storage) (i : option string) :
  is_Some (getPostById i ls) ->
  is_Some (getPostById i
    (cycle_storage (syncWithSupabase5 clock uuid supabaseClient s syncQueue response ls))).
Proof.
  intros Hi. unfold syncWithSupabase.
  destruct supabaseClient; [|exact Hi].
  destruct (currentUser s) as [owner|]; [|exact Hi].
  destruct response as [remotePosts|e]; [|exact Hi].
  pose proof (merge_remote_keeps_found clock uuid s
                (getAllPosts5 Options.none ls) remotePosts 0 ls i Hi) as Hkeep.
  destruct (merge_error _); exact Hkeep.
Qed.

(** X20. A cycle that runs to its end has pulled every remote post:
    each fetched post with a truthy id is found locally under its id
    afterwards. *)
Theorem sync_pulls_remote_posts (clock uuid : nat -> string) (s : Session)
    (owner : string) (syncQueue : list SyncEntry) (remotePosts : list Post)
    (d : Data.t) (r : Post) :
  currentUser s = Some owner ->
  let c := syncWithSupabase5 clock uuid true s syncQueue (SelectData remotePosts)
                             (Some d) in
  cycle_error c = None ->
  r ∈ remotePosts ->
  Js.truthy (id r) = true ->
  is_Some (getPostById (id r) (cycle_storage c)).
Proof.
  intros Hs c Herr Hin Htruthy. subst c. unfold syncWithSupabase in *.
  rewrite Hs in *.
  set (lp := getAllPosts5 Options.none (Some d)) in *.
  set (m := merge_remote clock uuid 0 s lp remotePosts (Some d)) in *.
  assert (Hm : merge_error m = None).
  { destruct (merge_error m); [discriminate Herr|reflexivity]. }
  rewrite Hm. cbn [cycle_storage].
  apply merge_remote_pulls; auto.
  intros i Hi. apply snapshot_found. exact Hi.
Qed.

(** X21. A cycle that runs to its end pushes exactly the local posts
    that have no remote counterpart. When every fetched post has a
    truthy id, the remote calls after the select are one insert, with
    the owner added, for each stored post whose id no fetched post has,
    and nothing else. *)
Theorem sync_pushes_local_only (clock uuid : nat -> string) (s : Session)
    (owner : string) (syncQueue : list SyncEntry) (remotePosts : list Post)
    (d : Data.t) :
  currentUser s = Some owner ->
  let c := syncWithSupabase5 clock uuid true s syncQueue (SelectData remotePosts)
                             (Some d) in
  cycle_error c = None ->
  (forall r, r ∈ remotePosts -> Js.truthy (id r) = true) ->
  exists pushed,
    cycle_calls c
    = map remote_call_of syncQueue ++ RemoteSelect owner :: map RemoteInsert pushed /\
    forall row, row ∈ pushed <->
      exists l, l ∈ Data.posts d /\ row = with_owner l owner /\
                forall r, r ∈ remotePosts -> id r <> id l.
Proof.
  intros Hs c Herr Htruthy. subst c. unfold syncWithSupabase in *.
  rewrite Hs in *.
  set (lp := getAllPosts5 Options.none (Some d)) in *.
  set (m := merge_remote clock uuid 0 s lp remotePosts (Some d)) in *.
  assert (Hm : merge_error m = None).
  { destruct (merge_error m); [discriminate Herr|reflexivity]. }
  rewrite Hm. cbn [cycle_calls].
  set (unmatched := fun l : Post =>
         match List.find (has_id (id l)) (merge_seen m) with
         | None => true
         | Some _ => false
         end).
  exists (map (fun l => with_owner l owner) (List.filter unmatched lp)).
  split.
  { unfold push_local. fold unmatched. rewrite map_map. reflexivity. }
  intros row. split.
  - intros Hrow. apply list_elem_of_fmap in Hrow as (l & -> & Hl).
    apply list_elem_of_In, filter_In in Hl as [Hl Hun].
    apply list_elem_of_In in Hl. exists l.
    split; [apply snapshot_posts; exact Hl|]. split; [reflexivity|].
    intros r Hr Hid.
    destruct (merge_seen_id clock uuid s lp remotePosts 0 (Some d) r Hm Hr)
      as (q & Hq & Hidq).
    { rewrite Hid. intros Hnone. rewrite find_none_iff in Hnone.
      specialize (Hnone l Hl). apply has_id_false in Hnone. congruence. }
    fold m in Hq. unfold unmatched in Hun.
    destruct (List.find (has_id (id l)) (merge_seen m)) eqn:Hfind; [discriminate|].
    rewrite find_none_iff in Hfind. specialize (Hfind q Hq).
    apply has_id_false in Hfind. congruence.
  - intros (l & Hl & -> & Hno).
    apply (list_elem_of_fmap_2 (fun l => with_owner l owner)).
    apply list_elem_of_In, filter_In. split.
    + apply list_elem_of_In, snapshot_posts. exact Hl.
    + unfold unmatched.
      destruct (List.find (has_id (id l)) (merge_seen m)) as [q|] eqn:Hfind;
        [|reflexivity].
      apply find_some in Hfind as [Hq Hidq]. apply list_elem_of_In in Hq.
      apply has_id_true in Hidq.
      destruct (merge_seen_ids clock uuid s lp remotePosts 0 (Some d) q Htruthy Hq)
        as (r & Hr & Hqr).
      exfalso. apply (Hno r Hr). congruence.
Qed.

End SyncCycleMore.

Lemma sync_keeps_tag_counts_witness :
  exists d', cycle_storage cycle_fresh = Some d' /\ consistent d' /\ tag_counts_exact d'.
Proof.
  apply (sync_keeps_tag_counts sample_localeCompare sample_dateValue sample_toLowerCase
           clock_t3 sample_uuid true signed_in [] (SelectData [remote_a_newer])
           Data.empty consistent_empty).
  intros remotePosts [= <-]. repeat constructor. intros Hin. inversion Hin.
Defined.

Lemma sync_never_drops_posts_witness :
  is_Some (getPostById (Some "id-2"%string) (cycle_storage cycle_abc)).
Proof.
  apply (sync_never_drops_posts sample_localeCompare sample_dateValue sample_toLowerCase
           clock_t3 sample_uuid true signed_in [] (SelectData [remote_a_newer])
           (Some store_abc) (Some "id-2"%string)).
  exists stored_b. reflexivity.
Defined.

Lemma sync_pulls_remote_posts_witness :
  is_Some (getPostById (Some "id-1"%string) (cycle_storage cycle_fresh)).
Proof.
  apply (sync_pulls_remote_posts sample_localeCompare sample_dateValue
           sample_toLowerCase clock_t3 sample_uuid signed_in "user-1" []
           [remote_a_newer] Data.empty remote_a_newer eq_refl eq_refl).
  - apply list_elem_of_singleton. reflexivity.
  - reflexivity.
Defined.

Lemma sync_pushes_local_only_witness :
  exists pushed,
    cycle_calls cycle_abc = RemoteSelect "user-1" :: map RemoteInsert pushed /\
    forall row, row ∈ pushed <->
      exists l, l ∈ Data.posts store_abc /\ row = with_owner l "user-1" /\
                forall r, r ∈ [remote_a_newer] -> id r <> id l.
Proof.
  apply (sync_pushes_local_only sample_localeCompare sample_dateValue
           sample_toLowerCase clock_t3 sample_uuid signed_in "user-1" []
           [remote_a_newer] store_abc eq_refl eq_refl).
  intros r Hr. apply list_elem_of_singleton in Hr. subst r. reflexivity.
Defined.

(** * Further properties of the early calls *)

Lemma resume_all_finished (rs : list (Settled Value)) (s : Session) (ls : Storage) :
  resume_all (map Finished rs) s ls = (rs, ls).
Proof.
  induction rs as [|r rs IH]; [reflexivity|].
  cbn [map resume_all resume]. rewrite IH. reflexivity.
Qed.

Lemma addPost_fresh_url (now uuid : string) (post : Post) (sync : bool)
    (s : Session) (d : Data.t) :
  (forall q, q ∈ Data.posts d -> url q <> url post) ->
  exists d',
    outcome (addPost now uuid post sync s (Some d)) = Resolved (stamp now uuid post) /\
    storage (addPost now uuid post sync s (Some d)) = Some d' /\
    Data.posts d' = Data.posts d ++ [stamp now uuid post].
Proof.
  intros Hurl. unfold addPost. change (url (stamp now uuid post)) with (url post).
  destruct (Z.leb_spec 0 (Js.findIndex (has_url (url post)) (Data.posts d)))
    as [Hfound|_].
  - exfalso.
    destruct (List.find (has_url (url post)) (Data.posts d)) as [q|] eqn:Hq.
    + apply find_some in Hq as [Hin Hq]. apply String.eqb_eq in Hq.
      apply (Hurl q); [apply list_elem_of_In; exact Hin|exact Hq].
    + apply findIndex_find_none in Hq. lia.
  - eexists. split; [reflexivity|]. split; reflexivity.
Qed.

Lemma defer_all_keeps (cs : list Call) (db : DB) :
  session (foldl (fun db c => defer c db) db cs) = session db /\
  localStorage (foldl (fun db c => defer c db) db cs) = localStorage db.
Proof.
  revert db. induction cs as [|c cs IH]; intros db; simpl; [auto|].
  destruct (IH (defer c db)) as [H1 H2]. rewrite H1, H2. auto.
Qed.

Section EarlyCalls.

Variable localeCompare : string -> string -> Z.
Variable dateValue : string -> option Z.
Variable toLowerCase : string -> string.
Variables clock uuid : nat -> string.
Variable s : Session.
Variable sync : bool.

Lemma start_all_adds (ps : list Post) (k : nat) (d : Data.t) :
  NoDup (map url ps) ->
  (forall p q, p ∈ ps -> q ∈ Data.posts d -> url q <> url p) ->
  exists d',
    start_all localeCompare dateValue toLowerCase clock uuid k
              (map (fun p => CallAddPost p sync) ps) s (Some d)
    = (map Finished (map (fun p => Resolved (VPost p)) (stamped_from clock uuid k ps)),
       Some d') /\
    Data.posts d' = Data.posts d ++ stamped_from clock uuid k ps.
Proof.
  revert k d. induction ps as [|p ps IH]; intros k d Hnd Hfresh.
  - exists d. split; [reflexivity|]. simpl. rewrite app_nil_r. reflexivity.
  - simpl in Hnd. apply NoDup_cons in Hnd as [Hp Hnd].
    destruct (addPost_fresh_url (clock k) (uuid k) p sync s d) as (d1 & Hout & Hst & Hposts).
    { intros q Hq. apply (Hfresh p q); [left|exact Hq]. }
    destruct (IH (S k) d1 Hnd) as (d' & Hrun & Hposts').
    { intros p' q Hp' Hq. rewrite Hposts in Hq.
      apply elem_of_app in Hq as [Hq|Hq].
      - apply (Hfresh p' q); [right; exact Hp'|exact Hq].
      - apply list_elem_of_singleton in Hq. subst q. simpl.
        intros Heq. apply Hp. rewrite Heq. apply list_elem_of_fmap_2, Hp'. }
    exists d'. split.
    + cbn [map start_all start stamped_from]. rewrite Hout, Hst, Hrun. reflexivity.
    + rewrite Hposts', Hposts. cbn [stamped_from]. rewrite <- app_assoc. reflexivity.
Qed.

(** X22. addPost calls made before the store is ready all succeed, in
    call order. On a device with nothing in localStorage, when the posts
    have pairwise different urls, the fallback initialisation leaves the
    store ready with an empty queue, every early caller receives its
    post as stored, and the document holds the posts in the order of
    the calls. *)
Theorem early_addPosts_in_order (ps : list Post) :
  NoDup (map url ps) ->
  let db := foldl (fun db c => defer c db) (mkDB false [] s None)
                  (map (fun p => CallAddPost p sync) ps) in
  let done := fallbackToLocalStorage localeCompare dateValue toLowerCase
                                     clock uuid db in
  snd done = map (fun p => Resolved (VPost p)) (stamped_from clock uuid 0 ps) /\
  stored_posts (localStorage (fst done)) = stamped_from clock uuid 0 ps /\
  isInitialized (fst done) = true /\
  pendingOperations (fst done) = [].
Proof.
  intros Hnd db done.
  pose proof (defer_all_order (map (fun p => CallAddPost p sync) ps)
                (mkDB false [] s None)) as Hq.
  destruct (defer_all_keeps (map (fun p => CallAddPost p sync) ps)
              (mkDB false [] s None)) as [Hsess Hls].
  fold db in Hq, Hsess, Hls. cbn [pendingOperations session localStorage app] in *.
  destruct (start_all_adds ps 0 Data.empty Hnd) as (d' & Hrun & Hposts).
  { intros p q _ Hq'. inversion Hq'. }
  subst done. unfold fallbackToLocalStorage, processPendingOperations, run_task.
  cbn [pendingOperations session localStorage isInitialized].
  rewrite Hq, Hsess, Hls, Hrun, resume_all_finished.
  cbn [fst snd pendingOperations isInitialized localStorage stored_posts].
  rewrite Hposts, map_map. split; [apply map_ext; reflexivity|].
  repeat split.
Qed.

End EarlyCalls.

Lemma early_addPosts_in_order_witness :
  stored_posts (localStorage (fst (fallbackToLocalStorage
    sample_localeCompare sample_dateValue sample_toLowerCase sample_clock sample_uuid
    (foldl (fun db c => defer c db) (mkDB false [] offline None)
           (map (fun p => CallAddPost p true) [post_news_x; dated_later])))))
  = stamped_from sample_clock sample_uuid 0 [post_news_x; dated_later].
Proof.
  apply (early_addPosts_in_order sample_localeCompare sample_dateValue
           sample_toLowerCase sample_clock sample_uuid offline true
           [post_news_x; dated_later]).
  simpl. repeat constructor; intros Hin;
    repeat (apply elem_of_cons in Hin as [Hin|Hin]; [discriminate|]);
    inversion Hin.
Defined.

(** * The tag manager and the link form *)

Lemma append_assoc (a b c : string) :
  String.append (String.append a b) c = String.append a (String.append b c).
Proof.
  induction a as [|x a IH]; [reflexivity|].
  rewrite !append_cons, IH. reflexivity.
Qed.

Lemma comma_free_append (a b : string) :
  comma_free (String.append a b) = comma_free a && comma_free b.
Proof.
  induction a as [|x a IH]; [reflexivity|].
  rewrite append_cons. cbn [comma_free]. rewrite IH, andb_assoc. reflexivity.
Qed.

Lemma split_comma_free (t : string) :
  comma_free t = true -> split_comma t = [t].
Proof.
  induction t as [|c t IH]; [reflexivity|].
  cbn [comma_free split_comma]. intros H. apply andb_true_iff in H as [Hc Ht].
  apply negb_true_iff in Hc. rewrite Hc, (IH Ht). reflexivity.
Qed.

Lemma split_comma_append (t rest : string) :
  comma_free t = true ->
  split_comma (String.append t (String "," rest)) = t :: split_comma rest.
Proof.
  induction t as [|c t IH]; intros H.
  - rewrite append_empty. reflexivity.
  - cbn [comma_free] in H. apply andb_true_iff in H as [Hc Ht].
    apply negb_true_iff in Hc.
    rewrite append_cons. cbn [split_comma]. rewrite Hc, (IH Ht). reflexivity.
Qed.

Lemma split_join (pre t : string) (rest : list string) :
  comma_free pre = true ->
  Forall (fun x => comma_free x = true) (t :: rest) ->
  split_comma (String.append pre (join_comma (t :: rest)))
  = String.append pre t :: map (String.append " ") rest.
Proof.
  revert pre t. induction rest as [|t2 rest IH]; intros pre t Hpre Hall.
  - apply Forall_cons in Hall as [Ht _]. cbn [join_comma map].
    apply split_comma_free. rewrite comma_free_append, Hpre, Ht. reflexivity.
  - apply Forall_cons in Hall as [Ht Hall].
    change (join_comma (t :: t2 :: rest))
      with (String.append t (String.append ", " (join_comma (t2 :: rest)))).
    change (String.append ", " (join_comma (t2 :: rest)))
      with (String "," (String.append " " (join_comma (t2 :: rest)))).
    rewrite <- append_assoc, split_comma_append
      by (rewrite comma_free_append, Hpre, Ht; reflexivity).
    rewrite (IH " "%string t2 eq_refl Hall). reflexivity.
Qed.

Section TagManagerFacts.

Variable trim : string -> string.

Lemma parseTags_join (l : list string) :
  Forall (plain_tag trim) l -> parseTags trim (join_comma l) = l.
Proof.
  intros Hall. destruct l as [|t rest]; [reflexivity|].
  assert (Hfree : Forall (fun x => comma_free x = true) (t :: rest)).
  { eapply Forall_impl; [exact Hall|]. intros x (_ & Hx & _). exact Hx. }
  pose proof (split_join EmptyString t rest eq_refl Hfree) as Hsplit.
  rewrite !append_empty in Hsplit.
  apply Forall_cons in Hall as [(Hne & _ & Htrim & _) Hrest].
  unfold parseTags. rewrite Hsplit.
  destruct (String.eqb_spec (join_comma (t :: rest)) EmptyString) as [Hempty|_].
  - exfalso. destruct rest as [|t2 rest]; [exact (Hne Hempty)|].
    destruct t; [exact (Hne eq_refl)|]. discriminate Hempty.
  - cbn [map List.filter]. rewrite Htrim.
    destruct (String.eqb_spec t EmptyString) as [?|_]; [contradiction|].
    cbn [negb]. f_equal. clear Hsplit Hfree.
    induction Hrest as [|t2 rest (Hne2 & _ & _ & Htrim2) _ IH]; [reflexivity|].
    cbn [map List.filter]. rewrite Htrim2.
    destruct (String.eqb_spec t2 EmptyString) as [?|_]; [contradiction|].
    cbn [negb]. f_equal. exact IH.
Qed.

(** X23. The tag field reads back what it shows. For tags that are not
    empty, hold no comma and are unchanged by [trim] (also behind one
    space), [parseTags(formatTags(tags))] is the array [tags] again, in
    the same order; for a post without a tag array it is the empty
    array. *)
Theorem parseTags_formatTags (ts : option (list string)) :
  Forall (plain_tag trim) (match ts with Some l => l | None => [] end) ->
  parseTags trim (formatTags ts) = match ts with Some l => l | None => [] end.
Proof.
  destruct ts as [l|]; [apply parseTags_join|reflexivity].
Qed.

End TagManagerFacts.

Lemma sample_tags_plain :
  Forall (plain_tag sample_trim) ["news"; "x"]%string.
Proof. repeat constructor; discriminate. Defined.

Lemma parseTags_formatTags_witness :
  parseTags sample_trim (formatTags (Some ["news"; "x"]%string)) = ["news"; "x"]%string.
Proof.
  exact (parseTags_formatTags sample_trim (Some ["news"; "x"]%string) sample_tags_plain).
Defined.

(** ** Tag edits on a stored post *)

Lemma updatePost_tags (now : string) (post : Post) (sync : bool)
    (s : Session) (ls : Storage) (existing : Post) :
  getPostById (id post) ls = Some existing ->
  getAllTags (storage (updatePost now post sync s ls))
  = decrement_tags
      (increment_tags (getAllTags ls)
         (tagsToAdd (tags_or_empty existing) (tags_or_empty post)))
      (tagsToRemove (tags_or_empty existing) (tags_or_empty post)).
Proof.
  intros Hget. unfold updatePost, updatePost_resume.
  change (id (set_updatedAt post now)) with (id post). rewrite Hget.
  destruct ls as [d|]; [|discriminate Hget].
  simpl in Hget. pose proof (findIndex_find_some _ _ _ Hget) as [Hge _].
  destruct (Z.eqb_spec (Js.findIndex (has_id (id post)) (Data.posts d)) (-1));
    [lia|].
  reflexivity.
Qed.

Lemma filter_out_NoDup (tag : string) (ts : list string) :
  NoDup ts -> NoDup (List.filter (fun t => negb (String.eqb t tag)) ts).
Proof.
  intros Hnd. apply NoDup_ListNoDup, List.NoDup_filter, NoDup_ListNoDup, Hnd.
Qed.

Lemma filter_out_elem (tag : string) (ts : list string) (t : string) :
  t ∈ List.filter (fun t => negb (String.eqb t tag)) ts <-> t ∈ ts /\ t <> tag.
Proof.
  rewrite list_elem_of_In, List.filter_In, <- list_elem_of_In.
  destruct (String.eqb_spec t tag); simpl; intuition congruence.
Qed.

Lemma snoc_NoDup (ts : list string) (t : string) :
  NoDup ts -> t ∉ ts -> NoDup (ts ++ [t]).
Proof.
  intros Hnd Hnot. apply NoDup_app. split; [exact Hnd|]. split.
  - intros x Hx Hx'. apply list_elem_of_singleton in Hx'. subst x. exact (Hnot Hx).
  - apply NoDup_singleton.
Qed.

Section TagEdits.

Variable trim : string -> string.

(** X24. Adding a tag on a card. When the post is stored under its id
    with the same set of tags as the card holds, and the trimmed tag is
    not empty and not yet on the post, [addTagToPost] appends the trimmed
    tag to the post, stores that post under the same id, and raises the
    stored count of the trimmed tag by exactly one while every other
    count stays as it was. *)
Theorem addTagToPost_adds (now : string) (post existing : Post) (tag : string)
    (s : Session) (ls : Storage) :
  getPostById (id post) ls = Some existing ->
  (forall t, t ∈ tags_or_empty post <-> t ∈ tags_or_empty existing) ->
  tag <> EmptyString ->
  trim tag <> EmptyString ->
  trim tag ∉ tags_or_empty post ->
  tags (fst (addTagToPost trim now post tag s ls))
  = Some (tags_or_empty post ++ [trim tag]) /\
  getPostById (id post) (snd (addTagToPost trim now post tag s ls))
  = Some (fst (addTagToPost trim now post tag s ls)) /\
  forall t,
    tag_count (getAllTags (snd (addTagToPost trim now post tag s ls))) t
    = tag_count (getAllTags ls) t + (if String.eqb (trim tag) t then 1 else 0).
Proof.
  intros Hget Hsame Htag Htrim Hnew. unfold addTagToPost.
  destruct (String.eqb_spec tag EmptyString) as [?|_]; [contradiction|].
  destruct (String.eqb_spec (trim tag) EmptyString) as [?|_]; [contradiction|].
  change (tags_or_empty (with_tags post (tags_or_empty post)))
    with (tags_or_empty post).
  rewrite (proj2 (includes_false _ _) Hnew). cbn [fst snd].
  set (post' := with_tags (with_tags post (tags_or_empty post))
                          (tags_or_empty post ++ [trim tag])).
  assert (Hget' : getPostById (id post') ls = Some existing) by exact Hget.
  split; [reflexivity|]. split.
  - apply (updatePost_same_id now post' true s ls existing Hget').
  - intros t. rewrite (updatePost_tags now post' true s ls existing Hget').
    change (tags_or_empty post') with (tags_or_empty post ++ [trim tag]).
    assert (Hadd : tagsToAdd (tags_or_empty existing)
                             (tags_or_empty post ++ [trim tag]) = [trim tag]).
    { unfold tagsToAdd. rewrite List.filter_app, filter_nothing.
      - simpl.
        assert (Js.includes (tags_or_empty existing) (trim tag) = false) as ->;
          [|reflexivity].
        apply includes_false. rewrite <- Hsame. exact Hnew.
      - intros x Hx. apply negb_false_iff, includes_true, Hsame, Hx. }
    assert (Hrem : tagsToRemove (tags_or_empty existing)
                                (tags_or_empty post ++ [trim tag]) = []).
    { unfold tagsToRemove. apply filter_nothing. intros x Hx.
      apply negb_false_iff, includes_true, elem_of_app. left.
      apply Hsame, Hx. }
    rewrite Hadd, Hrem. unfold increment_tags, decrement_tags. cbn [foldl].
    apply increment_tag_count.
Qed.

Lemma addTagToPost_consistent (now : string) (post : Post) (tag : string)
    (s : Session) (d : Data.t) :
  consistent d ->
  NoDup (tags_or_empty post) ->
  NoDup (tags_or_empty (fst (addTagToPost trim now post tag s (Some d)))) /\
  exists d', snd (addTagToPost trim now post tag s (Some d)) = Some d' /\
             consistent d'.
Proof.
  intros Hd Hnd. unfold addTagToPost.
  destruct (String.eqb tag EmptyString); [split; [exact Hnd|eauto]|].
  destruct (String.eqb (trim tag) EmptyString); [split; [exact Hnd|eauto]|].
  change (tags_or_empty (with_tags post (tags_or_empty post)))
    with (tags_or_empty post).
  destruct (Js.includes (tags_or_empty post) (trim tag)) eqn:Hinc;
    [split; [exact Hnd|eauto]|].
  apply includes_false in Hinc. cbn [fst snd].
  assert (Hnd' : NoDup (tags_or_empty post ++ [trim tag]))
    by (apply snoc_NoDup; assumption).
  split; [exact Hnd'|].
  apply updatePost_consistent; [exact Hd|exact Hnd'].
Qed.

End TagEdits.

Lemma removeTagFromPost_consistent (now : string) (post : Post) (tag : string)
    (s : Session) (d : Data.t) :
  consistent d ->
  NoDup (tags_or_empty post) ->
  NoDup (tags_or_empty (fst (removeTagFromPost now post tag s (Some d)))) /\
  exists d', snd (removeTagFromPost now post tag s (Some d)) = Some d' /\
             consistent d'.
Proof.
  intros Hd Hnd. unfold removeTagFromPost.
  destruct (String.eqb tag EmptyString); [split; [exact Hnd|eauto]|].
  destruct (tags post) as [ts|] eqn:Hts; [|split; [exact Hnd|eauto]].
  assert (Hto : tags_or_empty post = ts)
    by (unfold tags_or_empty; rewrite Hts; reflexivity).
  destruct (Js.includes ts tag); cbn [negb]; [|split; [exact Hnd|eauto]].
  cbn [fst snd].
  assert (Hnd' : NoDup (List.filter (fun t => negb (String.eqb t tag)) ts))
    by (apply filter_out_NoDup; rewrite <- Hto; exact Hnd).
  split; [exact Hnd'|].
  apply updatePost_consistent; [exact Hd|exact Hnd'].
Qed.

(** X25. Removing a tag on a card. In a consistent store (one record
    per tag name, no stored post with a tag twice, every count the number
    of stored posts with the tag), when the post is stored under its id
    with the same set of tags as the card holds and the tag is on the
    post, [removeTagFromPost]
    takes the tag off the post, stores that post under the same id, and
    lowers the stored count of the tag by exactly one while every other
    count stays as it was. *)
Theorem removeTagFromPost_removes (now : string) (post existing : Post)
    (tag : string) (s : Session) (d : Data.t) :
  consistent d ->
  getPostById (id post) (Some d) = Some existing ->
  (forall t, t ∈ tags_or_empty post <-> t ∈ tags_or_empty existing) ->
  tag <> EmptyString ->
  tag ∈ tags_or_empty post ->
  (tag ∉ tags_or_empty (fst (removeTagFromPost now post tag s (Some d)))) /\
  getPostById (id post) (snd (removeTagFromPost now post tag s (Some d)))
  = Some (fst (removeTagFromPost now post tag s (Some d))) /\
  forall t,
    tag_count (getAllTags (snd (removeTagFromPost now post tag s (Some d)))) t
    = tag_count (Data.tags d) t - (if String.eqb tag t then 1 else 0).
Proof.
  intros (Hwf & Hposts & Hcount) Hget Hsame Htag Hin. unfold removeTagFromPost.
  destruct (String.eqb_spec tag EmptyString) as [?|_]; [contradiction|].
  destruct (tags post) as [ts|] eqn:Hts;
    [|unfold tags_or_empty in Hin; rewrite Hts in Hin; inversion Hin].
  assert (Hto : tags_or_empty post = ts)
    by (unfold tags_or_empty; rewrite Hts; reflexivity).
  rewrite Hto in Hin, Hsame.
  rewrite (proj2 (includes_true _ _) Hin). cbn [negb fst snd].
  set (new := List.filter (fun t => negb (String.eqb t tag)) ts).
  set (post' := with_tags post new).
  assert (Hget' : getPostById (id post') (Some d) = Some existing) by exact Hget.
  assert (Hstored : existing ∈ Data.posts d).
  { simpl in Hget. apply List.find_some in Hget as [Hget _].
    apply list_elem_of_In. exact Hget. }
  assert (Hold : NoDup (tags_or_empty existing)).
  { rewrite Forall_forall in Hposts. apply Hposts, Hstored. }
  split; [|split].
  - change (tag ∉ new). unfold new. rewrite filter_out_elem. intros [_ H].
    apply H. reflexivity.
  - apply (updatePost_same_id now post' true s (Some d) existing Hget').
  - intros t. rewrite (updatePost_tags now post' true s (Some d) existing Hget').
    change (tags_or_empty post') with new. change (getAllTags (Some d)) with (Data.tags d).
    assert (Hadd : tagsToAdd (tags_or_empty existing) new = []).
    { unfold tagsToAdd. apply filter_nothing. intros x Hx.
      apply negb_false_iff, includes_true, Hsame.
      unfold new in Hx. apply filter_out_elem in Hx as [Hx _]. exact Hx. }
    rewrite Hadd. unfold increment_tags at 1. cbn [foldl].
    rewrite decrement_tags_count; [|idtac|exact Hwf].
    + rewrite includes_tagsToRemove.
      destruct (String.eqb_spec tag t) as [<-|Hne].
      * rewrite (proj2 (includes_true _ _) (proj1 (Hsame tag) Hin)).
        assert (Js.includes new tag = false) as ->.
        { apply includes_false. unfold new. rewrite filter_out_elem.
          intros [_ H]. apply H. reflexivity. }
        cbn [negb andb].
        assert (0 < tag_count (Data.tags d) tag).
        { rewrite Hcount. apply posts_with_tag_positive.
          exists existing. split; [exact Hstored|apply Hsame, Hin]. }
        lia.
      * destruct (Js.includes (tags_or_empty existing) t) eqn:Ht;
          cbn [andb]; [|lia].
        assert (Js.includes new t = true) as ->.
        { apply includes_true. unfold new. rewrite filter_out_elem.
          split; [apply Hsame, includes_true, Ht|congruence]. }
        cbn [negb]. lia.
    + unfold tagsToRemove.
      apply NoDup_ListNoDup, List.NoDup_filter, NoDup_ListNoDup, Hold.
Qed.

Lemma updatePostTags_consistent (trim : string -> string) (now : string)
    (post : Post) (newTags : TagsInput) (s : Session) (d : Data.t) :
  consistent d ->
  duplicate_free_edit trim (SetTags now newTags) ->
  NoDup (tags_or_empty (fst (updatePostTags trim now post newTags s (Some d)))) /\
  exists d', snd (updatePostTags trim now post newTags s (Some d)) = Some d' /\
             consistent d'.
Proof.
  intros Hd Hnd. unfold updatePostTags. cbn [fst snd].
  set (ts := match newTags with TagArray l => l | TagText text => parseTags trim text end).
  assert (Hts : NoDup ts) by (destruct newTags; exact Hnd).
  split; [exact Hts|].
  apply updatePost_consistent; [exact Hd|exact Hts].
Qed.

(** X26. Tag edits keep the tag counts exact. Starting from a
    consistent store and a card whose post has no tag twice,
    any sequence of [addTagToPost], [removeTagFromPost] and
    [updatePostTags] calls, each one on the post object the previous one
    left and no [updatePostTags] naming a tag twice, ends with a post
    that has no tag twice and a store that is consistent again, so that
    every tag record counts the stored posts with its name. *)
Theorem tag_edits_keep_consistency (trim : string -> string) (s : Session)
    (edits : list TagEdit) (post : Post) (d : Data.t) :
  Forall (duplicate_free_edit trim) edits ->
  consistent d ->
  NoDup (tags_or_empty post) ->
  NoDup (tags_or_empty (fst (foldl (apply_tag_edit trim s) (post, Some d) edits))) /\
  exists d',
    snd (foldl (apply_tag_edit trim s) (post, Some d) edits) = Some d' /\
    consistent d' /\ tag_counts_exact d'.
Proof.
  revert post d. induction edits as [|e edits IH]; intros post d Hok Hd Hnd.
  - split; [exact Hnd|]. exists d. auto using consistent_exact.
  - apply Forall_cons in Hok as [He Hok]. cbn [foldl].
    assert (Hstep :
      NoDup (tags_or_empty (fst (apply_tag_edit trim s (post, Some d) e))) /\
      exists d', snd (apply_tag_edit trim s (post, Some d) e) = Some d' /\
                 consistent d').
    { destruct e as [now tag|now tag|now newTags]; cbn [apply_tag_edit fst snd].
      - apply addTagToPost_consistent; assumption.
      - apply removeTagFromPost_consistent; assumption.
      - apply updatePostTags_consistent; assumption. }
    destruct (apply_tag_edit trim s (post, Some d) e) as [post1 ls1].
    cbn [fst snd] in Hstep. destruct Hstep as (Hnd1 & d1 & -> & Hd1).
    apply IH; assumption.
Qed.

(** ** The tag filters *)

Lemma addFilter_distinct (tag : string) (filters : list string) :
  NoDup filters -> EmptyString ∉ filters ->
  NoDup (addFilter tag filters) /\ EmptyString ∉ addFilter tag filters.
Proof.
  intros Hnd Hne. unfold addFilter.
  destruct (String.eqb_spec tag EmptyString) as [?|Htag]; cbn [orb]; [auto|].
  destruct (Js.includes filters tag) eqn:Hinc; [auto|].
  apply includes_false in Hinc. split; [apply snoc_NoDup; assumption|].
  intros H. apply elem_of_app in H as [H|H]; [exact (Hne H)|].
  apply list_elem_of_singleton in H. congruence.
Qed.

Lemma removeFilter_distinct (tag : string) (filters : list string) :
  NoDup filters -> EmptyString ∉ filters ->
  NoDup (removeFilter tag filters) /\ EmptyString ∉ removeFilter tag filters.
Proof.
  intros Hnd Hne. unfold removeFilter.
  destruct (String.eqb tag EmptyString || negb (Js.includes filters tag)); [auto|].
  split; [apply filter_out_NoDup, Hnd|].
  rewrite filter_out_elem. intros [H _]. exact (Hne H).
Qed.

(** X27. The active tag filters never hold a tag twice and never hold
    the empty tag: from a filter list with these two properties, any
    sequence of [addFilter], [removeFilter], [toggleFilter] and
    [clearAllFilters] leads to a list that has them too. *)
Theorem filters_stay_distinct (actions : list FilterAction) (filters : list string) :
  NoDup filters ->
  EmptyString ∉ filters ->
  NoDup (foldl apply_filter_action filters actions) /\
  EmptyString ∉ foldl apply_filter_action filters actions.
Proof.
  revert filters. induction actions as [|a actions IH]; intros filters Hnd Hne.
  - split; assumption.
  - cbn [foldl].
    assert (Hstep : NoDup (apply_filter_action filters a) /\
                    EmptyString ∉ apply_filter_action filters a).
    { destruct a as [tag|tag|tag|]; cbn [apply_filter_action].
      - apply addFilter_distinct; assumption.
      - apply removeFilter_distinct; assumption.
      - unfold toggleFilter. destruct (String.eqb tag EmptyString); [auto|].
        destruct (Js.includes filters tag).
        + apply removeFilter_distinct; assumption.
        + apply addFilter_distinct; assumption.
      - split; [apply NoDup_nil_2|apply not_elem_of_nil]. }
    destruct Hstep as [Hnd1 Hne1]. apply IH; assumption.
Qed.

(** X28. Toggling a tag filter twice gives back the same set of active
    filters, whatever the list and the tag; the order of the list can
    differ. *)
Theorem toggleFilter_twice (tag : string) (filters : list string) (t : string) :
  t ∈ toggleFilter tag (toggleFilter tag filters) <-> t ∈ filters.
Proof.
  unfold toggleFilter at 2.
  destruct (String.eqb_spec tag EmptyString) as [Hempty|Htag].
  { unfold toggleFilter. rewrite Hempty. reflexivity. }
  assert (Hneq : String.eqb tag EmptyString = false)
    by (apply String.eqb_neq; exact Htag).
  destruct (Js.includes filters tag) eqn:Hinc.
  - unfold removeFilter. rewrite Hneq, Hinc. cbn [negb orb].
    apply includes_true in Hinc.
    set (rest := List.filter (fun x => negb (String.eqb x tag)) filters).
    assert (Hout : Js.includes rest tag = false).
    { apply includes_false. unfold rest. rewrite filter_out_elem.
      intros [_ H]. apply H. reflexivity. }
    unfold toggleFilter, addFilter. rewrite Hneq, Hout. cbn [orb].
    rewrite elem_of_app, list_elem_of_singleton. unfold rest.
    rewrite filter_out_elem.
    destruct (String.eqb_spec t tag) as [->|Hne]; intuition congruence.
  - unfold addFilter. rewrite Hneq, Hinc. cbn [orb].
    apply includes_false in Hinc.
    assert (Hin : Js.includes (filters ++ [tag]) tag = true).
    { apply includes_true, elem_of_app. right. apply list_elem_of_singleton.
      reflexivity. }
    unfold toggleFilter, removeFilter. rewrite Hneq, Hin. cbn [negb orb].
    rewrite filter_out_elem, elem_of_app, list_elem_of_singleton.
    split; [intros [[H|H] Hne]; [exact H|contradiction]|].
    intros H. split; [left; exact H|]. intros ->. exact (Hinc H).
Qed.

(** ** The link form *)

(** X29. Saving the edit form without touching it changes nothing but
    the time stamp. When the form is opened on a stored post whose tags
    are not empty, hold no comma and are unchanged by [trim], and whose
    URL is not blank, submitting it with the tag text it was filled with
    calls updatePost, which resolves with the post under a new
    [updatedAt]; the tag records stay exactly as they were and the post
    is stored with all other fields as before. *)
Theorem LinkManager_save_unchanged (trim : string -> string) (now : string)
    (post : Post) (l : list string) (s : Session) (ls : Storage) :
  getPostById (id post) ls = Some post ->
  tags post = Some l ->
  Forall (plain_tag trim) l ->
  trim (url post) <> EmptyString ->
  exists r,
    LinkManager_save_edit trim now post (formatTags (tags post)) s ls = Some r /\
    outcome r = Resolved (set_updatedAt post now) /\
    getAllTags (storage r) = getAllTags ls /\
    getPostById (id post) (storage r) = Some (set_updatedAt post now).
Proof.
  intros Hget Htags Hplain Hurl. unfold LinkManager_save_edit.
  destruct (String.eqb_spec (trim (url post)) EmptyString) as [?|_];
    [contradiction|].
  rewrite Htags. cbn [formatTags]. rewrite (parseTags_join trim l Hplain).
  assert (Hsame : with_tags post l = post).
  { destruct post. simpl in Htags. subst. reflexivity. }
  rewrite Hsame. eexists. split; [reflexivity|].
  destruct (updatePost_same_id now post true s ls post Hget) as [Heq Hlookup].
  split; [rewrite Heq; reflexivity|]. split; [|exact Hlookup].
  rewrite (updatePost_tags now post true s ls post Hget).
  unfold tagsToAdd, tagsToRemove.
  rewrite !filter_nothing
    by (intros x Hx; apply negb_false_iff, includes_true, Hx).
  reflexivity.
Qed.

(** X30. [detectPlatform] looks for the site names anywhere in the URL:
    every URL in which [twitter.com] or [x.com] occurs is classified as
    twitter, whatever else it holds, so also a URL whose host merely ends
    in these letters. *)
Theorem detectPlatform_twitter (u : string) :
  occurs "twitter.com" u \/ occurs "x.com" u ->
  detectPlatform u = "twitter"%string.
Proof.
  intros [H|H]; apply str_includes_occurs in H; unfold detectPlatform;
    rewrite H; [reflexivity|rewrite orb_true_r; reflexivity].
Qed.

(** ** The properties at the sample data *)

Lemma store_a_consistent : consistent store_a.
Proof.
  destruct (addPost_consistent t1 "id-1" stored_a false offline Data.empty
              consistent_empty) as (d & Hd & Hc).
  - repeat constructor. intros Hin. inversion Hin.
  - vm_compute in Hd. injection Hd as <-. exact Hc.
Qed.

Lemma stored_a_tags_distinct : NoDup (tags_or_empty stored_a).
Proof. repeat constructor. intros Hin. inversion Hin. Qed.

Lemma addTagToPost_adds_witness :
  tags (fst (addTagToPost sample_trim t2 stored_a " x " offline (Some store_a)))
  = Some ["news"; "x"]%string /\
  tag_count (getAllTags (snd (addTagToPost sample_trim t2 stored_a " x " offline
                                (Some store_a)))) "x" = 1.
Proof.
  destruct (addTagToPost_adds sample_trim t2 stored_a stored_a " x " offline
              (Some store_a)) as (Htags & _ & Hcount).
  - reflexivity.
  - reflexivity.
  - discriminate.
  - discriminate.
  - intros Hin. apply list_elem_of_singleton in Hin. discriminate Hin.
  - split; [exact Htags|exact (Hcount "x"%string)].
Defined.

Lemma removeTagFromPost_removes_witness :
  tag_count (getAllTags (snd (removeTagFromPost t2 stored_a "news" offline
                                (Some store_a)))) "news" = 0.
Proof.
  destruct (removeTagFromPost_removes t2 stored_a stored_a "news" offline store_a)
    as (_ & _ & Hcount).
  - exact store_a_consistent.
  - reflexivity.
  - reflexivity.
  - discriminate.
  - apply list_elem_of_singleton. reflexivity.
  - exact (Hcount "news"%string).
Defined.

Lemma sample_edits_distinct :
  Forall (duplicate_free_edit sample_trim)
         [AddTag t2 " x "; RemoveTag t3 "news"; SetTags t3 (TagText "a, b")].
Proof.
  repeat constructor; simpl; intros Hin;
    repeat (apply elem_of_cons in Hin as [Hin|Hin]; [discriminate|]);
    inversion Hin.
Qed.

Lemma tag_edits_keep_consistency_witness :
  exists d',
    snd (foldl (apply_tag_edit sample_trim offline) (stored_a, Some store_a)
           [AddTag t2 " x "; RemoveTag t3 "news"; SetTags t3 (TagText "a, b")])
    = Some d' /\
    consistent d' /\ tag_counts_exact d'.
Proof.
  apply (tag_edits_keep_consistency sample_trim offline
           [AddTag t2 " x "; RemoveTag t3 "news"; SetTags t3 (TagText "a, b")]
           stored_a store_a
           sample_edits_distinct store_a_consistent stored_a_tags_distinct).
Defined.

Lemma filters_stay_distinct_witness :
  NoDup (foldl apply_filter_action []
           [ToggleFilter "news"; AddFilter "news"; AddFilter "x"; RemoveFilter "news"]) /\
  EmptyString ∉ foldl apply_filter_action []
           [ToggleFilter "news"; AddFilter "news"; AddFilter "x"; RemoveFilter "news"].
Proof.
  apply (filters_stay_distinct
           [ToggleFilter "news"; AddFilter "news"; AddFilter "x"; RemoveFilter "news"] []).
  - apply NoDup_nil_2.
  - apply not_elem_of_nil.
Defined.

Lemma LinkManager_save_unchanged_witness :
  exists r,
    LinkManager_save_edit sample_trim t2 stored_a (formatTags (tags stored_a))
                          offline (Some store_a) = Some r /\
    outcome r = Resolved (set_updatedAt stored_a t2) /\
    getAllTags (storage r) = getAllTags (Some store_a) /\
    getPostById (id stored_a) (storage r) = Some (set_updatedAt stored_a t2).
Proof.
  apply (LinkManager_save_unchanged sample_trim t2 stored_a ["news"]%string
           offline (Some store_a)).
  - reflexivity.
  - reflexivity.
  - repeat constructor; discriminate.
  - discriminate.
Defined.

Lemma detectPlatform_twitter_witness :
  detectPlatform "https://www.dropbox.com/s/1" = "twitter"%string.
Proof.
  apply detectPlatform_twitter. right.
  exists "https://www.dropbo"%string, "/s/1"%string. reflexivity.
Defined.
